(** * StrideLine pace lights: the rendering and timing engine of GUI1.py

    A shallow embedding of the event model ([PaceEvent]), of the colour
    helpers and of the three render loops of [Runner] ([run_event],
    [run_event_with_splits], [run_events_parallel]), followed by the
    properties of the specification that concern them.  The worker loop
    [Runner.run] and the part of [PaceGUI] that parses the form and keeps
    the event list come after the runners, with further properties of the
    code at the end.

    Numbers.  Python [int] is [Z].  Python [float] is read in two ways.
    The runners are written over the exact rationals [Q]: every arithmetic
    step of the source is kept, rounding, infinities and NaN are not, and
    the statements about them are those that do not depend on which of the
    two is meant (which branch is taken, what is drawn where, what is
    called in which order, bounds that rounding respects).  The event model,
    where the result hangs on single bits ([total_led_traversals],
    [precompute_trail]), is also written in binary64 itself, module [B64]:
    round to nearest, ties to even, with overflow; the statements about the
    trail levels and the traversal count are about that version.  The
    operations that raise in Python ([/] and [%] by zero, list indexing out
    of range, an int too large for a float) are written out with an
    explicit error result.

    Effects.  The LED strip, the monotonic clock and the stop flag are the
    outside world: the strip's calls are recorded in a trace, whether a call
    raises, what the clock reads and whether the stop flag is set are read
    from an environment [env], call by call.

    Loops.  The render loops take their number of iterations as fuel and
    end in [Diverge] when it is used up; the inner wrap loops carry a
    computed bound that is shown below to lose nothing.  Nothing below
    claims that a run without cancellation comes to an end: that depends
    on sums that rounding can leave unchanged. *)

From Stdlib Require Import ZArith QArith Qround Qminmax Qpower Qabs List Sorted Ascii
  String Bool Lia Lqa.
Import ListNotations.

Local Open Scope Z_scope.
Local Open Scope Q_scope.

(** ** Results of fallible code *)

Inductive exn : Type :=
| ValueError (msg : string)
| ZeroDivisionError
| OverflowError
| IndexError
| StripError.

(** [Raise] is a Python exception; [Diverge] stands for a loop that has used
    up its fuel. *)
Inductive outcome (A : Type) : Type :=
| Ok (a : A)
| Raise (e : exn)
| Diverge.

Arguments Ok {A} a.
Arguments Raise {A} e.
Arguments Diverge {A}.

Definition obind {A B : Type} (o : outcome A) (k : A -> outcome B) : outcome B :=
  match o with
  | Ok a => k a
  | Raise e => Raise e
  | Diverge => Diverge
  end.

Declare Scope outcome_scope.
Delimit Scope outcome_scope with outcome.
Notation "x <~ c ;; k" := (obind c (fun x => k))
  (at level 61, c at next level, right associativity) : outcome_scope.
Notation "' p <~ c ;; k" := (obind c (fun x => match x with p => k end))
  (at level 61, p pattern, c at next level, right associativity) : outcome_scope.

(** ** Python arithmetic on floats and ints *)

Module Py.

(** [a / b] on floats (or true division of ints). *)
Definition div (a b : Q) : outcome Q :=
  if Qeq_bool b 0 then Raise ZeroDivisionError else Ok (a / b).

(** [int(x)]: truncation towards zero. *)
Definition int (x : Q) : Z := Z.quot (Qnum x) (Zpos (Qden x)).

(** [x // y] on floats, for a non-zero constant [y]. *)
Definition floordiv (x y : Q) : Q := inject_Z (Qfloor (x / y)).

(** [x % n] for a float [x] and an int [n]. *)
Definition fmod (x : Q) (n : Z) : outcome Q :=
  if (n =? 0)%Z then Raise ZeroDivisionError
  else Ok (x - inject_Z n * inject_Z (Qfloor (x / inject_Z n))).

(** [range(n, -1, -1)]: [n, n-1, ..., 0], empty when [n < 0]. *)
Definition range_down (n : Z) : list Z :=
  map (fun k => (n - Z.of_nat k)%Z) (seq 0 (Z.to_nat (n + 1))).

(** [range(n)]. *)
Definition range (n : Z) : list Z :=
  map Z.of_nat (seq 0 (Z.to_nat n)).

(** [xs[i]] with Python's negative indices. *)
Definition index {A : Type} (xs : list A) (i : Z) : outcome A :=
  let n := Z.of_nat (List.length xs) in
  let j := if (i <? 0)%Z then (i + n)%Z else i in
  if ((0 <=? j)%Z && (j <? n)%Z)%bool then
    match nth_error xs (Z.to_nat j) with
    | Some x => Ok x
    | None => Raise IndexError
    end
  else Raise IndexError.

(** The list with position [i] replaced; [None] past the end. *)
Fixpoint set_nth {A : Type} (xs : list A) (i : nat) (v : A) : option (list A) :=
  match xs, i with
  | [], _ => None
  | _ :: tl, O => Some (v :: tl)
  | x :: tl, S j =>
      match set_nth tl j v with
      | Some tl' => Some (x :: tl')
      | None => None
      end
  end.

(** [xs[i] = v] with Python's negative indices. *)
Definition setitem {A : Type} (xs : list A) (i : Z) (v : A) : outcome (list A) :=
  let n := Z.of_nat (List.length xs) in
  let j := if (i <? 0)%Z then (i + n)%Z else i in
  if ((0 <=? j)%Z && (j <? n)%Z)%bool then
    match set_nth xs (Z.to_nat j) v with
    | Some xs' => Ok xs'
    | None => Raise IndexError
    end
  else Raise IndexError.

End Py.

(** ** Configuration *)

Definition MAX_FPS : Z := 120.
Definition START_LED_MILE : Z := 191.

Inductive color_order : Type := RGB | GRB | BRG | OtherOrder.
Definition COLOR_ORDER : color_order := GRB.

(** ** Colours *)

Definition rgb : Type := (Z * Z * Z)%type.

Definition black : rgb := (0, 0, 0)%Z.

Definition pack_color (r g b : Z) (order : color_order) : Z :=
  let r := Z.max 0 (Z.min 255 r) in
  let g := Z.max 0 (Z.min 255 g) in
  let b := Z.max 0 (Z.min 255 b) in
  match order with
  | RGB => Z.lor (Z.lor (Z.shiftl r 16) (Z.shiftl g 8)) b
  | GRB => Z.lor (Z.lor (Z.shiftl g 16) (Z.shiftl r 8)) b
  | BRG => Z.lor (Z.lor (Z.shiftl b 16) (Z.shiftl r 8)) g
  | OtherOrder => Z.lor (Z.lor (Z.shiftl r 16) (Z.shiftl g 8)) b
  end.

Definition clamp_byte (x : Z) : Z :=
  if (x <? 0)%Z then 0%Z else if (x >? 255)%Z then 255%Z else x.

Definition blend_additive (c1 c2 : rgb) : rgb :=
  let '(r1, g1, b1) := c1 in
  let '(r2, g2, b2) := c2 in
  (clamp_byte (r1 + r2), clamp_byte (g1 + g2), clamp_byte (b1 + b2)).

(** ** Domain model *)

Record PaceEvent : Type := mkPaceEvent {
  name : string;
  distance_m : Z;
  rail_leds : Z;
  target_time_s : Q;
  laps_m : Z;
  color : rgb;
  trail_len : Z;
  splits_100 : option (list Q);
  start_led : option Z
}.

Definition pace_mps (ev : PaceEvent) : Q :=
  if Qlt_le_dec 0 (target_time_s ev)
  then inject_Z (distance_m ev) / target_time_s ev
  else 0.

Definition leds_per_meter (ev : PaceEvent) : outcome Q :=
  Py.div (inject_Z (rail_leds ev)) (inject_Z (laps_m ev)).

Definition total_led_traversals (ev : PaceEvent) : outcome Z :=
  (q <~ Py.div (inject_Z (distance_m ev)) (inject_Z (laps_m ev)) ;;
   Ok (Z.max 1 (Qceiling q)))%outcome.

(** The brightness factor computed for loop variable [t]. *)
Definition trail_factor (n t : Z) : Q :=
  Qmax (1 # 10) (1 - inject_Z t / inject_Z (Z.max 1 n)).

Definition scale_channel (c : Z) (factor : Q) : Z :=
  Py.int (inject_Z c * factor).

Definition precompute_trail (ev : PaceEvent) : list rgb :=
  let '(r, g, b) := color ev in
  map (fun t =>
         let factor := trail_factor (trail_len ev) t in
         (scale_channel r factor, scale_channel g factor, scale_channel b factor))
      (Py.range_down (trail_len ev)).

(** ** The event model in binary64

    Python's [float] is the IEEE 754 binary64 format: 53 significant bits,
    exponents down to [2^-1074], every operation rounded to the nearest
    representable number, ties to the even one.  [B64] embeds that
    arithmetic on the rationals and, with it, the two methods of
    [PaceEvent] whose result rounding decides.  The sign of a zero, which
    neither method can observe, is not kept. *)

Module B64.

Definition pow2 (e : Z) : Q := Qpower 2 e.

(** The exponent of the binade of a positive [x]:
    [2^(ilog2 x) <= x < 2^(ilog2 x + 1)]. *)
Definition ilog2 (x : Q) : Z :=
  let l := (Z.log2 (Qnum x) - Z.log2 (Zpos (Qden x)))%Z in
  if Qle_bool (pow2 l) x then l else (l - 1)%Z.

(** The nearest integer, a tie going to the even one. *)
Definition rne (x : Q) : Z :=
  let f := Qfloor x in
  match Qcompare (x - inject_Z f) (1 # 2) with
  | Lt => f
  | Gt => (f + 1)%Z
  | Eq => if Z.even f then f else (f + 1)%Z
  end.

(** The nearest number with 53 significant bits and a unit in the last
    place of at least [2^-1074]; the range is not bounded above here. *)
Definition round (x : Q) : Q :=
  if Qeq_bool x 0 then 0
  else
    let e := Z.max (ilog2 (Qabs x) - 52) (-1074) in
    Qred (inject_Z (rne (x / pow2 e)) * pow2 e).

(** A rounded result that binary64 cannot hold. *)
Definition overflows (r : Q) : bool := Qle_bool (pow2 1024) (Qabs r).

Inductive float : Type :=
| Finite (q : Q)
| Infinity (negative : bool)
| NaN.

(** The float nearest to a real number. *)
Definition of_Q (x : Q) : float :=
  let r := round x in
  if overflows r then Infinity (negb (Qle_bool 0 x)) else Finite r.

(** The literals [0.1] and [1.0]. *)
Definition tenth : float := of_Q (1 # 10).
Definition one : float := Finite 1.

(** [a - b] on floats. *)
Definition sub (a b : float) : float :=
  match a, b with
  | NaN, _ => NaN
  | _, NaN => NaN
  | Finite x, Finite y => of_Q (x - y)
  | Finite _, Infinity s => Infinity (negb s)
  | Infinity s, Finite _ => Infinity s
  | Infinity s, Infinity s' => if Bool.eqb s s' then NaN else Infinity s
  end.

(** [a * b] on floats. *)
Definition mul (a b : float) : float :=
  match a, b with
  | NaN, _ => NaN
  | _, NaN => NaN
  | Finite x, Finite y => of_Q (x * y)
  | Finite x, Infinity s =>
      if Qeq_bool x 0 then NaN else Infinity (xorb s (negb (Qle_bool 0 x)))
  | Infinity s, Finite y =>
      if Qeq_bool y 0 then NaN else Infinity (xorb s (negb (Qle_bool 0 y)))
  | Infinity s, Infinity s' => Infinity (xorb s s')
  end.

(** [a < b] on floats. *)
Definition lt (a b : float) : bool :=
  match a, b with
  | NaN, _ => false
  | _, NaN => false
  | Finite x, Finite y => negb (Qle_bool y x)
  | Finite _, Infinity s => negb s
  | Infinity s, Finite _ => s
  | Infinity s, Infinity s' => (s && negb s')%bool
  end.

(** [max(a, b)]: [b] when [b > a], otherwise [a]. *)
Definition max (a b : float) : float := if lt a b then b else a.

(** An [int] taken as a float, as in [r * factor]. *)
Definition of_int (n : Z) : outcome float :=
  let r := round (inject_Z n) in
  if overflows r then Raise OverflowError else Ok (Finite r).

(** [a / b] on ints: the quotient, rounded once. *)
Definition int_truediv (a b : Z) : outcome float :=
  if (b =? 0)%Z then Raise ZeroDivisionError
  else
    let r := round (inject_Z a / inject_Z b) in
    if overflows r then Raise OverflowError else Ok (Finite r).

(** [int(x)] *)
Definition int (x : float) : outcome Z :=
  match x with
  | Finite q => Ok (Py.int q)
  | Infinity _ => Raise OverflowError
  | NaN => Raise (ValueError "cannot convert float NaN to integer")
  end.

(** [math.ceil(x)] *)
Definition ceil (x : float) : outcome Z :=
  match x with
  | Finite q => Ok (Qceiling q)
  | Infinity _ => Raise OverflowError
  | NaN => Raise (ValueError "cannot convert float NaN to integer")
  end.

(** [max(1, math.ceil(self.distance_m / self.laps_m))] *)
Definition total_led_traversals (ev : PaceEvent) : outcome Z :=
  (q <~ int_truediv (distance_m ev) (laps_m ev) ;;
   n <~ ceil q ;;
   Ok (Z.max 1 n))%outcome.

(** [max(0.1, 1.0 - (t / max(1, self.trail_len)))] *)
Definition trail_factor (n t : Z) : outcome float :=
  (q <~ int_truediv t (Z.max 1 n) ;;
   Ok (max tenth (sub one q)))%outcome.

(** [int(c * factor)] *)
Definition scale_channel (c : Z) (factor : float) : outcome Z :=
  (x <~ of_int c ;;
   int (mul x factor))%outcome.

(** The loop of [precompute_trail] over the values of [t]. *)
Fixpoint trail_loop (r g b n : Z) (ts : list Z) : outcome (list rgb) :=
  match ts with
  | [] => Ok []
  | t :: rest =>
      (factor <~ trail_factor n t ;;
       r' <~ scale_channel r factor ;;
       g' <~ scale_channel g factor ;;
       b' <~ scale_channel b factor ;;
       levels <~ trail_loop r g b n rest ;;
       Ok ((r', g', b') :: levels))%outcome
  end.

Definition precompute_trail (ev : PaceEvent) : outcome (list rgb) :=
  let '(r, g, b) := color ev in
  trail_loop r g b (trail_len ev) (Py.range_down (trail_len ev)).

End B64.

(** ** The outside world: strip, clock, stop flag *)

(** One entry per call made to the outside world; [ok = false] records that
    the call raised. *)
Inductive io : Type :=
| SetPixel (i c : Z) (ok : bool)
| Flush (ok : bool)
| Warn
| Sleep (d : Q).

Record env : Type := mkEnv {
  numPixels : Z;                      (* strip.numPixels() *)
  setPixelColor_ok : nat -> bool;     (* does the n-th setPixelColor return? *)
  show_ok : nat -> bool;              (* does the n-th show return? *)
  monotonic : nat -> Q;               (* the n-th reading of time.monotonic() *)
  stop_is_set : nat -> bool           (* the n-th poll of stop_event.is_set() *)
}.

Record world : Type := mkWorld {
  trace : list io;
  n_set : nat;
  n_show : nat;
  n_clock : nat;
  n_poll : nat;
  running_event : bool
}.

Definition world0 : world := mkWorld [] 0 0 0 0 false.

Definition IO (A : Type) : Type := world -> outcome A * world.

Definition ret {A : Type} (a : A) : IO A := fun w => (Ok a, w).

Definition bind {A B : Type} (c : IO A) (k : A -> IO B) : IO B :=
  fun w =>
    match c w with
    | (Ok a, w') => k a w'
    | (Raise e, w') => (Raise e, w')
    | (Diverge, w') => (Diverge, w')
    end.

Definition lift {A : Type} (o : outcome A) : IO A := fun w => (o, w).

(** [try: c  except Exception: h] *)
Definition try_except {A : Type} (c : IO A) (h : exn -> IO A) : IO A :=
  fun w =>
    match c w with
    | (Raise e, w') => h e w'
    | r => r
    end.

Declare Scope io_scope.
Delimit Scope io_scope with io.
Notation "x <- c ;; k" := (bind c (fun x => k))
  (at level 61, c at next level, right associativity) : io_scope.
Notation "c1 ;; c2" := (bind c1 (fun _ => c2))
  (at level 61, right associativity) : io_scope.

Definition frame_dt_target : Q := 1 / inject_Z MAX_FPS.

(** Per-event state of the single-event runners (locals [pos_f], [meters_done]). *)
Record rstate : Type := mkRstate {
  pos_f : Q;
  meters_done : Q
}.

(** Per-event state of the parallel runner (the dict [st]). *)
Record pstate : Type := mkPstate {
  st_ev : PaceEvent;
  st_leds_per_sec : Q;
  st_pos_f : Q;
  st_traversals_needed : Z;
  st_traversals_done : Z;
  st_meters_done : Q;
  st_use_splits : bool;
  st_done : bool;
  st_trail_levels : list rgb
}.

Definition framebuffer : Type := list rgb.

(** [[(0,0,0)] * rail_leds] *)
Definition blank (rail_leds : Z) : framebuffer := repeat black (Z.to_nat rail_leds).

(** [(ev.start_led % rail_leds) if (ev.start_led is not None and rail_leds > 0) else 0] *)
Definition start_position (ev : PaceEvent) (rail_leds : Z) : Z :=
  match start_led ev with
  | Some s => if (rail_leds >? 0)%Z then (s mod rail_leds)%Z else 0%Z
  | None => 0%Z
  end.

(** [bool(ev.splits_100)] *)
Definition has_splits (ev : PaceEvent) : bool :=
  match splits_100 ev with
  | Some (_ :: _) => true
  | _ => false
  end.

(** [splits[0] if splits and splits[0] > 0 else 1e-9] *)
Definition first_split (splits : list Q) : Q :=
  match splits with
  | s :: _ => if Qlt_le_dec 0 s then s else 1 # 1000000000
  | [] => 1 # 1000000000
  end.

(** *** The trail loop

    [for t, col in enumerate(trail_levels): idx = head_idx - (ev.trail_len - t);
     if idx < 0: continue; fb[idx] = ...].  The single-event runners store
    [col], the parallel runner stores [blend_additive(fb[idx], col)]; [put] is
    that assignment. *)

Definition put_col (fb : framebuffer) (idx : Z) (col : rgb) : outcome framebuffer :=
  Py.setitem fb idx col.

Definition put_blend (fb : framebuffer) (idx : Z) (col : rgb) : outcome framebuffer :=
  (old <~ Py.index fb idx ;;
   Py.setitem fb idx (blend_additive old col))%outcome.

Fixpoint draw_trail (put : framebuffer -> Z -> rgb -> outcome framebuffer)
    (trail_len head_idx t : Z) (levels : list rgb) (fb : framebuffer)
    : outcome framebuffer :=
  match levels with
  | [] => Ok fb
  | col :: rest =>
      let idx := (head_idx - (trail_len - t))%Z in
      if (idx <? 0)%Z then draw_trail put trail_len head_idx (t + 1) rest fb
      else (fb' <~ put fb idx col ;;
            draw_trail put trail_len head_idx (t + 1) rest fb')%outcome
  end.

(** *** The wrap loops *)

(** [while pos_f >= rail_leds: pos_f -= rail_leds] *)
Fixpoint wrap_fuel (fuel : nat) (pos : Q) (rail_leds : Z) : outcome Q :=
  if Qle_bool (inject_Z rail_leds) pos then
    match fuel with
    | O => Diverge
    | S fuel' => wrap_fuel fuel' (pos - inject_Z rail_leds) rail_leds
    end
  else Ok pos.

(** Enough iterations for any position when [rail_leds > 0]. *)
Definition wrap_bound (pos : Q) (rail_leds : Z) : nat :=
  S (Z.to_nat (Qfloor (pos / inject_Z rail_leds))).

Definition wrap (pos : Q) (rail_leds : Z) : outcome Q :=
  wrap_fuel (wrap_bound pos rail_leds) pos rail_leds.

Definition set_pos (st : pstate) (p : Q) : pstate :=
  mkPstate (st_ev st) (st_leds_per_sec st) p (st_traversals_needed st)
    (st_traversals_done st) (st_meters_done st) (st_use_splits st) (st_done st)
    (st_trail_levels st).

Definition set_meters (st : pstate) (m : Q) : pstate :=
  mkPstate (st_ev st) (st_leds_per_sec st) (st_pos_f st) (st_traversals_needed st)
    (st_traversals_done st) m (st_use_splits st) (st_done st)
    (st_trail_levels st).

Definition set_traversals (st : pstate) (n : Z) : pstate :=
  mkPstate (st_ev st) (st_leds_per_sec st) (st_pos_f st) (st_traversals_needed st)
    n (st_meters_done st) (st_use_splits st) (st_done st)
    (st_trail_levels st).

Definition set_done (st : pstate) (d : bool) : pstate :=
  mkPstate (st_ev st) (st_leds_per_sec st) (st_pos_f st) (st_traversals_needed st)
    (st_traversals_done st) (st_meters_done st) (st_use_splits st) d
    (st_trail_levels st).

(** The wrap loop of the parallel runner, with its traversal count and
    [break]. *)
Fixpoint par_wrap_fuel (fuel : nat) (rail_leds : Z) (st : pstate) : outcome pstate :=
  if Qle_bool (inject_Z rail_leds) (st_pos_f st) then
    match fuel with
    | O => Diverge
    | S fuel' =>
        let st := set_pos st (st_pos_f st - inject_Z rail_leds) in
        if negb (st_use_splits st) then
          let st := set_traversals st (st_traversals_done st + 1) in
          if (st_traversals_done st >=? st_traversals_needed st)%Z
          then Ok (set_done st true)
          else par_wrap_fuel fuel' rail_leds st
        else par_wrap_fuel fuel' rail_leds st
    end
  else Ok st.

(** Enough iterations for any sub-event: those of [wrap_bound], or as many
    as the count still needs to reach [traversals_needed] and [break]. *)
Definition par_wrap_bound (rail_leds : Z) (st : pstate) : nat :=
  (wrap_bound (st_pos_f st) rail_leds +
   Z.to_nat (st_traversals_needed st - st_traversals_done st))%nat.

Definition par_wrap (rail_leds : Z) (st : pstate) : outcome pstate :=
  par_wrap_fuel (par_wrap_bound rail_leds st) rail_leds st.

(** *** Velocity of the current 100 m block

    [seg_idx = int(min(len(splits) - 1, meters_done // 100));
     mps = 100.0 / splits[seg_idx]; v = mps * lpm] *)
Definition seg_index (splits : list Q) (meters_done : Q) : Z :=
  Py.int (Qmin (inject_Z (Z.of_nat (List.length splits) - 1))
               (Py.floordiv meters_done 100)).

Definition split_velocity (splits : list Q) (lpm meters_done : Q) : outcome Q :=
  (s <~ Py.index splits (seg_index splits meters_done) ;;
   mps <~ Py.div 100 s ;;
   Ok (mps * lpm))%outcome.

(** *** One tick of each single-event runner, up to the framebuffer *)

(** Constant pace: advance, wrap, test completion, draw.  [None] is the
    [break] taken before drawing. *)
Definition tick_const (ev : PaceEvent) (rail_leds : Z) (leds_per_sec lpm : Q)
    (trail_levels : list rgb) (st : rstate)
    : outcome (rstate * option framebuffer) :=
  (let dt := frame_dt_target in
   let v := leds_per_sec in
   let pos := pos_f st + v * dt in
   q <~ Py.div v lpm ;;
   let meters := meters_done st + q * dt in
   pos <~ wrap pos rail_leds ;;
   if Qle_bool (inject_Z (distance_m ev)) meters
   then Ok (mkRstate pos meters, None)
   else
     let fb := blank rail_leds in
     let head_idx := Py.int pos in
     fb <~ draw_trail put_col (trail_len ev) head_idx 0 trail_levels fb ;;
     Ok (mkRstate pos meters, Some fb))%outcome.

(** Split pace: advance, draw at [int(pos_f % rail_leds)].  The completion
    test comes after the push, in the loop below. *)
Definition tick_splits (ev : PaceEvent) (rail_leds : Z) (lpm : Q)
    (splits : list Q) (trail_levels : list rgb) (st : rstate)
    : outcome (rstate * framebuffer) :=
  (let dt := frame_dt_target in
   v <~ split_velocity splits lpm (meters_done st) ;;
   let pos := pos_f st + v * dt in
   q <~ Py.div v lpm ;;
   let meters := meters_done st + q * dt in
   let fb := blank rail_leds in
   m <~ Py.fmod pos rail_leds ;;
   let head_idx := Py.int m in
   fb <~ draw_trail put_col (trail_len ev) head_idx 0 trail_levels fb ;;
   Ok (mkRstate pos meters, fb))%outcome.

(** *** One sub-event of one tick of the parallel runner

    The body of [for st in state:] for a sub-event that is not done. *)
Definition par_velocity (st : pstate) : outcome Q :=
  (if st_use_splits st then
     let splits := match splits_100 (st_ev st) with Some l => l | None => [] end in
     lpm <~ leds_per_meter (st_ev st) ;;
     split_velocity splits lpm (st_meters_done st)
   else Ok (st_leds_per_sec st))%outcome.

Definition par_advance (rail_leds : Z) (st : pstate) : outcome pstate :=
  (let dt := frame_dt_target in
   v <~ par_velocity st ;;
   let st := set_pos st (st_pos_f st + v * dt) in
   lpm <~ leds_per_meter (st_ev st) ;;
   q <~ Py.div v lpm ;;
   let st := set_meters st (st_meters_done st + q * dt) in
   st <~ par_wrap rail_leds st ;;
   if st_use_splits st then
     if Qle_bool (inject_Z (distance_m (st_ev st))) (st_meters_done st)
     then Ok (set_done st true)
     else Ok st
   else Ok st)%outcome.

Definition par_step (rail_leds : Z) (st : pstate) (fb : framebuffer)
    : outcome (pstate * framebuffer) :=
  (if st_done st then Ok (st, fb)
   else
     st <~ par_advance rail_leds st ;;
     if st_done st then Ok (st, fb)
     else
       let head_idx := Py.int (st_pos_f st) in
       fb <~ draw_trail put_blend (trail_len (st_ev st)) head_idx 0
               (st_trail_levels st) fb ;;
       Ok (st, fb))%outcome.

(** [for st in state: ...] over the shared framebuffer. *)
Fixpoint par_steps (rail_leds : Z) (state : list pstate) (fb : framebuffer)
    : outcome (list pstate * framebuffer) :=
  match state with
  | [] => Ok ([], fb)
  | st :: rest =>
      ('(st', fb') <~ par_step rail_leds st fb ;;
       '(rest', fb'') <~ par_steps rail_leds rest fb' ;;
       Ok (st' :: rest', fb''))%outcome
  end.

(** [all_done] as the loop leaves it: no sub-event was found not done. *)
Definition all_done (state : list pstate) : bool := forallb st_done state.

Definition tick_parallel (rail_leds : Z) (state : list pstate)
    : outcome (list pstate * framebuffer * bool) :=
  ('(state', fb) <~ par_steps rail_leds state (blank rail_leds) ;;
   Ok (state', fb, all_done state))%outcome.

(** ** The runners *)

Section Runner.

Variable E : env.

Local Open Scope io_scope.

Definition record (e : io) (w : world) : world :=
  mkWorld (trace w ++ [e]) (n_set w) (n_show w) (n_clock w) (n_poll w)
    (running_event w).

(** [self.strip.setPixelColor(i, c)] *)
Definition setPixelColor (i c : Z) : IO unit :=
  fun w =>
    let ok := setPixelColor_ok E (n_set w) in
    let w := record (SetPixel i c ok) w in
    ((if ok then Ok tt else Raise StripError),
     mkWorld (trace w) (S (n_set w)) (n_show w) (n_clock w) (n_poll w)
       (running_event w)).

(** [self.strip.show()] *)
Definition show : IO unit :=
  fun w =>
    let ok := show_ok E (n_show w) in
    let w := record (Flush ok) w in
    ((if ok then Ok tt else Raise StripError),
     mkWorld (trace w) (n_set w) (S (n_show w)) (n_clock w) (n_poll w)
       (running_event w)).

(** [print(f"[WARN] show() throttled: {e}")] *)
Definition warn : IO unit := fun w => (Ok tt, record Warn w).

(** [time.monotonic()] *)
Definition time_monotonic : IO Q :=
  fun w =>
    (Ok (monotonic E (n_clock w)),
     mkWorld (trace w) (n_set w) (n_show w) (S (n_clock w)) (n_poll w)
       (running_event w)).

(** [time.sleep(d)] *)
Definition time_sleep (d : Q) : IO unit := fun w => (Ok tt, record (Sleep d) w).

(** [self.stop_event.is_set()] *)
Definition stop_event_is_set : IO bool :=
  fun w =>
    (Ok (stop_is_set E (n_poll w)),
     mkWorld (trace w) (n_set w) (n_show w) (n_clock w) (S (n_poll w))
       (running_event w)).

(** [self.running_event.set()] and [.clear()] *)
Definition running_event_put (b : bool) : IO unit :=
  fun w =>
    (Ok tt,
     mkWorld (trace w) (n_set w) (n_show w) (n_clock w) (n_poll w) b).

(** [for i, (r, g, b) in enumerate(fb):
       self.strip.setPixelColor(i, pack_color(r, g, b, order=COLOR_ORDER))] *)
Fixpoint push_pixels (i : Z) (fb : framebuffer) : IO unit :=
  match fb with
  | [] => ret tt
  | (r, g, b) :: rest =>
      setPixelColor i (pack_color r g b COLOR_ORDER) ;;
      push_pixels (i + 1) rest
  end.

Definition _push_frame (fb : framebuffer) : IO unit :=
  push_pixels 0 fb ;; show.

(** [BaseStrip.clear] *)
Fixpoint clear_pixels (idxs : list Z) : IO unit :=
  match idxs with
  | [] => ret tt
  | i :: rest => setPixelColor i 0 ;; clear_pixels rest
  end.

Definition strip_clear : IO unit :=
  clear_pixels (Py.range (numPixels E)) ;; show.

(** The push of a tick: the writes, then [show] under its handler. *)
Definition push_tick (fb : framebuffer) : IO unit :=
  push_pixels 0 fb ;;
  try_except show (fun _ => warn).

(** The blank frame pushed before the first tick, and the time it took:
    [t0 = time.monotonic(); try: self._push_frame(fb) except Exception: pass;
     startup_delay = max(0.0, time.monotonic() - t0)] *)
Definition measure_startup (rail_leds : Z) : IO Q :=
  let fb := blank rail_leds in
  t0 <- time_monotonic ;;
  try_except (_push_frame fb) (fun _ => ret tt) ;;
  t1 <- time_monotonic ;;
  ret (Qmax 0 (t1 - t0)).

(** The cleanup after the loop. *)
Definition cleanup : IO unit :=
  try_except strip_clear (fun _ => ret tt) ;;
  running_event_put false.

(** *** [run_event], constant pace *)

Definition startup_const (ev : PaceEvent) (rail_leds : Z) (leds_per_sec lpm : Q)
    : IO rstate :=
  let start_led := start_position ev rail_leds in
  let pos := inject_Z start_led in
  let meters := 0 in
  startup_delay <- measure_startup rail_leds ;;
  let pos := pos + leds_per_sec * startup_delay in
  q <- lift (Py.div leds_per_sec lpm) ;;
  let meters := meters + q * startup_delay in
  ret (mkRstate pos meters).

Fixpoint loop_const (fuel : nat) (ev : PaceEvent) (rail_leds : Z)
    (leds_per_sec lpm : Q) (trail_levels : list rgb)
    (st : rstate) (next_time : Q) : IO unit :=
  match fuel with
  | O => lift Diverge
  | S fuel' =>
      stop <- stop_event_is_set ;;
      if stop then ret tt
      else
        now <- time_monotonic ;;
        if negb (Qle_bool next_time now) then
          time_sleep (next_time - now) ;;
          loop_const fuel' ev rail_leds leds_per_sec lpm trail_levels st next_time
        else
          let next_time := next_time + frame_dt_target in
          r <- lift (tick_const ev rail_leds leds_per_sec lpm trail_levels st) ;;
          match r with
          | (_, None) => ret tt
          | (st', Some fb) =>
              push_tick fb ;;
              loop_const fuel' ev rail_leds leds_per_sec lpm trail_levels st' next_time
          end
  end.

Definition run_event_const (fuel : nat) (ev : PaceEvent) : IO unit :=
  lpm <- lift (leds_per_meter ev) ;;
  let rail_leds := numPixels E in
  let mps := pace_mps ev in
  let leds_per_sec := mps * lpm in
  if (Qle_bool leds_per_sec 0 || (rail_leds <=? 0)%Z)%bool then ret tt
  else
    running_event_put true ;;
    let trail_levels := precompute_trail ev in
    st <- startup_const ev rail_leds leds_per_sec lpm ;;
    now <- time_monotonic ;;
    let next_time := now + frame_dt_target in
    loop_const fuel ev rail_leds leds_per_sec lpm trail_levels st next_time ;;
    cleanup.

(** *** [run_event_with_splits], for a non-empty [splits] *)

Definition startup_splits (ev : PaceEvent) (rail_leds : Z) (lpm : Q)
    (splits : list Q) : IO rstate :=
  let start_led := start_position ev rail_leds in
  let pos := inject_Z start_led in
  let meters := 0 in
  startup_delay <- measure_startup rail_leds ;;
  first_seg_mps <- lift (Py.div 100 (first_split splits)) ;;
  let first_v := first_seg_mps * lpm in
  let pos := pos + first_v * startup_delay in
  q <- lift (Py.div first_v lpm) ;;
  let meters := meters + q * startup_delay in
  ret (mkRstate pos meters).

Fixpoint loop_splits (fuel : nat) (ev : PaceEvent) (rail_leds : Z) (lpm : Q)
    (splits : list Q) (trail_levels : list rgb)
    (st : rstate) (next_time : Q) : IO unit :=
  match fuel with
  | O => lift Diverge
  | S fuel' =>
      stop <- stop_event_is_set ;;
      if stop then ret tt
      else
        now <- time_monotonic ;;
        if negb (Qle_bool next_time now) then
          time_sleep (next_time - now) ;;
          loop_splits fuel' ev rail_leds lpm splits trail_levels st next_time
        else
          let next_time := next_time + frame_dt_target in
          r <- lift (tick_splits ev rail_leds lpm splits trail_levels st) ;;
          let '(st', fb) := r in
          push_tick fb ;;
          if Qle_bool (inject_Z (distance_m ev)) (meters_done st') then ret tt
          else loop_splits fuel' ev rail_leds lpm splits trail_levels st' next_time
  end.

Definition run_event_splits (fuel : nat) (ev : PaceEvent) (splits : list Q)
    : IO unit :=
  lpm <- lift (leds_per_meter ev) ;;
  let rail_leds := numPixels E in
  running_event_put true ;;
  let trail_levels := precompute_trail ev in
  st <- startup_splits ev rail_leds lpm splits ;;
  now <- time_monotonic ;;
  let next_time := now + frame_dt_target in
  loop_splits fuel ev rail_leds lpm splits trail_levels st next_time ;;
  cleanup.

(** [run_event] takes the split path when [ev.splits_100] is a non-empty
    list; [run_event_with_splits] falls back to [run_event] otherwise. *)
Definition run_event (fuel : nat) (ev : PaceEvent) : IO unit :=
  match splits_100 ev with
  | Some (s :: ss) => run_event_splits fuel ev (s :: ss)
  | _ => run_event_const fuel ev
  end.

Definition run_event_with_splits (fuel : nat) (ev : PaceEvent) : IO unit :=
  match splits_100 ev with
  | Some (s :: ss) => run_event_splits fuel ev (s :: ss)
  | _ => run_event fuel ev
  end.

(** *** [run_events_parallel] *)

(** The validation loop; [strip_leds] is the local [rail_leds]
    ([self.strip.numPixels()]) and [laps0] is [events[0].laps_m]. *)
Fixpoint validate_from (strip_leds laps0 : Z) (events : list PaceEvent)
    : outcome unit :=
  match events with
  | [] => Ok tt
  | ev :: rest =>
      if negb (rail_leds ev =? strip_leds)%Z then
        Raise (ValueError "All events must use the same Rail LEDs to run in parallel.")
      else if negb (laps_m ev =? laps0)%Z then
        Raise (ValueError "All events must use the same lap length to run in parallel.")
      else validate_from strip_leds laps0 rest
  end.

Definition validate (strip_leds : Z) (events : list PaceEvent) : outcome unit :=
  match events with
  | [] => Ok tt
  | ev0 :: _ => validate_from strip_leds (laps_m ev0) events
  end.

(** The loop that builds [state], skipping events with [leds_per_sec <= 0]. *)
Fixpoint init_state (rail_leds : Z) (events : list PaceEvent)
    : outcome (list pstate) :=
  match events with
  | [] => Ok []
  | ev :: rest =>
      (let mps := pace_mps ev in
       lpm <~ leds_per_meter ev ;;
       let leds_per_sec := mps * lpm in
       if Qle_bool leds_per_sec 0 then init_state rail_leds rest
       else
         let use_splits := has_splits ev in
         let start_led := start_position ev rail_leds in
         needed <~ total_led_traversals ev ;;
         let st := mkPstate ev leds_per_sec (inject_Z start_led) needed 0 0
                     use_splits false (precompute_trail ev) in
         state <~ init_state rail_leds rest ;;
         Ok (st :: state))%outcome
  end.

(** The pre-advance of one sub-event by the startup delay. *)
Definition compensate (startup_delay : Q) (st : pstate) : outcome pstate :=
  (v0 <~ (if negb (st_use_splits st) then Ok (st_leds_per_sec st)
          else
            let splits := match splits_100 (st_ev st) with
                          | Some l => l
                          | None => []
                          end in
            mps <~ Py.div 100 (first_split splits) ;;
            lpm <~ leds_per_meter (st_ev st) ;;
            Ok (mps * lpm)) ;;
   let st := set_pos st (st_pos_f st + v0 * startup_delay) in
   lpm <~ leds_per_meter (st_ev st) ;;
   q <~ Py.div v0 lpm ;;
   Ok (set_meters st (st_meters_done st + q * startup_delay)))%outcome.

Fixpoint compensate_all (startup_delay : Q) (state : list pstate)
    : outcome (list pstate) :=
  match state with
  | [] => Ok []
  | st :: rest =>
      (st' <~ compensate startup_delay st ;;
       rest' <~ compensate_all startup_delay rest ;;
       Ok (st' :: rest'))%outcome
  end.

Definition startup_parallel (rail_leds : Z) (state : list pstate)
    : IO (list pstate) :=
  startup_delay <- measure_startup rail_leds ;;
  if Qlt_le_dec 0 startup_delay
  then lift (compensate_all startup_delay state)
  else ret state.

Fixpoint loop_parallel (fuel : nat) (rail_leds : Z) (state : list pstate)
    (next_time : Q) : IO unit :=
  match fuel with
  | O => lift Diverge
  | S fuel' =>
      stop <- stop_event_is_set ;;
      if stop then ret tt
      else
        now <- time_monotonic ;;
        if negb (Qle_bool next_time now) then
          time_sleep (next_time - now) ;;
          loop_parallel fuel' rail_leds state next_time
        else
          let next_time := next_time + frame_dt_target in
          r <- lift (tick_parallel rail_leds state) ;;
          let '(state', fb, finished) := r in
          push_tick fb ;;
          if finished then ret tt
          else loop_parallel fuel' rail_leds state' next_time
  end.

Definition run_events_parallel (fuel : nat) (events : list PaceEvent) : IO unit :=
  match events with
  | [] => ret tt
  | _ :: _ =>
      let events :=
        if (2 <? Z.of_nat (List.length events))%Z then firstn 2 events else events in
      let rail_leds := numPixels E in
      lift (validate rail_leds events) ;;
      state <- lift (init_state rail_leds events) ;;
      match state with
      | [] => ret tt
      | _ :: _ =>
          state <- startup_parallel rail_leds state ;;
          running_event_put true ;;
          now <- time_monotonic ;;
          let next_time := now + frame_dt_target in
          loop_parallel fuel rail_leds state next_time ;;
          cleanup
      end
  end.

End Runner.

(** ** The worker thread *)

Section Worker.

Variable E : env.

Local Open Scope io_scope.

(** [Runner.enqueue]: the queue is a list, oldest event first. *)
Definition enqueue (ev : PaceEvent) (queue : list PaceEvent) : list PaceEvent :=
  queue ++ [ev].

(** [Runner.run].  The state is the queue and the exceptions reported by
    [print(f"[ERROR] Event failed: {e}")]; [queue.get(timeout=0.1)] takes
    the head of the queue, or raises [queue.Empty] when there is none.
    Nothing is put on the queue while the worker loops.  [loop_fuel]
    bounds the render loop of each event. *)
Fixpoint run (fuel loop_fuel : nat) (queue : list PaceEvent) (errors : list exn)
    : IO (list PaceEvent * list exn) :=
  match fuel with
  | O => lift Diverge
  | S fuel' =>
      stop <- stop_event_is_set E ;;
      if stop then ret (queue, errors)
      else
        match queue with
        | [] => run fuel' loop_fuel [] errors
        | ev :: rest =>
            stop <- stop_event_is_set E ;;
            if stop then ret (rest, errors)
            else
              r <- try_except
                     (run_event E loop_fuel ev ;; ret None)
                     (fun e => ret (Some e)) ;;
              run fuel' loop_fuel rest
                (match r with
                 | Some e => errors ++ [e]
                 | None => errors
                 end)
        end
  end.

End Worker.

(** ** The GUI: input parsing, validation and the event list

    Strings are byte strings.  What Python's text functions do is not
    modelled: [str.strip], [int] and [float] on a string, the listbox line
    of an event and the construction of a strip are parameters, so that
    every property below holds whatever they do.  [float] yields an exact
    rational or raises; [None] stands for the raised exception.  The texts
    that [float] reads as an infinity or as NaN have no rational value and
    are outside this model: no property below says that a split or a time
    taken from the form is positive or finite. *)

Module Text.

(** [s.split(sep)] for a one-character [sep]. *)
Fixpoint split (sep : ascii) (s : string) : list string :=
  match s with
  | EmptyString => [EmptyString]
  | String c s' =>
      if Ascii.eqb c sep then EmptyString :: split sep s'
      else
        match split sep s' with
        | part :: parts => String c part :: parts
        | [] => [String c EmptyString]
        end
  end.

(** [s.split(sep, 1)] when [sep in s]: the text before the first [sep] and
    the text after it; [None] when [sep] does not occur. *)
Fixpoint partition (sep : ascii) (s : string) : option (string * string) :=
  match s with
  | EmptyString => None
  | String c s' =>
      if Ascii.eqb c sep then Some (EmptyString, s')
      else
        match partition sep s' with
        | Some (before, after) => Some (String c before, after)
        | None => None
        end
  end.

(** [bool(s)] *)
Definition nonempty (s : string) : bool :=
  match s with
  | EmptyString => false
  | String _ _ => true
  end.

End Text.

(** [[f(x) for x in xs]] for an [f] that may raise. *)
Fixpoint traverse {A B : Type} (f : A -> option B) (xs : list A) : option (list B) :=
  match xs with
  | [] => Some []
  | x :: rest =>
      match f x with
      | Some y =>
          match traverse f rest with
          | Some ys => Some (y :: ys)
          | None => None
          end
      | None => None
      end
  end.

(** [sum(xs)]: the builtin starts from 0 and adds from the left. *)
Definition py_sum (xs : list Q) : Q := fold_left Qplus xs 0.

(** [del xs[i]] under the guard [0 <= i < len(xs)] of the callers. *)
Definition delete_at {A : Type} (i : Z) (xs : list A) : list A :=
  if ((0 <=? i)%Z && (i <? Z.of_nat (List.length xs))%Z)%bool
  then firstn (Z.to_nat i) xs ++ skipn (S (Z.to_nat i)) xs
  else xs.

(** The entry fields as [get()] returns them; an [IntVar] whose text is not
    an integer raises, which is [None]. *)
Record form : Type := mkForm {
  name_var : string;
  dist_var : string;
  time_var : string;
  leds_var : option Z;
  lap_var : option Z;
  trail_var : option Z;
  color_var : string;
  splits_var : string
}.

(** The attributes of [PaceGUI] that hold the event list: [self.events],
    the lines of [self.listbox], the size of [self.strip],
    [self.current_idx] and [self.current_dual]. *)
Record gui : Type := mkGui {
  events : list PaceEvent;
  listbox : list string;
  strip_leds : Z;
  current_idx : option Z;
  current_dual : bool
}.

(** How a call of [add_event] ends: an error box and [return], an exception
    that leaves the method, or the event appended. *)
Inductive add_outcome : Type :=
| Refused (title : string)
| Escapes
| Added (ev : PaceEvent).

(** What [start_two_selected] decides. *)
Inductive dual_start : Type :=
| NotStarted (title : string)
| Started (ev1 ev2 : PaceEvent).

Section Gui.

Variable py_strip : string -> string.       (* s.strip() *)
Variable py_int : string -> option Z.       (* int(s) *)
Variable py_float : string -> option Q.     (* float(s) *)
Variable listbox_line : PaceEvent -> string.  (* the f-string of add_event *)
Variable strip_begins : Z -> bool.          (* WS281xStrip(n).begin() returns *)

Definition _parse_time (s : string) : option Q :=
  let s := py_strip s in
  match Text.partition ":" s with
  | Some (mm, ss) =>
      match py_int mm with
      | Some m =>
          match py_float ss with
          | Some x => Some (inject_Z (m * 60) + x)
          | None => None
          end
      | None => None
      end
  | None => py_float s
  end.

Definition _parse_color (s : string) : rgb :=
  match traverse py_int (Text.split "," s) with
  | Some [r; g; b] =>
      (Z.max 0 (Z.min 255 r), Z.max 0 (Z.min 255 g), Z.max 0 (Z.min 255 b))
  | _ => (0, 255, 0)%Z
  end.

(** [[float(x) for x in [x.strip() for x in stext.split(",") if x.strip()]]] *)
Definition parse_splits (stext : string) : option (list Q) :=
  traverse py_float
    (map py_strip
       (filter (fun x => Text.nonempty (py_strip x)) (Text.split "," stext))).

(** The constructor call of [add_event], inside its [try]. *)
Definition build_event (f : form) (splits_list : option (list Q)) : option PaceEvent :=
  let name := if Text.nonempty (py_strip (name_var f))
              then py_strip (name_var f) else "Race"%string in
  match py_int (dist_var f), leds_var f with
  | Some distance, Some leds =>
      match (match splits_list with
             | Some (s :: ss) => Some (py_sum (s :: ss))
             | _ => _parse_time (time_var f)
             end), lap_var f, trail_var f with
      | Some target, Some laps, Some trail =>
          Some (mkPaceEvent name distance leds target laps
                  (_parse_color (color_var f)) trail splits_list
                  (if (distance =? 1609)%Z then Some START_LED_MILE else None))
      | _, _, _ => None
      end
  | _, _ => None
  end.

(** The event appended to the list and shown in the listbox, the strip
    rebuilt first when the event asks for another size. *)
Definition store_event (ev : PaceEvent) (g : gui) : add_outcome * gui :=
  if negb (rail_leds ev =? strip_leds g)%Z && negb (strip_begins (rail_leds ev))
  then (Refused "LED Reinit Error", g)
  else
    (Added ev,
     mkGui (events g ++ [ev]) (listbox g ++ [listbox_line ev]) (rail_leds ev)
       (current_idx g) (current_dual g)).

Definition add_event (f : form) (g : gui) : add_outcome * gui :=
  let stext := py_strip (splits_var f) in
  let checked : add_outcome + option (list Q) :=
    if Text.nonempty stext then
      match parse_splits stext with
      | None => inl (Refused "Invalid Splits")
      | Some splits =>
          match py_int (dist_var f) with
          | None => inl Escapes
          | Some d =>
              if negb ((d =? 600)%Z || (d =? 800)%Z) then
                inl (Refused "Distance Mismatch")
              else if negb (Z.of_nat (List.length splits) =? d / 100)%Z
                      || existsb (fun s => Qle_bool s 0) splits then
                inl (Refused "Invalid Splits")
              else inr (Some splits)
          end
      end
    else inr None in
  match checked with
  | inl refusal => (refusal, g)
  | inr splits_list =>
      match build_event f splits_list with
      | None => (Refused "Invalid Input", g)
      | Some ev => store_event ev g
      end
  end.

(** [for i in reversed(idxs): ... self.listbox.delete(i) ... del self.events[i]] *)
Definition delete_all (idxs : list Z) (g : gui) : gui :=
  fold_left
    (fun g i =>
       mkGui (delete_at i (events g)) (delete_at i (listbox g)) (strip_leds g)
         (current_idx g) (current_dual g))
    (rev idxs) g.

(** [remove_selected], with [idxs = list(self.listbox.curselection())]. *)
Definition remove_selected (idxs : list Z) (g : gui) : gui :=
  match idxs with
  | [] => g
  | _ :: _ =>
      if current_dual g then g
      else
        match current_idx g with
        | Some c => if existsb (Z.eqb c) idxs then g else delete_all idxs g
        | None => delete_all idxs g
        end
  end.

(** [clear_queue]; [busy] is [self.current_thread and
    self.current_thread.is_alive()]. *)
Definition clear_queue (busy : bool) (g : gui) : gui :=
  if busy then g
  else mkGui [] [] (strip_leds g) (current_idx g) (current_dual g).

(** [self.events[i] if i < len(self.events) else None] *)
Definition pick_event (g : gui) (i : Z) : outcome (option PaceEvent) :=
  if (i <? Z.of_nat (List.length (events g)))%Z
  then (ev <~ Py.index (events g) i ;; Ok (Some ev))%outcome
  else Ok None.

(** [start_two_selected] up to the start of the thread, with
    [idxs = list(self.listbox.curselection())]. *)
Definition start_two_selected (busy : bool) (idxs : list Z) (g : gui)
    : outcome (dual_start * gui) :=
  if busy then Ok (NotStarted "Busy", g)
  else
    match idxs with
    | [i1; i2] =>
        (ev1 <~ pick_event g (Z.min i1 i2) ;;
         ev2 <~ pick_event g (Z.max i1 i2) ;;
         match ev1, ev2 with
         | Some ev1, Some ev2 =>
             if negb (rail_leds ev1 =? rail_leds ev2)%Z
             then Ok (NotStarted "Mismatch", g)
             else if negb (laps_m ev1 =? laps_m ev2)%Z
             then Ok (NotStarted "Mismatch", g)
             else
               Ok (Started ev1 ev2,
                   mkGui (events g) (listbox g) (strip_leds g) None true)
         | _, _ => Ok (NotStarted "Out of range", g)
         end)%outcome
    | _ => Ok (NotStarted "Select Two", g)
    end.

(** The [_cleanup] that [start_two_selected] schedules for the end of the
    run of the events selected at [i1] and [i2]. *)
Definition finish_dual (i1 i2 : Z) (g : gui) : gui :=
  let g := delete_all [Z.min i1 i2; Z.max i1 i2] g in
  mkGui (events g) (listbox g) (strip_leds g) (current_idx g) false.

(** [start_selected] up to the start of the thread: the event to run, if
    any. *)
Definition start_selected (busy : bool) (idxs : list Z) (g : gui)
    : outcome (option PaceEvent * gui) :=
  if busy then Ok (None, g)
  else
    match idxs with
    | [] => Ok (None, g)
    | idx :: _ =>
        if (idx >=? Z.of_nat (List.length (events g)))%Z then Ok (None, g)
        else
          (ev <~ Py.index (events g) idx ;;
           Ok (Some ev,
               mkGui (events g) (listbox g) (strip_leds g) (Some idx)
                 (current_dual g)))%outcome
    end.

(** The [_cleanup] that [start_selected] schedules for the end of the run
    of the event selected at [idx]. *)
Definition finish_selected (idx : Z) (g : gui) : gui :=
  mkGui (delete_at idx (events g)) (delete_at idx (listbox g)) (strip_leds g)
    None (current_dual g).

End Gui.

(** * Vocabulary of the statements

    Sample events and environments, and the predicates and functions in
    which the properties below are phrased. *)

(** An event with a negative lap length: the sign of the density follows
    the operands, nothing is replaced by 0.0. *)
Definition ev_negative_lap : PaceEvent :=
  mkPaceEvent "Race" 400 200 60 (-400) (0, 255, 0)%Z 5 None None.

(** The same event with a lap length of zero, and with a target time of
    zero. *)
Definition ev_zero_lap : PaceEvent :=
  mkPaceEvent "Race" 400 200 60 0 (0, 255, 0)%Z 5 None None.

Definition ev_zero_time : PaceEvent :=
  mkPaceEvent "Race" 400 200 0 400 (0, 255, 0)%Z 5 None None.

(** The factor of the [k]-th level of the sequence: the loop variable runs
    down from [trail_len], so position [k] has [t = trail_len - k]. *)
Definition level_factor (n : Z) (k : nat) : Q := trail_factor n (n - Z.of_nat k).

(** The default event of the form: green, five trailing lights. *)
Definition ev_default : PaceEvent :=
  mkPaceEvent "Race" 800 200 110 400 (0, 255, 0)%Z 5 None None.

(** The same event without trailing lights. *)
Definition ev_no_trail : PaceEvent :=
  mkPaceEvent "Race" 800 200 110 400 (0, 255, 0)%Z 0 None None.

(** The exponent of the unit in the last place. *)
Definition ulp_exp (x : Q) : Z := Z.max (B64.ilog2 x - 52) (-1074).

(** The float [0.1]. *)
Definition tenth64 : Q := 3602879701896397 # 36028797018963968.

(** The factor of the [k]-th level of the sequence, as binary64 has it: the
    loop variable runs down from [trail_len], so position [k] has
    [t = trail_len - k]. *)
Definition level_factor64 (n : Z) (k : nat) : Q :=
  match B64.trail_factor n (n - Z.of_nat k) with
  | Ok (B64.Finite f) => f
  | _ => 0
  end.

(** The level computed for a [t] of the loop. *)
Definition level64 (col : rgb) (n t : Z) : rgb :=
  let '(r, g, b) := col in
  let f := level_factor64 n (Z.to_nat (n - t)) in
  (Qfloor (B64.round (inject_Z r * f)),
   Qfloor (B64.round (inject_Z g * f)),
   Qfloor (B64.round (inject_Z b * f))).

Definition channels53 (col : rgb) : Prop :=
  let '(r, g, b) := col in
  (0 <= r < 2 ^ 53 /\ 0 <= g < 2 ^ 53 /\ 0 <= b < 2 ^ 53)%Z.

Ltac proj :=
  cbn [st_ev st_leds_per_sec st_pos_f st_traversals_needed st_traversals_done
       st_meters_done st_use_splits st_done st_trail_levels
       set_pos set_traversals set_done set_meters pos_f meters_done negb] in *.

(** What a sub-event keeps through the wrap loop of the parallel runner. *)
Definition same_event (st st' : pstate) : Prop :=
  st_ev st' = st_ev st /\
  st_leds_per_sec st' = st_leds_per_sec st /\
  st_traversals_needed st' = st_traversals_needed st /\
  st_meters_done st' = st_meters_done st /\
  st_use_splits st' = st_use_splits st /\
  st_trail_levels st' = st_trail_levels st.

(** The outcome of the parallel wrap loop after [k] subtractions: split-pace
    sub-events wrap without counting; constant-pace ones count every
    subtraction and leave by [break] as soon as the count reaches the need. *)
Definition par_wrapped (rail : Z) (st st' : pstate) (k : nat) : Prop :=
  same_event st st' /\
  st_pos_f st' == st_pos_f st - inject_Z (Z.of_nat k) * inject_Z rail /\
  (0 <= st_pos_f st -> 0 <= st_pos_f st') /\
  (st_use_splits st = true ->
     st_traversals_done st' = st_traversals_done st /\
     st_done st' = st_done st /\
     st_pos_f st' < inject_Z rail) /\
  (st_use_splits st = false ->
     st_traversals_done st' = (st_traversals_done st + Z.of_nat k)%Z /\
     ((st_done st' = true /\
       (st_traversals_needed st <= st_traversals_done st')%Z /\ (1 <= k)%nat) \/
      (st_done st' = st_done st /\
       st_pos_f st' < inject_Z rail /\
       (k = O \/ (st_traversals_done st' < st_traversals_needed st)%Z)))).

(** What one assignment of the trail loop does to the framebuffer: the
    single-event runners overwrite, the parallel runner blends. *)
Definition stored (put : framebuffer -> Z -> rgb -> outcome framebuffer)
    (old col : rgb) : rgb :=
  match put [old] 0%Z col with
  | Ok [c] => c
  | _ => old
  end.

Definition assigns (put : framebuffer -> Z -> rgb -> outcome framebuffer) : Prop :=
  forall (fb : framebuffer) (i : Z) (c : rgb),
    (0 <= i < Z.of_nat (List.length fb))%Z ->
    exists fb',
      put fb i c = Ok fb' /\
      List.length fb' = List.length fb /\
      nth (Z.to_nat i) fb' black = stored put (nth (Z.to_nat i) fb black) c /\
      forall j, j <> Z.to_nat i -> nth j fb' black = nth j fb black.

(** The writes the specification lists for a head at [head_idx]: for every
    position [t] of the level sequence the pixel [head_idx - (trail_len - t)]
    with colour [levels[t]], those below 0 left out. *)
Definition trail_write (trail_len head_idx : Z) (levels : list rgb) (t : nat)
    : Z * rgb :=
  ((head_idx - (trail_len - Z.of_nat t))%Z, nth t levels black).

Definition trail_writes (trail_len head_idx : Z) (levels : list rgb)
    : list (Z * rgb) :=
  filter (fun w => negb (fst w <? 0)%Z)
    (map (trail_write trail_len head_idx levels) (seq 0 (List.length levels))).

(** Performing a list of writes in order. *)
Fixpoint apply_writes (put : framebuffer -> Z -> rgb -> outcome framebuffer)
    (ws : list (Z * rgb)) (fb : framebuffer) : outcome framebuffer :=
  match ws with
  | [] => Ok fb
  | (i, c) :: rest => obind (put fb i c) (apply_writes put rest)
  end.

(** The sub-event after [pos_f] and [meters_done] have been advanced. *)
Definition advanced (st : pstate) (v lpm : Q) : pstate :=
  set_meters (set_pos st (st_pos_f st + v * frame_dt_target))
    (st_meters_done st + v / lpm * frame_dt_target).

(** The completion test that follows the wrap loop. *)
Definition completed (st : pstate) : pstate :=
  if st_use_splits st then
    if Qle_bool (inject_Z (distance_m (st_ev st))) (st_meters_done st)
    then set_done st true else st
  else st.

(** The two completion rules, as relations between the [done] flag and the
    rest of the sub-event. *)
Definition traversal_rule (st : pstate) : Prop :=
  st_done st = true <-> (st_traversals_needed st <= st_traversals_done st)%Z.

Definition distance_rule (st : pstate) : Prop :=
  st_done st = true <->
  inject_Z (distance_m (st_ev st)) <= st_meters_done st.

(** What holds of a sub-event throughout a run: its event, its mode and its
    need never change, and the need is the traversal total of the event. *)
Definition well_formed (st : pstate) : Prop :=
  st_traversals_needed st =
    Z.max 1 (Qceiling (inject_Z (distance_m (st_ev st)) / inject_Z (laps_m (st_ev st)))) /\
  st_use_splits st = has_splits (st_ev st).

(** Iterating the tick of the parallel runner. *)
Fixpoint after_ticks (n : nat) (rail_leds : Z) (state : list pstate)
    : outcome (list pstate) :=
  match n with
  | O => Ok state
  | S n' =>
      obind (tick_parallel rail_leds state)
        (fun r => after_ticks n' rail_leds (fst (fst r)))
  end.

(** The invariant of a sub-event; [ticked] says that at least one tick has
    been taken. *)
Definition completion_inv (ticked : bool) (st : pstate) : Prop :=
  well_formed st /\
  (st_use_splits st = false -> traversal_rule st) /\
  (st_use_splits st = true ->
     if ticked then distance_rule st else st_done st = false).

Definition omap {A B : Type} (f : A -> B) (o : outcome A) : outcome B :=
  match o with
  | Ok a => Ok (f a)
  | Raise e => Raise e
  | Diverge => Diverge
  end.

(** The calls made by pushing [fb] when none of them raises. *)
Fixpoint frame_trace (i : Z) (fb : framebuffer) : list io :=
  match fb with
  | [] => []
  | (r, g, b) :: rest =>
      SetPixel i (pack_color r g b COLOR_ORDER) true :: frame_trace (i + 1) rest
  end.

(** A call that writes the colour 0, or a flush. *)
Definition blank_call (e : io) : Prop :=
  match e with
  | SetPixel _ c _ => c = 0%Z
  | Flush _ => True
  | _ => False
  end.

Definition is_write (e : io) : Prop :=
  match e with
  | SetPixel _ _ _ => True
  | _ => False
  end.

(** [w'] differs from [w] by the calls [l] and by the counters of the strip. *)
Definition strip_only (w w' : world) (l : list io) : Prop :=
  trace w' = trace w ++ l /\
  n_clock w' = n_clock w /\
  n_poll w' = n_poll w /\
  running_event w' = running_event w.

(** No pixel write of the strip ever raises. *)
Definition writes_ok (E : env) : Prop := forall n, setPixelColor_ok E n = true.

(** The delay measured around the blank frame, read from the clock. *)
Definition startup_delay_at (E : env) (w : world) : Q :=
  Qmax 0 (monotonic E (S (n_clock w)) - monotonic E (n_clock w)).

(** What the measurement leaves in the world: blank calls only, two clock
    readings, and, when the strip does not raise, exactly one pixel write
    of colour 0 per LED followed by one flush. *)
Definition blank_frame_pushed (E : env) (rail : Z) (w w' : world) : Prop :=
  exists l : list io,
    trace w' = trace w ++ l /\
    Forall blank_call l /\
    n_clock w' = S (S (n_clock w)) /\
    n_poll w' = n_poll w /\
    running_event w' = running_event w /\
    (writes_ok E -> show_ok E (n_show w) = true ->
     l = map (fun k => SetPixel (Z.of_nat k) 0 true) (seq 0 (Z.to_nat rail))
           ++ [Flush true]).

(** The test that keeps an event in [state]: [leds_per_sec <= 0] is false. *)
Definition positive_velocity (ev : PaceEvent) : bool :=
  match leds_per_meter ev with
  | Ok lpm => negb (Qle_bool (pace_mps ev * lpm) 0)
  | _ => false
  end.

(** A sub-event as [init_state] builds it. *)
Definition initial (rail : Z) (st : pstate) : Prop :=
  st_pos_f st = inject_Z (start_position (st_ev st) rail) /\
  st_meters_done st = 0 /\
  st_traversals_done st = 0%Z /\
  st_done st = false /\
  well_formed st /\
  st_trail_levels st = precompute_trail (st_ev st) /\
  exists lpm : Q,
    leds_per_meter (st_ev st) = Ok lpm /\
    st_leds_per_sec st = pace_mps (st_ev st) * lpm /\
    0 < st_leds_per_sec st.

(** The velocity of the first segment of a sub-event. *)
Definition first_velocity (st : pstate) (lpm : Q) : Q :=
  if st_use_splits st then
    100 / first_split (match splits_100 (st_ev st) with
                       | Some l => l
                       | None => []
                       end) * lpm
  else st_leds_per_sec st.

(** [st'] is [st] moved ahead by [delay] seconds at its first velocity. *)
Definition pre_advanced (delay : Q) (st st' : pstate) : Prop :=
  exists lpm : Q,
    leds_per_meter (st_ev st) = Ok lpm /\
    st_pos_f st' == st_pos_f st + first_velocity st lpm * delay /\
    st_meters_done st' == st_meters_done st + first_velocity st lpm / lpm * delay /\
    st_ev st' = st_ev st /\
    st_leds_per_sec st' = st_leds_per_sec st /\
    st_traversals_needed st' = st_traversals_needed st /\
    st_traversals_done st' = st_traversals_done st /\
    st_use_splits st' = st_use_splits st /\
    st_done st' = st_done st /\
    st_trail_levels st' = st_trail_levels st.

(** [events[:2]] when there are more than two events. *)
Definition truncated (events : list PaceEvent) : list PaceEvent :=
  if (2 <? Z.of_nat (List.length events))%Z then firstn 2 events else events.

(** The body of [run_events_parallel] after the truncation. *)
Definition run_pair (E : env) (fuel : nat) (events : list PaceEvent) : IO unit :=
  bind (lift (validate (numPixels E) events)) (fun _ =>
  bind (lift (init_state (numPixels E) events)) (fun state =>
  match state with
  | [] => ret tt
  | _ :: _ =>
      bind (startup_parallel E (numPixels E) state) (fun state =>
      bind (running_event_put true) (fun _ =>
      bind (time_monotonic E) (fun now =>
      bind (loop_parallel E fuel (numPixels E) state (now + frame_dt_target))
        (fun _ => cleanup E))))
  end)).

(** The world after the stop flag and the clock have been read once. *)
Definition polled (w : world) : world :=
  mkWorld (trace w) (n_set w) (n_show w) (S (n_clock w)) (S (n_poll w))
    (running_event w).

(** The world after the frame [fb] has been written and flushed; a flush
    that raises leaves [Flush false] and the warning. *)
Definition pushed (E : env) (fb : framebuffer) (w : world) : world :=
  mkWorld
    (trace w ++ frame_trace 0 fb ++
       (if show_ok E (n_show w) then [Flush true] else [Flush false; Warn]))
    (n_set w + List.length fb) (S (n_show w)) (n_clock w) (n_poll w)
    (running_event w).

(** The loop is not cancelled and the next frame is due. *)
Definition due (E : env) (next_time : Q) (w : world) : Prop :=
  stop_is_set E (n_poll w) = false /\ next_time <= monotonic E (n_clock w).

Ltac enter_tick Hstop Hdue :=
  unfold bind at 1; unfold stop_event_is_set at 1; rewrite Hstop;
  unfold bind at 1; unfold time_monotonic at 1;
  cbn [n_clock n_poll trace n_set n_show running_event];
  apply Qle_bool_iff in Hdue; rewrite Hdue; cbn [negb];
  unfold bind at 1; unfold lift at 1.

Definition steady (E : env) : Prop :=
  writes_ok E /\
  (forall n, stop_is_set E n = false) /\
  (forall n, monotonic E n + frame_dt_target <= monotonic E (S n)).

(** An 800 m event paced by eight 100 m splits summing to 116 s. *)
Definition splits_800 : list Q := [14; 14; 14; 14; 15; 15; 15; 15].

Definition ev_splits_800 : PaceEvent :=
  mkPaceEvent "800 splits" 800 200 116 400 (255, 0, 0)%Z 5 (Some splits_800) None.

(** A 200-LED strip that never raises, a clock that advances by one second
    per reading, no cancellation. *)
Definition env_steady : env :=
  mkEnv 200 (fun _ => true) (fun _ => true)
    (fun n => inject_Z (Z.of_nat n)) (fun _ => false).

(** A split-pace state one tick before the end of the first lap of the rail:
    199.99 LEDs and 399.98 m. *)
Definition st_lap_end : rstate := mkRstate (19999 # 100) (39998 # 100).

Definition pst_lap_end : pstate :=
  mkPstate ev_splits_800 (400 # 116) (19999 # 100) 2 0 (39998 # 100) true false
    (precompute_trail ev_splits_800).

(** A state of the default event early in a run: the head on LED 2, one
    metre covered. *)
Definition st_near_start : rstate := mkRstate 2 1.

(** A sub-event in a state from which every tick is defined. *)
Definition proper (st : pstate) : Prop :=
  st_trail_levels st = precompute_trail (st_ev st) /\
  0 <= st_pos_f st /\
  (exists lpm, leds_per_meter (st_ev st) = Ok lpm /\ 0 < lpm) /\
  (st_use_splits st = false ->
     0 < st_leds_per_sec st /\ traversal_rule st) /\
  (st_use_splits st = true ->
     exists l, splits_100 (st_ev st) = Some l /\ l <> [] /\
               Forall (fun s => 0 < s) l /\ 0 <= st_meters_done st).

(** The split-pace state one tick before the 800 m are covered: 799.99 m,
    the position being [lpm * meters_done] = 399.995 LEDs since the split
    runner never reduces it. *)
Definition st_finish : rstate := mkRstate (399995 # 1000) (79999 # 100).

(** The same 800 m in 116 s at constant pace, and its state at 799.99 m: the
    position wrapped once, 199.995 LEDs. *)
Definition ev_const_800 : PaceEvent :=
  mkPaceEvent "800" 800 200 116 400 (255, 0, 0)%Z 5 None None.

Definition st_finish_const : rstate := mkRstate (199995 # 1000) (79999 # 100).

(** The same split-pace event as a sub-event of the parallel runner at
    799.99 m, its position wrapped once. *)
Definition pst_finish : pstate :=
  mkPstate ev_splits_800 (pace_mps ev_splits_800 * (1 # 2)) (199995 # 1000) 2 0
    (79999 # 100) true false (precompute_trail ev_splits_800).

(** A strip whose 201st write raises: the 200 writes of the startup frame go
    through, the first write of the first tick does not. *)
Definition env_write_fails : env :=
  mkEnv 200 (fun n => (n <? 200)%nat) (fun _ => true)
    (fun n => inject_Z (Z.of_nat n)) (fun _ => false).

(** A strip whose every flush raises. *)
Definition env_show_fails : env :=
  mkEnv 200 (fun _ => true) (fun _ => false)
    (fun n => inject_Z (Z.of_nat n)) (fun _ => false).


Definition ev_lap_400 : PaceEvent :=
  mkPaceEvent "A" 800 200 110 400 (0, 255, 0)%Z 5 None None.

Definition ev_lap_300 : PaceEvent :=
  mkPaceEvent "B" 800 200 110 300 (255, 0, 0)%Z 5 None None.

(** An 800 m event with valid splits but a target time of 0. *)
Definition ev_splits_no_time : PaceEvent :=
  mkPaceEvent "no time" 800 200 0 400 (255, 0, 0)%Z 5 (Some splits_800) None.

(** A sprint over one lap that starts on the last LED of the rail, so that
    its first tick takes it across the end. *)
Definition ev_sprint : PaceEvent :=
  mkPaceEvent "Sprint" 400 200 1 400 (0, 255, 0)%Z 5 None (Some 199%Z).

Definition wit_events : list PaceEvent := [ev_sprint; ev_splits_800].

Definition wit_state0 : list pstate :=
  Eval vm_compute in
    match init_state 200 wit_events with Ok s => s | _ => [] end.

Definition wit_state1 : list pstate :=
  Eval vm_compute in
    match startup_parallel env_steady 200 wit_state0 world0 with
    | (Ok s, _) => s
    | _ => []
    end.

Definition wit_world1 : world :=
  Eval vm_compute in snd (startup_parallel env_steady 200 wit_state0 world0).

Definition wit_state2 : list pstate :=
  Eval vm_compute in
    match after_ticks 1 200 wit_state1 with Ok s => s | _ => [] end.

(** The three bytes of a packed word, read back as the strip does for the
    given colour order. *)
Definition unpack_color (order : color_order) (p : Z) : rgb :=
  let hi := Z.land (Z.shiftr p 16) 255 in
  let mid := Z.land (Z.shiftr p 8) 255 in
  let lo := Z.land p 255 in
  match order with
  | RGB => (hi, mid, lo)
  | GRB => (mid, hi, lo)
  | BRG => (mid, lo, hi)
  | OtherOrder => (hi, mid, lo)
  end.

Definition byte_valued (c : rgb) : Prop :=
  let '(r, g, b) := c in
  (0 <= r <= 255 /\ 0 <= g <= 255 /\ 0 <= b <= 255)%Z.

(** An event of [2^53 + 1] metres on a lap of [2^53] metres. *)
Definition ev_beyond_53_bits : PaceEvent :=
  mkPaceEvent "Far" (2 ^ 53 + 1) 200 60 (2 ^ 53) (0, 255, 0)%Z 5 None None.

Definition nonneg_colour (c : rgb) : Prop :=
  let '(r, g, b) := c in (0 <= r /\ 0 <= g /\ 0 <= b)%Z.

(** The call that writes pixel [i] of a frame. *)
Definition frame_entry (i : Z) (c : rgb) (ok : bool) : io :=
  let '(r, g, b) := c in SetPixel i (pack_color r g b COLOR_ORDER) ok.

(** The next [n] calls of [setPixelColor] return. *)
Definition writes_return (E : env) (w : world) (n : nat) : Prop :=
  forall k : nat, (k < n)%nat -> setPixelColor_ok E (n_set w + k) = true.

(** The three loops differ only in the body of a tick.  [render_loop] is
    their common skeleton: poll the stop flag, read the clock, sleep when
    the tick is not due, otherwise run the tick, push its frame if it has
    one, and go on unless the tick ended the run. *)
Fixpoint render_loop {St : Type} (E : env)
    (tick : St -> outcome (St * option framebuffer * bool))
    (fuel : nat) (st : St) (next_time : Q) : IO unit :=
  match fuel with
  | O => lift Diverge
  | S fuel' =>
      bind (stop_event_is_set E) (fun stop =>
      if stop then ret tt
      else
        bind (time_monotonic E) (fun now =>
        if negb (Qle_bool next_time now) then
          bind (time_sleep (next_time - now)) (fun _ =>
          render_loop E tick fuel' st next_time)
        else
          bind (lift (tick st)) (fun r =>
          let '(st', frame, finished) := r in
          bind (match frame with
                | Some fb => push_tick E fb
                | None => ret tt
                end) (fun _ =>
          if finished then ret tt
          else render_loop E tick fuel' st' (next_time + frame_dt_target)))))
  end.

Definition const_tick (ev : PaceEvent) (rail : Z) (v lpm : Q) (levels : list rgb)
    (st : rstate) : outcome (rstate * option framebuffer * bool) :=
  omap (fun r : rstate * option framebuffer =>
          match snd r with
          | Some fb => (fst r, Some fb, false)
          | None => (fst r, None, true)
          end)
       (tick_const ev rail v lpm levels st).

Definition splits_tick (ev : PaceEvent) (rail : Z) (lpm : Q) (splits : list Q)
    (levels : list rgb) (st : rstate)
    : outcome (rstate * option framebuffer * bool) :=
  omap (fun r : rstate * framebuffer =>
          (fst r, Some (snd r),
           Qle_bool (inject_Z (distance_m ev)) (meters_done (fst r))))
       (tick_splits ev rail lpm splits levels st).

Definition parallel_tick (rail : Z) (state : list pstate)
    : outcome (list pstate * option framebuffer * bool) :=
  omap (fun r : list pstate * framebuffer * bool =>
          (fst (fst r), Some (snd (fst r)), snd r))
       (tick_parallel rail state).

Ltac loop_head :=
  unfold bind, stop_event_is_set, time_monotonic, time_sleep, ret, lift;
  cbn [n_clock n_poll trace n_set n_show running_event];
  match goal with
  | |- context [stop_is_set ?E ?n] => destruct (stop_is_set E n); [reflexivity|]
  end;
  match goal with
  | |- context [negb (Qle_bool ?a ?b)] => destruct (negb (Qle_bool a b))
  end.

Definition poll_only (w : world) : world :=
  mkWorld (trace w) (n_set w) (n_show w) (n_clock w) (S (n_poll w))
    (running_event w).

(** The optional push of a tick. *)
Definition push_frame_of (E : env) (frame : option framebuffer) : IO unit :=
  match frame with
  | Some fb => push_tick E fb
  | None => ret tt
  end.

(** [time.monotonic()] never goes back. *)
Definition monotone_clock (E : env) : Prop :=
  forall n : nat, monotonic E n <= monotonic E (S n).

(** The [f + 1]-th [show] of a loop entered with [next_time = nt] comes
    after a clock reading of at least [nt + f / MAX_FPS]. *)
Definition paced (E : env) (nt : Q) (w w' : world) : Prop :=
  (n_show w <= n_show w')%nat /\
  (n_clock w <= n_clock w')%nat /\
  forall f : nat,
    n_show w' = (n_show w + S f)%nat ->
    exists c : nat,
      n_clock w' = S c /\ (n_clock w <= c)%nat /\
      nt + inject_Z (Z.of_nat f) * frame_dt_target <= monotonic E c.

(** A strip that takes every call and a stop flag set from the fourth poll
    on. *)
Definition env_stopped : env :=
  mkEnv 200 (fun _ => true) (fun _ => true)
    (fun n => inject_Z (Z.of_nat n)) (fun n => (3 <=? n)%nat).

Definition env_no_pixels : env :=
  mkEnv 0 (fun _ => true) (fun _ => true)
    (fun n => inject_Z (Z.of_nat n)) (fun _ => false).

(** The level that a trail with head [head] puts on pixel [j], if any. *)
Definition level_at (tl head : Z) (levels : list rgb) (j : nat) : option rgb :=
  let t := (Z.of_nat j - head + tl)%Z in
  if ((0 <=? t)%Z && (t <? Z.of_nat (List.length levels))%Z)%bool
  then Some (nth (Z.to_nat t) levels black)
  else None.

Definition blended (x : rgb) (c : option rgb) : rgb :=
  match c with
  | Some c => blend_additive x c
  | None => x
  end.

(** The trail of a sub-event as it stands after its advance. *)
Definition trail_of (st : pstate) (j : nat) : option rgb :=
  level_at (trail_len (st_ev st)) (Py.int (st_pos_f st)) (st_trail_levels st) j.

(** What [par_step] does to the framebuffer: nothing for a sub-event that
    was done or has just finished, the blended trail otherwise. *)
Definition paints (st st' : pstate) : bool :=
  negb (st_done st) && negb (st_done st').

(** Two sub-events on the same LED, so that their trails overlap. *)
Definition pair_a : pstate :=
  mkPstate ev_default (400 # 110) 10 2 0 0 false false (precompute_trail ev_default).

Definition pair_b : pstate :=
  mkPstate ev_splits_800 (400 # 116) 10 2 0 0 true false
    (precompute_trail ev_splits_800).

Definition pair_ticked : list pstate * framebuffer * bool :=
  Eval vm_compute in
    match tick_parallel 200 [pair_a; pair_b] with
    | Ok r => r
    | _ => ([], [], false)
    end.

Definition pair_a' : pstate := nth 0 (fst (fst pair_ticked)) pair_a.
Definition pair_b' : pstate := nth 1 (fst (fst pair_ticked)) pair_b.

(** What [run] has done when it returns [(queue', errors')]: it took the
    first [n] events off the queue, in order, reported at most [n]
    failures after those already reported, and its last poll of the stop
    flag found it set. *)
Definition served (E : env) (queue : list PaceEvent) (errors : list exn)
    (queue' : list PaceEvent) (errors' : list exn) (w' : world) : Prop :=
  (exists (n : nat) (new : list exn),
     queue' = skipn n queue /\ (n <= List.length queue)%nat /\
     errors' = errors ++ new /\ (List.length new <= n)%nat) /\
  exists p : nat, n_poll w' = S p /\ stop_is_set E p = true.

(** The elements of [xs] whose index, counted from [k], is not in [idxs],
    in their order. *)
Fixpoint unselected_from {A : Type} (k : Z) (idxs : list Z) (xs : list A) : list A :=
  match xs with
  | [] => []
  | x :: rest =>
      if existsb (Z.eqb k) idxs then unselected_from (k + 1) idxs rest
      else x :: unselected_from (k + 1) idxs rest
  end.

Definition unselected {A : Type} (idxs : list Z) (xs : list A) : list A :=
  unselected_from 0 idxs xs.

(** The deletions of [delete_all] on one list. *)
Definition delete_each {A : Type} (idxs : list Z) (xs : list A) : list A :=
  fold_left (fun l i => delete_at i l) (rev idxs) xs.

(** The listbox shows the events, line by line. *)
Definition in_step (line : PaceEvent -> string) (g : gui) : Prop :=
  listbox g = map line (events g).

(** What [add_event] has checked of an event it appends. *)
Definition checked_event (py_strip : string -> string)
    (py_int : string -> option Z) (py_float : string -> option Q)
    (f : form) (ev : PaceEvent) : Prop :=
  byte_valued (color ev) /\
  py_int (dist_var f) = Some (distance_m ev) /\
  leds_var f = Some (rail_leds ev) /\
  lap_var f = Some (laps_m ev) /\
  trail_var f = Some (trail_len ev) /\
  start_led ev = (if (distance_m ev =? 1609)%Z then Some START_LED_MILE else None) /\
  match splits_100 ev with
  | Some l =>
      (distance_m ev = 600 \/ distance_m ev = 800)%Z /\
      Z.of_nat (List.length l) = (distance_m ev / 100)%Z /\
      parse_splits py_strip py_float (py_strip (splits_var f)) = Some l /\
      target_time_s ev = py_sum l
  | None =>
      py_strip (splits_var f) = EmptyString /\
      _parse_time py_strip py_int py_float (time_var f) = Some (target_time_s ev)
  end.

(** A sample of the text functions, for the form as it is when the window
    opens. *)
Definition sample_strip (s : string) : string := s.

Definition sample_int (s : string) : option Z :=
  if String.eqb s "800" then Some 800%Z else None.

Definition sample_float (s : string) : option Q :=
  if String.eqb s "110" then Some 110 else None.

Definition sample_begins (n : Z) : bool := true.

Definition form_default : form :=
  mkForm "Race" "800" "110" (Some 200%Z) (Some 400%Z) (Some 5%Z) "0,255,0" "".

Definition gui_empty : gui := mkGui [] [] 200 None false.

(** The form filled in for an 800 with eight splits, and text functions
    that read the entries it holds. *)
Definition sample_int_splits (s : string) : option Z :=
  if String.eqb s "800" then Some 800%Z
  else if String.eqb s "255" then Some 255%Z
  else if String.eqb s "0" then Some 0%Z
  else None.

Definition sample_float_splits (s : string) : option Q :=
  if String.eqb s "14" then Some 14
  else if String.eqb s "15" then Some 15
  else None.

Definition form_splits : form :=
  mkForm "800 splits" "800" "" (Some 200%Z) (Some 400%Z) (Some 5%Z) "255,0,0"
    "14,14,14,14,15,15,15,15".

Definition gui_one : gui := mkGui [ev_default] ["Race"%string] 200 None false.

(** Two events in the queue, nothing running. *)
Definition gui_pair : gui :=
  mkGui [ev_default; ev_splits_800] ["Race"%string; "800 splits"%string] 200 None false.

(** How many of the [n] indices from [k] on are in [idxs]. *)
Fixpoint selected_below (idxs : list Z) (k : Z) (n : nat) : nat :=
  match n with
  | O => O
  | S n' =>
      ((if existsb (Z.eqb k) idxs then 1 else 0) +
       selected_below idxs (k + 1) n')%nat
  end.

Definition gui_three : gui :=
  mkGui [ev_default; ev_no_trail; ev_splits_800]
    ["Race"%string; "Race"%string; "800 splits"%string] 200 (Some 2%Z) false.

(** * Properties *)

(** ** Python arithmetic *)

Lemma inject_Z_pos (z : Z) : (0 < z)%Z -> 0 < inject_Z z.
Proof. intros H. change 0 with (inject_Z 0). now rewrite <- Zlt_Qlt. Qed.

Lemma div_ok (a b : Q) : ~ b == 0 -> Py.div a b = Ok (a / b).
Proof.
  intros H. unfold Py.div. destruct (Qeq_bool b 0) eqn:Hb; [|reflexivity].
  apply Qeq_bool_eq in Hb. contradiction.
Qed.

Lemma int_nonneg (x : Q) : 0 <= x -> Py.int x = Qfloor x.
Proof.
  destruct x as [n d]. unfold Qle, Py.int, Qfloor. simpl. intros H.
  apply Z.quot_div_nonneg; lia.
Qed.

Lemma int_neg (x : Q) : x <= 0 -> (Py.int x <= 0)%Z.
Proof.
  destruct x as [n d]. unfold Qle, Py.int. simpl. intros H.
  assert (Hn : (n <= 0)%Z) by lia.
  rewrite <- (Z.opp_involutive n), Z.quot_opp_l by lia.
  pose proof (Z.quot_pos (- n) (Z.pos d)). lia.
Qed.

Lemma int_lt (x : Q) (r : Z) : (0 < r)%Z -> x < inject_Z r -> (Py.int x < r)%Z.
Proof.
  intros Hr Hx. destruct (Qlt_le_dec x 0) as [Hneg|Hpos].
  - pose proof (int_neg x (Qlt_le_weak _ _ Hneg)). lia.
  - rewrite int_nonneg by assumption.
    rewrite Zlt_Qlt. eapply Qle_lt_trans; [apply Qfloor_le|assumption].
Qed.

Lemma int_sign (x : Q) : 0 <= x -> (0 <= Py.int x)%Z.
Proof.
  intros H. rewrite int_nonneg by assumption.
  rewrite <- (Qfloor_Z 0). now apply Qfloor_resp_le.
Qed.

Lemma Qle_bool_false (x y : Q) : Qle_bool x y = false <-> y < x.
Proof.
  split; intros H.
  - apply Qnot_le_lt. intros Hle. apply Qle_bool_iff in Hle. congruence.
  - destruct (Qle_bool x y) eqn:Hb; [|reflexivity].
    apply Qle_bool_iff in Hb. lra.
Qed.

(** ** Event model: pace and LED density *)

Lemma leds_per_meter_value (ev : PaceEvent) :
  laps_m ev <> 0%Z ->
  leds_per_meter ev = Ok (inject_Z (rail_leds ev) / inject_Z (laps_m ev)).
Proof.
  intros H. unfold leds_per_meter. apply div_ok.
  intros Hq. apply H. unfold Qeq in Hq. simpl in Hq. lia.
Qed.

(** C5.  [leds_per_meter] has no guard, where [pace_mps] next to it has
    one.  With a target time of zero [pace_mps] returns 0.0 and the run is
    declined, nothing touched.  With a lap length of zero [leds_per_meter]
    raises [ZeroDivisionError], and so do [run_event] and
    [run_events_parallel], which call it before anything else; with the
    negative lap length -400 it returns the negative quotient -0.5, not
    0.0. *)
Theorem leds_per_meter_not_guarded :
  (pace_mps ev_zero_time == 0 /\
   forall (E : env) (fuel : nat) (w : world),
     run_event E fuel ev_zero_time w = (Ok tt, w)) /\
  (laps_m ev_zero_lap = 0%Z /\
   leds_per_meter ev_zero_lap = Raise ZeroDivisionError /\
   forall (E : env) (fuel : nat) (w : world),
     run_event E fuel ev_zero_lap w = (Raise ZeroDivisionError, w) /\
     run_events_parallel (mkEnv 200 (setPixelColor_ok E) (show_ok E)
                            (monotonic E) (stop_is_set E))
       fuel [ev_zero_lap] w = (Raise ZeroDivisionError, w)) /\
  ((laps_m ev_negative_lap <= 0)%Z /\
   exists q, leds_per_meter ev_negative_lap = Ok q /\ q == - (1 # 2) /\ ~ q == 0).
Proof.
  split; [|split].
  - split; [reflexivity|]. intros E fuel w. reflexivity.
  - split; [reflexivity|]. split; [reflexivity|].
    intros E fuel w. split; reflexivity.
  - split; [vm_compute; discriminate|].
    eexists. split; [vm_compute; reflexivity|].
    split; [reflexivity|discriminate].
Qed.

(** ** Event model: the trail levels *)

Lemma range_down_length (n : Z) :
  (0 <= n)%Z -> Z.of_nat (List.length (Py.range_down n)) = (n + 1)%Z.
Proof.
  intros H. unfold Py.range_down. rewrite length_map, length_seq. lia.
Qed.

Lemma range_down_nth (n : Z) (k : nat) :
  (Z.of_nat k <= n)%Z -> nth k (Py.range_down n) 0%Z = (n - Z.of_nat k)%Z.
Proof.
  intros H. unfold Py.range_down.
  rewrite (nth_indep _ 0%Z ((fun j => (n - Z.of_nat j)%Z) O))
    by (rewrite length_map, length_seq; lia).
  rewrite (map_nth (fun j => (n - Z.of_nat j)%Z)), seq_nth by lia.
  reflexivity.
Qed.

Lemma precompute_trail_length (ev : PaceEvent) :
  (0 <= trail_len ev)%Z ->
  Z.of_nat (List.length (precompute_trail ev)) = (trail_len ev + 1)%Z.
Proof.
  intros H. unfold precompute_trail. destruct (color ev) as [[r g] b].
  rewrite length_map. now apply range_down_length.
Qed.

Lemma precompute_trail_nth (ev : PaceEvent) (k : nat) :
  (Z.of_nat k <= trail_len ev)%Z ->
  nth k (precompute_trail ev) black =
  let '(r, g, b) := color ev in
  let f := level_factor (trail_len ev) k in
  (scale_channel r f, scale_channel g f, scale_channel b f).
Proof.
  intros H. unfold precompute_trail. destruct (color ev) as [[r g] b].
  set (F := fun t : Z => _).
  rewrite (nth_indep _ black (F 0%Z))
    by (rewrite length_map; pose proof (range_down_length (trail_len ev)); lia).
  rewrite (map_nth F), range_down_nth by assumption. reflexivity.
Qed.

Lemma trail_factor_ge (n t : Z) : 1 # 10 <= trail_factor n t.
Proof. unfold trail_factor. apply Q.le_max_l. Qed.

Lemma scale_channel_floor (c : Z) (f : Q) :
  (0 <= c)%Z -> 0 <= f -> scale_channel c f = Qfloor (inject_Z c * f).
Proof.
  intros Hc Hf. unfold scale_channel. apply int_nonneg.
  apply Qmult_le_0_compat; [|assumption].
  change 0 with (inject_Z 0). now rewrite <- Zle_Qle.
Qed.

Lemma level_factor_last (n : Z) :
  (0 <= n)%Z -> level_factor n (Z.to_nat n) == 1.
Proof.
  intros Hn. unfold level_factor, trail_factor.
  rewrite Z2Nat.id, Z.sub_diag by assumption.
  assert (0 < inject_Z (Z.max 1 n)) by (apply inject_Z_pos; lia).
  setoid_replace (1 - inject_Z 0 / inject_Z (Z.max 1 n)) with 1
    by (unfold Qdiv; change (inject_Z 0) with 0; ring).
  apply Q.max_r. lra.
Qed.

(** ** Rounding to binary64 *)

Lemma pow2_pos (e : Z) : 0 < B64.pow2 e.
Proof. unfold B64.pow2. apply Qpower_0_lt. reflexivity. Qed.

Lemma pow2_add (a b : Z) : B64.pow2 (a + b) == B64.pow2 a * B64.pow2 b.
Proof. unfold B64.pow2. apply Qpower_plus. discriminate. Qed.

Lemma pow2_le (a b : Z) : (a <= b)%Z -> B64.pow2 a <= B64.pow2 b.
Proof. intros H. unfold B64.pow2. apply Qpower_le_compat_l; [exact H|discriminate]. Qed.

Lemma pow2_lt (a b : Z) : (a < b)%Z -> B64.pow2 a < B64.pow2 b.
Proof. intros H. unfold B64.pow2. apply Qpower_lt_compat_l; [exact H|reflexivity]. Qed.

Lemma pow2_lt_inv (a b : Z) : B64.pow2 a < B64.pow2 b -> (a < b)%Z.
Proof.
  intros H. unfold B64.pow2 in H.
  apply (Qpower_lt_compat_l_inv 2); [exact H|reflexivity].
Qed.

Lemma pow2_Z (e : Z) : (0 <= e)%Z -> B64.pow2 e == inject_Z (2 ^ e).
Proof. intros H. unfold B64.pow2. symmetry. now apply (Zpower_Qpower 2). Qed.

Lemma pow2_inv (e : Z) : B64.pow2 (- e) == / B64.pow2 e.
Proof. unfold B64.pow2. apply Qpower_opp. Qed.

Lemma pow2_cancel (e : Z) : B64.pow2 e * B64.pow2 (- e) == 1.
Proof.
  rewrite <- pow2_add. replace (e + - e)%Z with 0%Z by lia. reflexivity.
Qed.

(** A quotient by a power of two is a product by the opposite power. *)
Lemma div_pow2 (x : Q) (e : Z) : x / B64.pow2 e == x * B64.pow2 (- e).
Proof. unfold Qdiv. now rewrite pow2_inv. Qed.

Lemma mult_le_pos (a b c : Q) : 0 <= c -> a <= b -> a * c <= b * c.
Proof. intros Hc H. now apply Qmult_le_compat_r. Qed.

Lemma mult_lt_pos (a b c : Q) : 0 < c -> a < b -> a * c < b * c.
Proof. intros Hc H. now apply Qmult_lt_compat_r. Qed.

(** *** The binade of a positive number *)

Lemma log2_bounds (p : Z) :
  (0 < p)%Z ->
  B64.pow2 (Z.log2 p) <= inject_Z p /\ inject_Z p < B64.pow2 (Z.log2 p + 1).
Proof.
  intros Hp. pose proof (Z.log2_nonneg p) as Hn.
  destruct (Z.log2_spec p Hp) as [H1 H2].
  rewrite !pow2_Z by lia. rewrite <- Zle_Qle, <- Zlt_Qlt.
  replace (Z.log2 p + 1)%Z with (Z.succ (Z.log2 p)) by lia. auto.
Qed.

Lemma ilog2_spec (x : Q) :
  0 < x -> B64.pow2 (B64.ilog2 x) <= x /\ x < B64.pow2 (B64.ilog2 x + 1).
Proof.
  intros Hx. unfold B64.ilog2.
  set (l := (Z.log2 (Qnum x) - Z.log2 (Zpos (Qden x)))%Z).
  assert (Hnum : (0 < Qnum x)%Z).
  { destruct x as [n d]. unfold Qlt in Hx. simpl in *. lia. }
  destruct (log2_bounds (Qnum x) Hnum) as [N1 N2].
  destruct (log2_bounds (Zpos (Qden x)) ltac:(lia)) as [D1 D2].
  set (a := Z.log2 (Qnum x)) in *. set (b := Z.log2 (Zpos (Qden x))) in *.
  assert (Hd : 0 < inject_Z (Zpos (Qden x))) by (apply inject_Z_pos; lia).
  assert (Hxe : x * inject_Z (Zpos (Qden x)) == inject_Z (Qnum x)).
  { destruct x as [n d]. unfold Qeq, Qmult, inject_Z. simpl. lia. }
  assert (Hb : 0 < B64.pow2 b) by apply pow2_pos.
  assert (Hb1 : 0 < B64.pow2 (b + 1)) by apply pow2_pos.
  (* x < 2^(l+1) and 2^(l-1) < x *)
  assert (Hup : x < B64.pow2 (l + 1)).
  { apply Qnot_le_lt. intros Hle.
    assert (B64.pow2 (l + 1) * B64.pow2 b <= x * inject_Z (Zpos (Qden x))).
    { apply Qle_trans with (x * B64.pow2 b).
      - now apply mult_le_pos; [apply Qlt_le_weak|].
      - rewrite !(Qmult_comm x). apply mult_le_pos; [now apply Qlt_le_weak|exact D1]. }
    rewrite <- pow2_add, Hxe in H.
    replace (l + 1 + b)%Z with (a + 1)%Z in H by (unfold l; lia). lra. }
  assert (Hlow : B64.pow2 (l - 1) < x).
  { apply Qnot_le_lt. intros Hle.
    assert (x * inject_Z (Zpos (Qden x)) < B64.pow2 (l - 1) * B64.pow2 (b + 1)).
    { apply Qle_lt_trans with (B64.pow2 (l - 1) * inject_Z (Zpos (Qden x))).
      - now apply mult_le_pos; [apply Qlt_le_weak|].
      - rewrite !(Qmult_comm (B64.pow2 (l - 1))).
        apply mult_lt_pos; [apply pow2_pos|exact D2]. }
    rewrite <- pow2_add, Hxe in H.
    replace (l - 1 + (b + 1))%Z with a in H by (unfold l; lia). lra. }
  destruct (Qle_bool (B64.pow2 l) x) eqn:Hc.
  - apply Qle_bool_iff in Hc. split; assumption.
  - apply Qle_bool_false in Hc. split; [now apply Qlt_le_weak|].
    replace (l - 1 + 1)%Z with l by lia. exact Hc.
Qed.

Lemma ilog2_unique (x : Q) (l : Z) :
  B64.pow2 l <= x -> x < B64.pow2 (l + 1) -> B64.ilog2 x = l.
Proof.
  intros H1 H2.
  assert (Hx : 0 < x) by (pose proof (pow2_pos l); lra).
  destruct (ilog2_spec x Hx) as [S1 S2].
  assert (B64.ilog2 x < l + 1)%Z by (apply pow2_lt_inv; lra).
  assert (l < B64.ilog2 x + 1)%Z by (apply pow2_lt_inv; lra).
  lia.
Qed.

Lemma ilog2_compat (x y : Q) : 0 < x -> x == y -> B64.ilog2 x = B64.ilog2 y.
Proof.
  intros Hx Hxy. symmetry. destruct (ilog2_spec x Hx) as [S1 S2].
  apply ilog2_unique; lra.
Qed.

Lemma ilog2_le (x y : Q) : 0 < x -> x <= y -> (B64.ilog2 x <= B64.ilog2 y)%Z.
Proof.
  intros Hx Hxy.
  destruct (ilog2_spec x Hx) as [X1 X2].
  destruct (ilog2_spec y ltac:(lra)) as [Y1 Y2].
  assert (B64.ilog2 x < B64.ilog2 y + 1)%Z by (apply pow2_lt_inv; lra).
  lia.
Qed.

(** *** The nearest integer *)

Lemma rne_compat (x y : Q) : x == y -> B64.rne x = B64.rne y.
Proof.
  intros H. unfold B64.rne.
  assert (Hf : Qfloor x = Qfloor y) by (now rewrite H).
  rewrite Hf.
  assert (Hc : (x - inject_Z (Qfloor y) ?= 1 # 2) = (y - inject_Z (Qfloor y) ?= 1 # 2))
    by (now rewrite H).
  now rewrite Hc.
Qed.

Lemma rne_floor (x : Q) : (Qfloor x <= B64.rne x <= Qfloor x + 1)%Z.
Proof.
  unfold B64.rne. destruct (Qcompare _ _); [destruct (Z.even _)| |]; lia.
Qed.

Lemma rne_near (x : Q) :
  x - (1 # 2) <= inject_Z (B64.rne x) /\ inject_Z (B64.rne x) <= x + (1 # 2).
Proof.
  pose proof (Qfloor_le x) as H1. pose proof (Qlt_floor x) as H2.
  rewrite inject_Z_plus in H2. change (inject_Z 1) with 1 in H2.
  unfold B64.rne.
  destruct (Qcompare_spec (x - inject_Z (Qfloor x)) (1 # 2)) as [He|Hl|Hg].
  - destruct (Z.even (Qfloor x)); [lra|].
    rewrite inject_Z_plus. change (inject_Z 1) with 1. lra.
  - lra.
  - rewrite inject_Z_plus. change (inject_Z 1) with 1. lra.
Qed.

Lemma rne_Z (z : Z) : B64.rne (inject_Z z) = z.
Proof.
  unfold B64.rne. rewrite Qfloor_Z.
  destruct (Qcompare_spec (inject_Z z - inject_Z z) (1 # 2)) as [H|H|H];
    [lra|reflexivity|lra].
Qed.

Lemma rne_mono (x y : Q) : x <= y -> (B64.rne x <= B64.rne y)%Z.
Proof.
  intros Hxy.
  pose proof (Qfloor_resp_le x y Hxy) as Hf.
  pose proof (rne_floor x) as Rx. pose proof (rne_floor y) as Ry.
  destruct (Z.eq_dec (Qfloor x) (Qfloor y)) as [He|Hne]; [|lia].
  unfold B64.rne in *. rewrite He in *.
  destruct (Qcompare_spec (x - inject_Z (Qfloor y)) (1 # 2)) as [Ex|Lx|Gx];
    destruct (Qcompare_spec (y - inject_Z (Qfloor y)) (1 # 2)) as [Ey|Ly|Gy];
    try destruct (Z.even (Qfloor y)); try lia; lra.
Qed.

Lemma rne_nonneg (x : Q) : 0 <= x -> (0 <= B64.rne x)%Z.
Proof. intros H. rewrite <- (rne_Z 0). now apply rne_mono. Qed.

(** *** The nearest binary64 number *)

Lemma round_zero (x : Q) : x == 0 -> B64.round x == 0.
Proof.
  intros H. unfold B64.round. apply Qeq_bool_iff in H. now rewrite H.
Qed.

Lemma round_pos (x : Q) :
  0 < x ->
  B64.round x == inject_Z (B64.rne (x / B64.pow2 (ulp_exp x))) * B64.pow2 (ulp_exp x).
Proof.
  intros Hx. unfold B64.round, ulp_exp.
  destruct (Qeq_bool x 0) eqn:Hz; [apply Qeq_bool_iff in Hz; lra|].
  rewrite Qred_correct.
  assert (Ha : B64.ilog2 (Qabs x) = B64.ilog2 x).
  { apply ilog2_compat; [|apply Qabs_pos; lra].
    rewrite Qabs_pos; lra. }
  now rewrite Ha.
Qed.

Lemma ulp_exp_compat (x y : Q) : 0 < x -> x == y -> ulp_exp x = ulp_exp y.
Proof. intros Hx H. unfold ulp_exp. now rewrite (ilog2_compat x y Hx H). Qed.

Lemma round_compat_pos (x y : Q) : 0 < x -> x == y -> B64.round x == B64.round y.
Proof.
  intros Hx H. rewrite (round_pos x Hx), (round_pos y) by lra.
  rewrite (ulp_exp_compat x y Hx H).
  rewrite (rne_compat (x / B64.pow2 (ulp_exp y)) (y / B64.pow2 (ulp_exp y)))
    by (now rewrite H).
  reflexivity.
Qed.

Lemma round_nonneg (x : Q) : 0 <= x -> 0 <= B64.round x.
Proof.
  intros Hx. destruct (Qeq_dec x 0) as [Hz|Hz].
  - rewrite (round_zero x Hz). lra.
  - assert (Hp : 0 < x) by lra. rewrite (round_pos x Hp).
    pose proof (pow2_pos (ulp_exp x)) as He.
    apply Qmult_le_0_compat; [|lra].
    change 0 with (inject_Z 0). rewrite <- Zle_Qle. apply rne_nonneg.
    apply Qle_shift_div_l; [exact He|]. lra.
Qed.

(** The error of a rounding is at most half a unit in the last place. *)
Lemma round_near (x : Q) :
  0 < x ->
  x - B64.pow2 (ulp_exp x - 1) <= B64.round x /\
  B64.round x <= x + B64.pow2 (ulp_exp x - 1).
Proof.
  intros Hx. rewrite (round_pos x Hx).
  set (e := ulp_exp x).
  pose proof (pow2_pos e) as He.
  destruct (rne_near (x / B64.pow2 e)) as [N1 N2].
  assert (Hh : B64.pow2 (e - 1) == (1 # 2) * B64.pow2 e).
  { replace (e - 1)%Z with (-1 + e)%Z by lia. rewrite pow2_add. reflexivity. }
  assert (Hx' : x / B64.pow2 e * B64.pow2 e == x) by (field; lra).
  rewrite Hh. split.
  - apply (mult_le_pos _ _ (B64.pow2 e)) in N1; [|lra].
    rewrite <- Hx' at 1. lra.
  - apply (mult_le_pos _ _ (B64.pow2 e)) in N2; [|lra].
    rewrite <- Hx' at 2. lra.
Qed.

Lemma ulp_exp_le (x y : Q) : 0 < x -> x <= y -> (ulp_exp x <= ulp_exp y)%Z.
Proof.
  intros Hx Hxy. unfold ulp_exp. pose proof (ilog2_le x y Hx Hxy). lia.
Qed.

(** Rounding keeps the order. *)
Lemma round_mono (x y : Q) : 0 <= x -> x <= y -> B64.round x <= B64.round y.
Proof.
  intros Hx Hxy.
  destruct (Qeq_dec x 0) as [Hz|Hz].
  { rewrite (round_zero x Hz). apply round_nonneg. lra. }
  assert (Hxp : 0 < x) by lra. assert (Hyp : 0 < y) by lra.
  rewrite (round_pos x Hxp), (round_pos y Hyp).
  pose proof (ulp_exp_le x y Hxp Hxy) as Hle.
  set (ex := ulp_exp x) in *. set (ey := ulp_exp y) in *.
  pose proof (pow2_pos ex) as Pex. pose proof (pow2_pos ey) as Pey.
  destruct (Z.eq_dec ex ey) as [He|Hne].
  - rewrite He. apply mult_le_pos; [lra|].
    rewrite <- Zle_Qle. apply rne_mono.
    unfold Qdiv. apply mult_le_pos; [|exact Hxy].
    apply Qlt_le_weak, Qinv_lt_0_compat. rewrite <- He. exact Pex.
  - assert (Hlt : (ex + 1 <= ey)%Z) by lia.
    destruct (ilog2_spec x Hxp) as [_ X2].
    destruct (ilog2_spec y Hyp) as [Y1 _].
    assert (Hey : ey = (B64.ilog2 y - 52)%Z) by (unfold ex, ey, ulp_exp in *; lia).
    assert (Hex : (B64.ilog2 x - 52 <= ex)%Z) by (unfold ex, ulp_exp; lia).
    (* round x <= 2^(ex + 53) <= 2^(ey + 52) <= round y *)
    apply Qle_trans with (B64.pow2 (ey + 52)).
    + apply Qle_trans with (inject_Z (2 ^ 53) * B64.pow2 ex).
      * apply mult_le_pos; [lra|]. rewrite <- Zle_Qle.
        rewrite <- (rne_Z (2 ^ 53)). apply rne_mono.
        apply Qle_shift_div_r; [exact Pex|].
        rewrite <- pow2_Z by lia. rewrite <- pow2_add.
        apply Qle_trans with (B64.pow2 (B64.ilog2 x + 1)); [lra|].
        apply pow2_le. lia.
      * rewrite <- pow2_Z by lia. rewrite <- pow2_add. apply pow2_le. lia.
    + apply Qle_trans with (inject_Z (2 ^ 52) * B64.pow2 ey).
      * rewrite <- pow2_Z by lia. rewrite <- pow2_add.
        apply pow2_le. lia.
      * apply mult_le_pos; [lra|]. rewrite <- Zle_Qle.
        rewrite <- (rne_Z (2 ^ 52)). apply rne_mono.
        apply Qle_shift_div_l; [exact Pey|].
        rewrite <- pow2_Z by lia. rewrite <- pow2_add.
        replace (52 + ey)%Z with (B64.ilog2 y) by lia. exact Y1.
Qed.

(** The integers up to [2^53] are binary64 numbers. *)
Lemma round_int (z : Z) :
  (0 <= z <= 2 ^ 53)%Z -> B64.round (inject_Z z) == inject_Z z.
Proof.
  intros Hz. destruct (Z.eq_dec z 0) as [->|Hne]; [reflexivity|].
  assert (Hp : 0 < inject_Z z) by (apply inject_Z_pos; lia).
  rewrite (round_pos _ Hp).
  destruct (ilog2_spec _ Hp) as [L1 L2].
  unfold ulp_exp. set (l := B64.ilog2 (inject_Z z)) in *.
  assert (H1 : 1 <= inject_Z z)
    by (change 1 with (inject_Z 1); rewrite <- Zle_Qle; lia).
  assert (H53 : inject_Z z <= B64.pow2 53)
    by (rewrite pow2_Z by lia; rewrite <- Zle_Qle; lia).
  assert (Hl0 : (0 <= l)%Z).
  { assert (0 < l + 1)%Z; [|lia]. apply pow2_lt_inv.
    change (B64.pow2 0) with 1. lra. }
  assert (Hl53 : (l <= 53)%Z).
  { assert (l < 54)%Z; [|lia]. apply pow2_lt_inv.
    pose proof (pow2_lt 53 54 ltac:(lia)). lra. }
  rewrite Z.max_l by lia.
  destruct (Z.eq_dec l 53) as [El|Nl].
  - assert (Ez : z = (2 ^ 53)%Z).
    { rewrite El, pow2_Z in L1 by lia. rewrite <- Zle_Qle in L1. lia. }
    rewrite El, Ez. reflexivity.
  - set (k := (52 - l)%Z).
    assert (Hk : (0 <= k)%Z) by (unfold k; lia).
    replace (l - 52)%Z with (- k)%Z by (unfold k; lia).
    assert (Hq : inject_Z z / B64.pow2 (- k) == inject_Z (z * 2 ^ k)).
    { rewrite div_pow2, Z.opp_involutive, inject_Z_mult, pow2_Z by lia.
      reflexivity. }
    rewrite (rne_compat _ _ Hq), rne_Z, inject_Z_mult.
    rewrite <- pow2_Z by lia. rewrite <- Qmult_assoc, pow2_cancel. ring.
Qed.

(** Up to 1 the error is at most [2^-54]. *)
Lemma round_unit (x : Q) :
  0 <= x -> x <= 1 ->
  0 <= B64.round x /\ B64.round x <= 1 /\
  x - B64.pow2 (-54) <= B64.round x /\ B64.round x <= x + B64.pow2 (-54).
Proof.
  intros H0 H1.
  split; [now apply round_nonneg|].
  split.
  { rewrite <- (round_int 1) by lia. now apply round_mono. }
  pose proof (pow2_pos (-54)) as P.
  destruct (Qeq_dec x 0) as [Hz|Hz]; [rewrite (round_zero x Hz); lra|].
  destruct (Qeq_dec x 1) as [Ho|Ho].
  { rewrite (round_compat_pos x 1) by lra.
    rewrite (round_int 1 ltac:(lia) : B64.round 1 == 1). lra. }
  assert (Hp : 0 < x) by lra.
  destruct (round_near x Hp) as [N1 N2].
  destruct (ilog2_spec x Hp) as [L1 _].
  assert (Hl : (B64.ilog2 x < 0)%Z).
  { apply pow2_lt_inv. change (B64.pow2 0) with 1. lra. }
  assert (He : B64.pow2 (ulp_exp x - 1) <= B64.pow2 (-54))
    by (apply pow2_le; unfold ulp_exp; lia).
  lra.
Qed.

(** From 1 on the error is at most [x * 2^-53]. *)
Lemma round_relative (x : Q) :
  1 <= x ->
  x - x * B64.pow2 (-53) <= B64.round x /\ B64.round x <= x + x * B64.pow2 (-53).
Proof.
  intros H1. assert (Hp : 0 < x) by lra.
  destruct (round_near x Hp) as [N1 N2].
  destruct (ilog2_spec x Hp) as [L1 L2].
  assert (Hl : (0 <= B64.ilog2 x)%Z).
  { assert (0 < B64.ilog2 x + 1)%Z; [|lia]. apply pow2_lt_inv.
    change (B64.pow2 0) with 1. lra. }
  assert (He : B64.pow2 (ulp_exp x - 1) <= x * B64.pow2 (-53)).
  { unfold ulp_exp. rewrite Z.max_l by lia.
    replace (B64.ilog2 x - 52 - 1)%Z with (B64.ilog2 x + -53)%Z by lia.
    rewrite pow2_add. apply mult_le_pos; [|exact L1].
    apply Qlt_le_weak, pow2_pos. }
  lra.
Qed.

(** ** Event model: the trail levels in binary64 *)

Lemma tenth_value : B64.tenth = B64.Finite tenth64.
Proof. vm_compute. reflexivity. Qed.

Lemma tenth64_near : tenth64 == B64.round (1 # 10) /\ 1 # 10 <= tenth64 /\ tenth64 <= (1 # 10) + B64.pow2 (-54).
Proof. split; [vm_compute; reflexivity|]. split; vm_compute; discriminate. Qed.

Lemma round_compat (x y : Q) : 0 <= x -> x == y -> B64.round x == B64.round y.
Proof.
  intros Hx H. destruct (Qeq_dec x 0) as [Hz|Hz].
  - rewrite (round_zero x Hz), (round_zero y) by lra. reflexivity.
  - apply round_compat_pos; [lra|exact H].
Qed.

Lemma not_overflows (r : Q) : 0 <= r -> r <= inject_Z (2 ^ 53) -> B64.overflows r = false.
Proof.
  intros H0 H1. unfold B64.overflows. apply Qle_bool_false.
  rewrite Qabs_pos by exact H0.
  apply Qle_lt_trans with (B64.pow2 53); [now rewrite pow2_Z by lia|].
  apply pow2_lt. lia.
Qed.

Lemma of_Q_small (x : Q) :
  0 <= x -> x <= inject_Z (2 ^ 53) -> B64.of_Q x = B64.Finite (B64.round x).
Proof.
  intros H0 H1. unfold B64.of_Q. rewrite not_overflows; [reflexivity| |].
  - now apply round_nonneg.
  - rewrite <- (round_int (2 ^ 53)) by lia. now apply round_mono.
Qed.

(** A quotient of two ints that lies in [0, 1]. *)
Lemma int_truediv_unit (t m : Z) :
  (0 <= t <= m)%Z -> (1 <= m)%Z ->
  B64.int_truediv t m = Ok (B64.Finite (B64.round (inject_Z t / inject_Z m))) /\
  0 <= inject_Z t / inject_Z m /\ inject_Z t / inject_Z m <= 1.
Proof.
  intros Ht Hm.
  assert (Hmq : 0 < inject_Z m) by (apply inject_Z_pos; lia).
  assert (H0 : 0 <= inject_Z t / inject_Z m).
  { apply Qle_shift_div_l; [exact Hmq|]. rewrite Qmult_0_l.
    change 0 with (inject_Z 0). rewrite <- Zle_Qle. lia. }
  assert (H1 : inject_Z t / inject_Z m <= 1).
  { apply Qle_shift_div_r; [exact Hmq|]. rewrite Qmult_1_l.
    rewrite <- Zle_Qle. lia. }
  split; [|split; assumption].
  unfold B64.int_truediv.
  destruct (Z.eqb_spec m 0) as [E|_]; [lia|].
  destruct (round_unit _ H0 H1) as (R0 & R1 & _).
  rewrite not_overflows; [reflexivity|exact R0|].
  apply Qle_trans with 1; [exact R1|]. vm_compute. discriminate.
Qed.

(** The value of [trail_factor] for a [t] of the loop. *)
Lemma trail_factor_value (n t : Z) :
  (0 <= t <= Z.max 1 n)%Z ->
  let s := B64.round (1 - B64.round (inject_Z t / inject_Z (Z.max 1 n))) in
  B64.trail_factor n t =
    Ok (B64.Finite (if Qle_bool s tenth64 then tenth64 else s)) /\
  0 <= s /\ s <= 1.
Proof.
  intros Ht s.
  destruct (int_truediv_unit t (Z.max 1 n) Ht ltac:(lia)) as (Hq & Q0 & Q1).
  destruct (round_unit _ Q0 Q1) as (R0 & R1 & _).
  set (q := B64.round (inject_Z t / inject_Z (Z.max 1 n))) in *.
  assert (D0 : 0 <= 1 - q) by lra. assert (D1 : 1 - q <= 1) by lra.
  destruct (round_unit _ D0 D1) as (S0 & S1 & _).
  split; [|split; assumption].
  unfold B64.trail_factor. rewrite Hq. cbn [obind].
  unfold B64.sub, B64.one. rewrite of_Q_small; [|exact D0|].
  2:{ apply Qle_trans with 1; [exact D1|]. vm_compute. discriminate. }
  rewrite tenth_value. unfold B64.max, B64.lt. fold s.
  destruct (Qle_bool s tenth64); reflexivity.
Qed.

Lemma level_factor64_value (n : Z) (k : nat) :
  (0 <= n)%Z -> (Z.of_nat k <= n)%Z ->
  let s := B64.round (1 - B64.round (inject_Z (n - Z.of_nat k) / inject_Z (Z.max 1 n))) in
  B64.trail_factor n (n - Z.of_nat k) = Ok (B64.Finite (level_factor64 n k)) /\
  level_factor64 n k = (if Qle_bool s tenth64 then tenth64 else s) /\
  0 <= s /\ s <= 1.
Proof.
  intros Hn Hk s.
  destruct (trail_factor_value n (n - Z.of_nat k) ltac:(lia)) as (Hv & S0 & S1).
  fold s in Hv, S0, S1. unfold level_factor64. rewrite Hv. auto.
Qed.

Lemma level_factor64_range (n : Z) (k : nat) :
  (0 <= n)%Z -> (Z.of_nat k <= n)%Z ->
  tenth64 <= level_factor64 n k /\ level_factor64 n k <= 1.
Proof.
  intros Hn Hk.
  destruct (level_factor64_value n k Hn Hk) as (_ & -> & S0 & S1).
  destruct (Qle_bool _ tenth64) eqn:Hc.
  - split; [lra|]. vm_compute. discriminate.
  - apply Qle_bool_false in Hc. lra.
Qed.

(** The factors never decrease along the sequence. *)
Lemma level_factor64_mono (n : Z) (j k : nat) :
  (0 <= n)%Z -> (j <= k)%nat -> (Z.of_nat k <= n)%Z ->
  level_factor64 n j <= level_factor64 n k.
Proof.
  intros Hn Hjk Hk.
  destruct (level_factor64_value n j Hn ltac:(lia)) as (_ & -> & _).
  destruct (level_factor64_value n k Hn Hk) as (_ & -> & _).
  set (m := Z.max 1 n).
  assert (Hm : 0 < inject_Z m) by (apply inject_Z_pos; lia).
  destruct (int_truediv_unit (n - Z.of_nat j) m ltac:(lia) ltac:(lia)) as (_ & J0 & J1).
  destruct (int_truediv_unit (n - Z.of_nat k) m ltac:(lia) ltac:(lia)) as (_ & K0 & K1).
  assert (Hq : inject_Z (n - Z.of_nat k) / inject_Z m <=
               inject_Z (n - Z.of_nat j) / inject_Z m).
  { unfold Qdiv. apply mult_le_pos; [apply Qlt_le_weak, Qinv_lt_0_compat, Hm|].
    rewrite <- Zle_Qle. lia. }
  pose proof (round_mono _ _ K0 Hq) as Hr.
  destruct (round_unit _ J0 J1) as (_ & RJ1 & _).
  destruct (round_unit _ K0 K1) as (_ & RK1 & _).
  assert (Hs : B64.round (1 - B64.round (inject_Z (n - Z.of_nat j) / inject_Z m)) <=
               B64.round (1 - B64.round (inject_Z (n - Z.of_nat k) / inject_Z m)))
    by (apply round_mono; lra).
  set (sj := B64.round (1 - B64.round (inject_Z (n - Z.of_nat j) / inject_Z m))) in *.
  set (sk := B64.round (1 - B64.round (inject_Z (n - Z.of_nat k) / inject_Z m))) in *.
  destruct (Qle_bool sj tenth64) eqn:Cj; destruct (Qle_bool sk tenth64) eqn:Ck;
    try apply Qle_bool_iff in Cj; try apply Qle_bool_iff in Ck;
    try apply Qle_bool_false in Cj; try apply Qle_bool_false in Ck; lra.
Qed.

(** The last level has the factor 1.0. *)
Lemma level_factor64_last (n : Z) :
  (0 <= n)%Z -> level_factor64 n (Z.to_nat n) == 1.
Proof.
  intros Hn.
  destruct (level_factor64_value n (Z.to_nat n) Hn ltac:(lia)) as (_ & -> & _).
  rewrite Z2Nat.id, Z.sub_diag by exact Hn.
  assert (Hz : inject_Z 0 / inject_Z (Z.max 1 n) == 0)
    by (unfold Qdiv; change (inject_Z 0) with 0; ring).
  assert (H1 : B64.round (1 - B64.round (inject_Z 0 / inject_Z (Z.max 1 n))) == 1).
  { rewrite (round_compat (1 - _) 1).
    - apply (round_int 1). lia.
    - rewrite (round_zero _ Hz). lra.
    - rewrite (round_zero _ Hz). lra. }
  destruct (Qle_bool _ tenth64) eqn:Hc; [|exact H1].
  apply Qle_bool_iff in Hc. rewrite H1 in Hc. vm_compute in Hc. contradiction.
Qed.

(** With a trail, the first level has the factor 0.1. *)
Lemma level_factor64_first (n : Z) :
  (1 <= n)%Z -> level_factor64 n 0 == tenth64.
Proof.
  intros Hn.
  destruct (level_factor64_value n 0 ltac:(lia) ltac:(simpl; lia)) as (_ & -> & _).
  simpl Z.of_nat. rewrite Z.sub_0_r, Z.max_r by lia.
  assert (Ho : inject_Z n / inject_Z n == 1).
  { assert (0 < inject_Z n) by (apply inject_Z_pos; lia). field. lra. }
  assert (H0 : B64.round (1 - B64.round (inject_Z n / inject_Z n)) == 0).
  { apply round_zero.
    rewrite (round_compat_pos _ 1) by lra.
    rewrite (round_int 1 ltac:(lia) : B64.round 1 == 1). lra. }
  destruct (Qle_bool _ tenth64) eqn:Hc; [reflexivity|].
  apply Qle_bool_false in Hc. rewrite H0 in Hc. vm_compute in Hc. discriminate.
Qed.

(** The factor is within [2^-53] of the ramp [max(0.1, k / trail_len)]. *)
Lemma level_factor64_ramp (n : Z) (k : nat) :
  (1 <= n)%Z -> (Z.of_nat k <= n)%Z ->
  Qabs (level_factor64 n k - Qmax (1 # 10) (inject_Z (Z.of_nat k) / inject_Z n))
    <= B64.pow2 (-53).
Proof.
  intros Hn Hk.
  destruct (level_factor64_value n k ltac:(lia) Hk) as (_ & -> & _).
  rewrite Z.max_r by lia.
  assert (Hnq : 0 < inject_Z n) by (apply inject_Z_pos; lia).
  destruct (int_truediv_unit (n - Z.of_nat k) n ltac:(lia) Hn) as (_ & Q0 & Q1).
  destruct (round_unit _ Q0 Q1) as (R0 & R1 & R2 & R3).
  set (q := B64.round (inject_Z (n - Z.of_nat k) / inject_Z n)) in *.
  destruct (round_unit (1 - q) ltac:(lra) ltac:(lra)) as (_ & _ & S2 & S3).
  set (s := B64.round (1 - q)) in *.
  assert (Hx : inject_Z (n - Z.of_nat k) / inject_Z n ==
               1 - inject_Z (Z.of_nat k) / inject_Z n).
  { unfold Zminus. rewrite inject_Z_plus, inject_Z_opp. field. lra. }
  set (x := inject_Z (Z.of_nat k) / inject_Z n) in *.
  assert (Hp : B64.pow2 (-53) == B64.pow2 (-54) + B64.pow2 (-54)) by reflexivity.
  pose proof (pow2_pos (-54)) as P.
  destruct tenth64_near as (_ & T1 & T2).
  apply Qabs_diff_Qle_condition.
  destruct (Q.max_spec (1 # 10) x) as [[Hlt ->]|[Hle ->]];
    destruct (Qle_bool s tenth64) eqn:Hc;
    try apply Qle_bool_iff in Hc; try apply Qle_bool_false in Hc; lra.
Qed.

(** A whole number of at most 53 bits survives the rounding of a product
    or is reached by it: the integer part of the rounded number is that of
    the exact one, or one more. *)
Lemma floor_round (x : Q) :
  0 <= x -> x < inject_Z (2 ^ 53) ->
  (Qfloor x <= Qfloor (B64.round x) <= Qfloor x + 1)%Z.
Proof.
  intros H0 H1.
  pose proof (Qfloor_le x) as F1. pose proof (Qlt_floor x) as F2.
  assert (Hf0 : (0 <= Qfloor x)%Z).
  { rewrite <- (Qfloor_Z 0). now apply Qfloor_resp_le. }
  assert (Hf1 : (Qfloor x < 2 ^ 53)%Z).
  { rewrite Zlt_Qlt. lra. }
  assert (L : inject_Z (Qfloor x) <= B64.round x).
  { rewrite <- (round_int (Qfloor x)) by lia. apply round_mono; [|exact F1].
    change 0 with (inject_Z 0). now rewrite <- Zle_Qle. }
  assert (U : B64.round x <= inject_Z (Qfloor x + 1)).
  { rewrite <- (round_int (Qfloor x + 1)) by lia.
    apply round_mono; [exact H0|]. now apply Qlt_le_weak. }
  split.
  - rewrite <- (Qfloor_Z (Qfloor x)) at 1. now apply Qfloor_resp_le.
  - rewrite <- (Qfloor_Z (Qfloor x + 1)). now apply Qfloor_resp_le.
Qed.

(** [int(c * factor)] for a channel of at most 53 bits and a factor of at
    most 1. *)
Lemma scale_channel_value (c : Z) (f : Q) :
  (0 <= c < 2 ^ 53)%Z -> 0 <= f -> f <= 1 ->
  B64.scale_channel c (B64.Finite f) = Ok (Qfloor (B64.round (inject_Z c * f))) /\
  (Qfloor (inject_Z c * f) <= Qfloor (B64.round (inject_Z c * f))
     <= Qfloor (inject_Z c * f) + 1)%Z /\
  (0 <= Qfloor (B64.round (inject_Z c * f)) <= c)%Z.
Proof.
  intros Hc F0 F1.
  assert (C0 : 0 <= inject_Z c) by (change 0 with (inject_Z 0); rewrite <- Zle_Qle; lia).
  assert (P0 : 0 <= inject_Z c * f) by (now apply Qmult_le_0_compat).
  assert (P1 : inject_Z c * f <= inject_Z c).
  { rewrite <- (Qmult_1_r (inject_Z c)) at 2.
    rewrite !(Qmult_comm (inject_Z c)). now apply mult_le_pos. }
  assert (C1 : inject_Z c < inject_Z (2 ^ 53)) by (rewrite <- Zlt_Qlt; lia).
  pose proof (round_int c ltac:(lia)) as Rc.
  assert (R0 : 0 <= B64.round (inject_Z c * f)) by (now apply round_nonneg).
  assert (R1 : B64.round (inject_Z c * f) <= inject_Z c).
  { rewrite <- Rc at 2. now apply round_mono. }
  split; [|split].
  - unfold B64.scale_channel, B64.of_int.
    rewrite not_overflows by (rewrite Rc; lra).
    cbn [obind]. unfold B64.mul.
    assert (E : B64.round (inject_Z c) * f == inject_Z c * f) by (now rewrite Rc).
    rewrite of_Q_small by (rewrite E; lra).
    unfold B64.int. rewrite int_nonneg by (apply round_nonneg; rewrite E; lra).
    f_equal. apply Qfloor_comp. apply round_compat; [rewrite E; lra|exact E].
  - apply floor_round; lra.
  - split.
    + rewrite <- (Qfloor_Z 0). now apply Qfloor_resp_le.
    + rewrite <- (Qfloor_Z c) at 2. now apply Qfloor_resp_le.
Qed.

Lemma trail_loop_value (r g b n : Z) (ts : list Z) :
  (0 <= n)%Z -> channels53 (r, g, b) ->
  Forall (fun t => (0 <= t <= n)%Z) ts ->
  B64.trail_loop r g b n ts = Ok (map (level64 (r, g, b) n) ts).
Proof.
  intros Hn (Hr & Hg & Hb) Hts.
  induction Hts as [|t rest Ht _ IH]; [reflexivity|].
  cbn [B64.trail_loop map].
  destruct (level_factor64_value n (Z.to_nat (n - t)) Hn ltac:(lia)) as (Hv & _).
  destruct (level_factor64_range n (Z.to_nat (n - t)) Hn ltac:(lia)) as (F0 & F1).
  replace (n - Z.of_nat (Z.to_nat (n - t)))%Z with t in Hv by lia.
  rewrite Hv. cbn [obind].
  assert (F0' : 0 <= level_factor64 n (Z.to_nat (n - t))).
  { apply Qle_trans with tenth64; [vm_compute; discriminate|exact F0]. }
  rewrite (proj1 (scale_channel_value r _ Hr F0' F1)). cbn [obind].
  rewrite (proj1 (scale_channel_value g _ Hg F0' F1)). cbn [obind].
  rewrite (proj1 (scale_channel_value b _ Hb F0' F1)). cbn [obind].
  rewrite IH. reflexivity.
Qed.

Lemma range_down_bounds (n : Z) :
  Forall (fun t => (0 <= t <= n)%Z) (Py.range_down n).
Proof.
  apply Forall_forall. intros t Hin. unfold Py.range_down in Hin.
  apply in_map_iff in Hin. destruct Hin as (k & <- & Hk).
  apply in_seq in Hk. lia.
Qed.

Lemma precompute_trail64_value (ev : PaceEvent) :
  (0 <= trail_len ev)%Z -> channels53 (color ev) ->
  B64.precompute_trail ev =
    Ok (map (level64 (color ev) (trail_len ev)) (Py.range_down (trail_len ev))).
Proof.
  intros Hn Hc. unfold B64.precompute_trail.
  destruct (color ev) as [[r g] b].
  apply trail_loop_value; [exact Hn|exact Hc|apply range_down_bounds].
Qed.

(** C7, as stated, fails: the factors do not rise linearly from 0.1 to 1.0.
    For [trail_len = 5] they are the floats 0.1, 0.19999999999999996, 0.4,
    0.6, 0.8 and 1.0: the first step is about 0.1 and the others about 0.2,
    so no affine function of the position yields them (one through 0.1 and
    1.0 would pass through 0.28 at position 1).  For [trail_len = 0] the
    only factor is 1.0: the sequence does not start at 0.1. *)
Lemma trail_factors_not_linear :
  B64.precompute_trail ev_default =
    Ok [(0, 25, 0); (0, 50, 0); (0, 102, 0); (0, 153, 0); (0, 204, 0);
        (0, 255, 0)]%Z /\
  (level_factor64 5 0 == 3602879701896397 # 36028797018963968 /\
   level_factor64 5 1 == 900719925474099 # 4503599627370496 /\
   level_factor64 5 2 == 3602879701896397 # 9007199254740992 /\
   level_factor64 5 5 == 1) /\
  (~ exists a b : Q,
       forall k : nat, (k <= 5)%nat ->
         level_factor64 5 k == a + b * inject_Z (Z.of_nat k)) /\
  B64.precompute_trail ev_no_trail = Ok [(0, 255, 0)]%Z /\
  level_factor64 0 0 == 1.
Proof.
  assert (E0 : level_factor64 5 0 == 3602879701896397 # 36028797018963968)
    by (vm_compute; reflexivity).
  assert (E1 : level_factor64 5 1 == 900719925474099 # 4503599627370496)
    by (vm_compute; reflexivity).
  assert (E5 : level_factor64 5 5 == 1) by (vm_compute; reflexivity).
  split; [vm_compute; reflexivity|].
  split; [repeat split; try assumption; vm_compute; reflexivity|].
  split; [|split; vm_compute; reflexivity].
  intros (a & b & H).
  pose proof (H 0%nat ltac:(lia)) as H0.
  pose proof (H 1%nat ltac:(lia)) as H1.
  pose proof (H 5%nat ltac:(lia)) as H5.
  rewrite E0 in H0. rewrite E1 in H1. rewrite E5 in H5.
  simpl Z.of_nat in *.
  change (inject_Z 0) with 0 in H0. change (inject_Z 1) with 1 in H1.
  change (inject_Z 5) with 5 in H5. lra.
Qed.

(** C7 (amended).  For a non-negative [trail_len] and colour channels
    from 0 to below [2^53], [precompute_trail] returns [trail_len + 1]
    levels.  The level at position [k] has the factor
    [max(0.1, 1.0 - (trail_len - k) / max(1, trail_len))] taken in binary64,
    and each of its channels is the integer part of the channel times that
    factor, the product rounded to binary64: the floor of the exact
    product, or one more when the product rounds up to a whole number.  The
    factors never decrease along the sequence and end at 1.0; for
    [trail_len >= 1] they start at the float 0.1 and stay within [2^-53]
    of [max(0.1, k / trail_len)], a ramp through the origin clamped from
    below at 0.1. *)
Theorem trail_levels_shape (ev : PaceEvent)
    (Hlen : (0 <= trail_len ev)%Z) (Hcol : channels53 (color ev)) :
  let n := trail_len ev in
  exists levels : list rgb,
    B64.precompute_trail ev = Ok levels /\
    Z.of_nat (List.length levels) = (n + 1)%Z /\
    (forall k : nat, (Z.of_nat k <= n)%Z ->
       let f := level_factor64 n k in
       B64.trail_factor n (n - Z.of_nat k) = Ok (B64.Finite f) /\
       nth k levels black =
         (let '(r, g, b) := color ev in
          (Qfloor (B64.round (inject_Z r * f)),
           Qfloor (B64.round (inject_Z g * f)),
           Qfloor (B64.round (inject_Z b * f)))) /\
       forall c : Z, (0 <= c < 2 ^ 53)%Z ->
         B64.scale_channel c (B64.Finite f) =
           Ok (Qfloor (B64.round (inject_Z c * f))) /\
         (Qfloor (inject_Z c * f) <= Qfloor (B64.round (inject_Z c * f))
            <= Qfloor (inject_Z c * f) + 1)%Z) /\
    (forall j k : nat, (j <= k)%nat -> (Z.of_nat k <= n)%Z ->
       level_factor64 n j <= level_factor64 n k) /\
    level_factor64 n (Z.to_nat n) == 1 /\
    ((1 <= n)%Z ->
       B64.tenth = B64.Finite tenth64 /\
       level_factor64 n 0 == tenth64 /\
       forall k : nat, (Z.of_nat k <= n)%Z ->
         Qabs (level_factor64 n k -
               Qmax (1 # 10) (inject_Z (Z.of_nat k) / inject_Z n))
           <= B64.pow2 (-53)).
Proof.
  intros n.
  exists (map (level64 (color ev) n) (Py.range_down n)).
  split; [now apply precompute_trail64_value|].
  split; [rewrite length_map; now apply range_down_length|].
  split.
  { intros k Hk f.
    destruct (level_factor64_value n k Hlen Hk) as (Hv & _).
    destruct (level_factor64_range n k Hlen Hk) as (F0 & F1).
    assert (F0' : 0 <= f)
      by (apply Qle_trans with tenth64; [vm_compute; discriminate|exact F0]).
    split; [exact Hv|]. split.
    - rewrite (nth_indep _ black (level64 (color ev) n 0%Z))
        by (rewrite length_map; pose proof (range_down_length n Hlen); lia).
      rewrite (map_nth (level64 (color ev) n)), range_down_nth by exact Hk.
      unfold level64. destruct (color ev) as [[r g] b].
      replace (Z.to_nat (n - (n - Z.of_nat k))) with k by lia. reflexivity.
    - intros c Hc.
      destruct (scale_channel_value c f Hc F0' F1) as (S1 & S2 & _).
      split; assumption. }
  split; [intros j k Hjk Hk; now apply level_factor64_mono|].
  split; [now apply level_factor64_last|].
  intros Hn. split; [exact tenth_value|].
  split; [now apply level_factor64_first|].
  intros k Hk. now apply level_factor64_ramp.
Qed.

Lemma trail_levels_shape_witness :
  (0 <= trail_len ev_default)%Z /\ channels53 (color ev_default) /\
  exists levels : list rgb,
    B64.precompute_trail ev_default = Ok levels /\
    Z.of_nat (List.length levels) = (5 + 1)%Z /\
    nth 1 levels black = (0, 50, 0)%Z /\
    level_factor64 5 0 <= level_factor64 5 1 /\
    level_factor64 5 5 == 1 /\
    level_factor64 5 0 == tenth64 /\
    Qabs (level_factor64 5 1 - Qmax (1 # 10) (1 # 5)) <= B64.pow2 (-53).
Proof.
  assert (Hlen : (0 <= trail_len ev_default)%Z) by (vm_compute; discriminate).
  assert (Hcol : channels53 (color ev_default))
    by (vm_compute; repeat split; discriminate).
  split; [exact Hlen|]. split; [exact Hcol|].
  destruct (trail_levels_shape ev_default Hlen Hcol)
    as (levels & Hl & Hn & Hk & Hm & Hlast & Hfirst).
  exists levels. split; [exact Hl|]. split; [exact Hn|].
  split.
  { destruct (Hk 1%nat ltac:(vm_compute; discriminate)) as (_ & -> & _).
    vm_compute. reflexivity. }
  split; [apply Hm; [lia|vm_compute; discriminate]|].
  split; [exact Hlast|].
  destruct (Hfirst ltac:(vm_compute; discriminate)) as (_ & H0 & Hr).
  split; [exact H0|].
  exact (Hr 1%nat ltac:(vm_compute; discriminate)).
Defined.

(** ** Event model: the traversal count in binary64 *)

Lemma ceiling_between (x : Q) (k : Z) :
  inject_Z k < x -> x <= inject_Z (k + 1) -> Qceiling x = (k + 1)%Z.
Proof.
  intros H1 H2.
  pose proof (Qle_ceiling x) as C1. pose proof (Qceiling_lt x) as C2.
  assert (k < Qceiling x)%Z by (rewrite Zlt_Qlt; lra).
  assert (Qceiling x - 1 < k + 1)%Z by (rewrite Zlt_Qlt; lra).
  lia.
Qed.

(** Below [2^53] the rounding of the quotient does not change its ceiling,
    the count of one lap apart that [max(1, ...)] gives anyway. *)
Lemma ceiling_round_quotient (d l : Z) :
  (0 <= d < 2 ^ 53)%Z -> (0 < l)%Z ->
  let q := inject_Z d / inject_Z l in
  0 <= B64.round q /\ B64.round q <= inject_Z (2 ^ 53) /\
  Z.max 1 (Qceiling (B64.round q)) = Z.max 1 (Qceiling q).
Proof.
  intros Hd Hl q.
  assert (HlQ : 0 < inject_Z l) by (apply inject_Z_pos; lia).
  assert (HdQ : 0 <= inject_Z d) by (change 0 with (inject_Z 0); rewrite <- Zle_Qle; lia).
  assert (Hq0 : 0 <= q) by (apply Qle_shift_div_l; [exact HlQ|lra]).
  assert (Hqd : q <= inject_Z d).
  { apply Qle_shift_div_r; [exact HlQ|].
    rewrite <- inject_Z_mult, <- Zle_Qle. nia. }
  assert (R0 : 0 <= B64.round q) by (now apply round_nonneg).
  assert (R53 : B64.round q <= inject_Z (2 ^ 53)).
  { rewrite <- (round_int (2 ^ 53)) by lia. apply round_mono; [exact Hq0|].
    apply Qle_trans with (inject_Z d); [exact Hqd|]. rewrite <- Zle_Qle. lia. }
  split; [exact R0|]. split; [exact R53|].
  set (k := Qfloor q).
  pose proof (Qfloor_le q) as F1. pose proof (Qlt_floor q) as F2. fold k in F1, F2.
  assert (Hk0 : (0 <= k)%Z).
  { unfold k. rewrite <- (Qfloor_Z 0). now apply Qfloor_resp_le. }
  assert (Hkd : (k <= d)%Z).
  { rewrite Zle_Qle. lra. }
  destruct (Qeq_dec q (inject_Z k)) as [Hint|Hfrac].
  - (* the quotient is a whole number *)
    assert (Hr : B64.round q == inject_Z k).
    { rewrite (round_compat q (inject_Z k) Hq0 Hint). apply round_int. lia. }
    assert (E1 : Qceiling (B64.round q) = k) by (rewrite Hr; apply Qceiling_Z).
    assert (E2 : Qceiling q = k) by (rewrite Hint; apply Qceiling_Z).
    now rewrite E1, E2.
  - assert (Hlt : inject_Z k < q) by lra.
    assert (Hc : Qceiling q = (k + 1)%Z).
    { apply ceiling_between; [exact Hlt|]. now apply Qlt_le_weak. }
    rewrite Hc.
    assert (Rk : inject_Z k <= B64.round q).
    { rewrite <- (round_int k) by lia. apply round_mono; [|exact F1].
      change 0 with (inject_Z 0). now rewrite <- Zle_Qle. }
    assert (Rk1 : B64.round q <= inject_Z (k + 1)).
    { rewrite <- (round_int (k + 1)) by lia. apply round_mono; [exact Hq0|].
      now apply Qlt_le_weak. }
    destruct (Z.eq_dec k 0) as [Ek|Nk].
    + (* less than one lap: the count is 1 either way *)
      rewrite Ek in *.
      assert (Qceiling (B64.round q) <= 1)%Z.
      { rewrite <- (Qceiling_Z 1). now apply Qceiling_resp_le. }
      lia.
    + assert (Hq1 : 1 <= q).
      { apply Qle_trans with (inject_Z k); [|exact F1].
        change 1 with (inject_Z 1). rewrite <- Zle_Qle. lia. }
      destruct (round_relative q Hq1) as [E _].
      (* the quotient exceeds [k] by at least [1 / l] *)
      assert (Hgap : inject_Z k + 1 / inject_Z l <= q).
      { assert (Hz : (k * l + 1 <= d)%Z).
        { assert (k * l < d)%Z; [|lia].
          rewrite Zlt_Qlt, inject_Z_mult.
          apply (mult_lt_pos _ _ (inject_Z l)) in Hlt; [|exact HlQ].
          assert (q * inject_Z l == inject_Z d) by (unfold q; field; lra).
          lra. }
        apply Qle_shift_div_l; [exact HlQ|].
        assert (Hm : (inject_Z k + 1 / inject_Z l) * inject_Z l ==
                     inject_Z (k * l + 1)).
        { rewrite inject_Z_plus, inject_Z_mult. change (inject_Z 1) with 1.
          field. lra. }
        rewrite Hm, <- Zle_Qle. exact Hz. }
      assert (Herr : q * B64.pow2 (-53) < 1 / inject_Z l).
      { unfold q.
        assert (Hd53 : inject_Z d * B64.pow2 (-53) < 1).
        { assert (inject_Z d < B64.pow2 53)
            by (rewrite pow2_Z by lia; rewrite <- Zlt_Qlt; lia).
          apply (mult_lt_pos _ _ (B64.pow2 (-53))) in H; [|apply pow2_pos].
          rewrite (pow2_cancel 53) in H. exact H. }
        assert (Hx : inject_Z d / inject_Z l * B64.pow2 (-53) ==
                     inject_Z d * B64.pow2 (-53) / inject_Z l) by (field; lra).
        rewrite Hx. unfold Qdiv.
        apply mult_lt_pos; [now apply Qinv_lt_0_compat|exact Hd53]. }
      assert (Hgt : inject_Z k < B64.round q) by lra.
      rewrite (ceiling_between _ k Hgt Rk1). reflexivity.
Qed.

(** For a distance below [2^53] and a positive lap length the count that
    binary64 gives is the count of the exact quotient. *)
Lemma traversals64_exact (ev : PaceEvent) :
  (0 <= distance_m ev < 2 ^ 53)%Z -> (0 < laps_m ev)%Z ->
  B64.total_led_traversals ev =
    Ok (Z.max 1 (Qceiling (inject_Z (distance_m ev) / inject_Z (laps_m ev)))).
Proof.
  intros Hd Hl.
  destruct (ceiling_round_quotient _ _ Hd Hl) as (R0 & R1 & Hc).
  unfold B64.total_led_traversals, B64.int_truediv.
  destruct (Z.eqb_spec (laps_m ev) 0) as [E|_]; [lia|].
  rewrite not_overflows by assumption.
  cbn [obind B64.ceil]. now rewrite Hc.
Qed.

(** ** The wrap loops *)

Lemma inject_nat_succ (k : nat) :
  inject_Z (Z.of_nat (S k)) == inject_Z (Z.of_nat k) + 1.
Proof. rewrite Nat2Z.inj_succ. unfold Z.succ. rewrite inject_Z_plus. reflexivity. Qed.

Lemma inject_nat_nonneg (k : nat) : 0 <= inject_Z (Z.of_nat k).
Proof. change 0 with (inject_Z 0). rewrite <- Zle_Qle. lia. Qed.

Lemma wrap_bound_enough (pos : Q) (rail : Z) :
  (0 < rail)%Z ->
  pos < inject_Z (Z.of_nat (wrap_bound pos rail)) * inject_Z rail.
Proof.
  intros Hr. pose proof (inject_Z_pos rail Hr) as Hq.
  unfold wrap_bound. rewrite inject_nat_succ.
  set (x := pos / inject_Z rail).
  assert (Hx : pos == x * inject_Z rail) by (unfold x; field; lra).
  pose proof (Qlt_floor x) as Hfl. rewrite inject_Z_plus in Hfl.
  assert (Hz : inject_Z (Qfloor x) <= inject_Z (Z.of_nat (Z.to_nat (Qfloor x))))
    by (rewrite <- Zle_Qle; lia).
  assert (Hlt : x < inject_Z (Z.of_nat (Z.to_nat (Qfloor x))) + 1)
    by (change (inject_Z 1) with 1 in Hfl; lra).
  rewrite Hx at 1. apply Qmult_lt_compat_r; assumption.
Qed.

Lemma wrap_fuel_spec (rail : Z) (fuel : nat) :
  (0 < rail)%Z ->
  forall pos : Q,
    pos < inject_Z (Z.of_nat fuel) * inject_Z rail \/ pos < inject_Z rail ->
    exists (p : Q) (k : nat),
      wrap_fuel fuel pos rail = Ok p /\
      p == pos - inject_Z (Z.of_nat k) * inject_Z rail /\
      p < inject_Z rail /\
      (0 <= pos -> 0 <= p).
Proof.
  intros Hr. pose proof (inject_Z_pos rail Hr) as Hq.
  induction fuel as [|fuel IH]; intros pos Hpos.
  - assert (Hlt : pos < inject_Z rail).
    { destruct Hpos as [H|H]; [|assumption].
      change (inject_Z (Z.of_nat 0)) with 0 in H. lra. }
    exists pos, O. simpl.
    destruct (Qle_bool (inject_Z rail) pos) eqn:Hb.
    + apply Qle_bool_iff in Hb. lra.
    + split; [reflexivity|]. split; [change (inject_Z (Z.of_nat 0)) with 0; ring|].
      split; [assumption|tauto].
  - cbn [wrap_fuel]. destruct (Qle_bool (inject_Z rail) pos) eqn:Hb.
    + apply Qle_bool_iff in Hb.
      destruct (IH (pos - inject_Z rail)) as (p & k & Hw & Hp & Hlt & Hnn).
      { left. destruct Hpos as [H|H]; [|lra].
        rewrite inject_nat_succ in H. lra. }
      exists p, (S k). split; [assumption|]. split.
      * rewrite Hp, inject_nat_succ. ring.
      * split; [assumption|]. intros _. apply Hnn. lra.
    + exists pos, O. split; [reflexivity|].
      assert (~ inject_Z rail <= pos)
        by (intros H; apply Qle_bool_iff in H; congruence).
      split; [change (inject_Z (Z.of_nat 0)) with 0; ring|]. split; [lra|tauto].
Qed.

(** The loop of [run_event] returns for every position once the rail has at
    least one LED, with the position reduced into the rail. *)
Lemma wrap_spec (pos : Q) (rail : Z) :
  (0 < rail)%Z ->
  exists (p : Q) (k : nat),
    wrap pos rail = Ok p /\
    p == pos - inject_Z (Z.of_nat k) * inject_Z rail /\
    p < inject_Z rail /\
    (0 <= pos -> 0 <= p).
Proof.
  intros Hr. unfold wrap. apply wrap_fuel_spec; [assumption|].
  left. now apply wrap_bound_enough.
Qed.

(** More fuel changes nothing once the loop has returned. *)
Lemma wrap_fuel_more (rail : Z) (fuel : nat) :
  forall (pos p : Q) (extra : nat),
    wrap_fuel fuel pos rail = Ok p -> wrap_fuel (fuel + extra) pos rail = Ok p.
Proof.
  induction fuel as [|fuel IH]; intros pos p extra H.
  - simpl in H. destruct (Qle_bool (inject_Z rail) pos) eqn:Hb; [discriminate|].
    destruct extra; simpl; rewrite Hb; assumption.
  - cbn [wrap_fuel Nat.add] in *.
    destruct (Qle_bool (inject_Z rail) pos); [|assumption]. now apply IH.
Qed.

Lemma same_event_refl (st : pstate) : same_event st st.
Proof. repeat split. Qed.

Lemma same_event_trans (a b c : pstate) :
  same_event a b -> same_event b c -> same_event a c.
Proof.
  unfold same_event. intros (H1 & H2 & H3 & H4 & H5 & H6) (K1 & K2 & K3 & K4 & K5 & K6).
  repeat split; congruence.
Qed.

Lemma par_wrap_fuel_spec (rail : Z) (fuel : nat) :
  (0 < rail)%Z ->
  forall st : pstate,
    st_pos_f st < inject_Z (Z.of_nat fuel) * inject_Z rail \/
    st_pos_f st < inject_Z rail ->
    exists (st' : pstate) (k : nat),
      par_wrap_fuel fuel rail st = Ok st' /\ par_wrapped rail st st' k.
Proof.
  intros Hr. pose proof (inject_Z_pos rail Hr) as Hq.
  assert (Hstop : forall st, st_pos_f st < inject_Z rail ->
            par_wrapped rail st st O).
  { intros st Hlt. split; [apply same_event_refl|].
    split; [change (inject_Z (Z.of_nat 0)) with 0; ring|]. split; [tauto|].
    split; [tauto|].
    intros _. split; [lia|]. right. tauto. }
  induction fuel as [|fuel IH]; intros st Hpos.
  - assert (Hlt : st_pos_f st < inject_Z rail).
    { destruct Hpos as [H|H]; [|assumption].
      change (inject_Z (Z.of_nat 0)) with 0 in H. lra. }
    exists st, O. split; [|now apply Hstop].
    simpl. destruct (Qle_bool (inject_Z rail) (st_pos_f st)) eqn:Hb; [|reflexivity].
    apply Qle_bool_iff in Hb. lra.
  - cbn [par_wrap_fuel].
    destruct (Qle_bool (inject_Z rail) (st_pos_f st)) eqn:Hb.
    2:{ exists st, O. split; [reflexivity|]. apply Hstop.
        assert (~ inject_Z rail <= st_pos_f st)
          by (intros H; apply Qle_bool_iff in H; congruence).
        lra. }
    apply Qle_bool_iff in Hb.
    assert (Hless : st_pos_f st - inject_Z rail <
                    inject_Z (Z.of_nat fuel) * inject_Z rail).
    { destruct Hpos as [H|H]; [|lra]. rewrite inject_nat_succ in H. lra. }
    destruct st as [ev lps pos need trav met us dn lv]. proj.
    destruct us; proj.
    + destruct (IH (mkPstate ev lps (pos - inject_Z rail) need trav met true dn lv))
        as (st' & k & Hw & Hse & Hp & Hnn & Hs & Hc); [left; exact Hless|].
      proj. exists st', (S k). split; [exact Hw|].
      split; [exact Hse|]. proj.
      split; [rewrite Hp, inject_nat_succ; ring|].
      split; [intros _; apply Hnn; lra|].
      split; [exact Hs|discriminate].
    + destruct (trav + 1 >=? need)%Z eqn:Hge.
      * exists (mkPstate ev lps (pos - inject_Z rail) need (trav + 1) met false true lv),
          1%nat.
        split; [reflexivity|]. split; [repeat split|]. proj.
        split; [change (inject_Z (Z.of_nat 1)) with 1; ring|].
        split; [intros _; lra|]. split; [discriminate|].
        intros _. split; [reflexivity|]. left. repeat split; lia.
      * destruct (IH (mkPstate ev lps (pos - inject_Z rail) need (trav + 1) met false dn lv))
          as (st' & k & Hw & Hse & Hp & Hnn & Hs & Hc); [left; exact Hless|].
        proj. exists st', (S k). split; [exact Hw|].
        split; [exact Hse|]. proj.
        split; [rewrite Hp, inject_nat_succ; ring|].
        split; [intros _; apply Hnn; lra|].
        split; [discriminate|].
        intros _. destruct (Hc eq_refl) as (Ht & Hd). split; [lia|].
        destruct Hd as [(Hd1 & Hd2 & Hd3)|(Hd1 & Hd2 & Hd3)].
        -- left. repeat split; try assumption; lia.
        -- right. repeat split; try assumption. right. lia.
Qed.

Lemma par_wrap_spec (rail : Z) (st : pstate) :
  (0 < rail)%Z ->
  exists (st' : pstate) (k : nat),
    par_wrap rail st = Ok st' /\ par_wrapped rail st st' k.
Proof.
  intros Hr. unfold par_wrap, par_wrap_bound.
  apply par_wrap_fuel_spec; [assumption|]. left.
  pose proof (wrap_bound_enough (st_pos_f st) rail Hr) as Hb.
  pose proof (inject_Z_pos rail Hr) as Hq.
  set (a := wrap_bound (st_pos_f st) rail) in *.
  set (b := Z.to_nat (st_traversals_needed st - st_traversals_done st)).
  rewrite Nat2Z.inj_add, inject_Z_plus.
  pose proof (inject_nat_nonneg b) as Hb0.
  assert (0 <= inject_Z (Z.of_nat b) * inject_Z rail)
    by (apply Qmult_le_0_compat; lra).
  lra.
Qed.

(** *** The bounds of the wrap loops lose nothing

    [wrap] and [par_wrap] run the loops with a computed number of
    iterations.  Whatever the loops return with any number of iterations,
    they return with those; where they do not return, the source loops
    forever. *)

Lemma wrap_fuel_diverges (rail : Z) (fuel : nat) :
  (rail <= 0)%Z ->
  forall pos : Q, inject_Z rail <= pos -> wrap_fuel fuel pos rail = Diverge.
Proof.
  intros Hr. assert (Hq : inject_Z rail <= 0)
    by (change 0 with (inject_Z 0); now rewrite <- Zle_Qle).
  induction fuel as [|fuel IH]; intros pos Hpos; cbn [wrap_fuel];
    apply Qle_bool_iff in Hpos; rewrite Hpos; [reflexivity|].
  apply IH. apply Qle_bool_iff in Hpos. lra.
Qed.

Lemma wrap_exact (rail : Z) (fuel : nat) (pos p : Q) :
  wrap_fuel fuel pos rail = Ok p -> wrap pos rail = Ok p.
Proof.
  intros H. destruct (Z_lt_le_dec 0 rail) as [Hr|Hr].
  - destruct (wrap_spec pos rail Hr) as (p' & k & Hw & _).
    unfold wrap in *.
    pose proof (wrap_fuel_more rail _ _ _ (wrap_bound pos rail) H) as H1.
    pose proof (wrap_fuel_more rail _ _ _ fuel Hw) as H2.
    rewrite Nat.add_comm in H2. congruence.
  - destruct (Qlt_le_dec pos (inject_Z rail)) as [Hlt|Hge].
    + apply Qle_bool_false in Hlt. unfold wrap, wrap_bound. cbn [wrap_fuel].
      rewrite Hlt. destruct fuel; cbn [wrap_fuel] in H; rewrite Hlt in H; exact H.
    + rewrite (wrap_fuel_diverges rail fuel Hr pos Hge) in H. discriminate.
Qed.

Lemma par_wrap_fuel_more (rail : Z) (fuel : nat) :
  forall (st st' : pstate) (extra : nat),
    par_wrap_fuel fuel rail st = Ok st' ->
    par_wrap_fuel (fuel + extra) rail st = Ok st'.
Proof.
  induction fuel as [|fuel IH]; intros st st' extra H.
  - cbn [par_wrap_fuel] in H.
    destruct (Qle_bool (inject_Z rail) (st_pos_f st)) eqn:Hb; [discriminate|].
    destruct extra; cbn [par_wrap_fuel Nat.add]; rewrite Hb; exact H.
  - cbn [par_wrap_fuel Nat.add] in *.
    destruct (Qle_bool (inject_Z rail) (st_pos_f st)); [|exact H].
    destruct (negb _); [|now apply IH].
    destruct (_ >=? _)%Z; [exact H|now apply IH].
Qed.

(** A constant-pace sub-event leaves the loop, by [break] at the latest,
    within the iterations its count still needs. *)
Lemma par_wrap_fuel_breaks (rail : Z) (fuel : nat) :
  forall st : pstate,
    st_use_splits st = false ->
    (1 <= fuel)%nat ->
    (Z.to_nat (st_traversals_needed st - st_traversals_done st) <= fuel)%nat ->
    exists st', par_wrap_fuel fuel rail st = Ok st'.
Proof.
  induction fuel as [|fuel IH]; intros st Hus H1 Hn; [lia|].
  destruct st as [ev lps pos need trav met us dn lv]. proj. subst us.
  cbn [par_wrap_fuel]. proj.
  destruct (Qle_bool (inject_Z rail) pos); [|eexists; reflexivity].
  destruct (trav + 1 >=? need)%Z eqn:Hge; [eexists; reflexivity|].
  apply IH; proj; try reflexivity; lia.
Qed.

Lemma par_wrap_fuel_diverges (rail : Z) (fuel : nat) :
  (rail <= 0)%Z ->
  forall st : pstate,
    st_use_splits st = true -> inject_Z rail <= st_pos_f st ->
    par_wrap_fuel fuel rail st = Diverge.
Proof.
  intros Hr. assert (Hq : inject_Z rail <= 0)
    by (change 0 with (inject_Z 0); now rewrite <- Zle_Qle).
  induction fuel as [|fuel IH]; intros st Hus Hpos;
    destruct st as [ev lps pos need trav met us dn lv]; proj; subst us;
    cbn [par_wrap_fuel]; proj;
    apply Qle_bool_iff in Hpos; rewrite Hpos; [reflexivity|].
  apply IH; proj; [reflexivity|]. apply Qle_bool_iff in Hpos. lra.
Qed.

Lemma par_wrap_exact (rail : Z) (fuel : nat) (st st' : pstate) :
  par_wrap_fuel fuel rail st = Ok st' -> par_wrap rail st = Ok st'.
Proof.
  intros H.
  assert (Hsame : forall st'', par_wrap rail st = Ok st'' -> par_wrap rail st = Ok st').
  { intros st'' Hw. unfold par_wrap in *.
    pose proof (par_wrap_fuel_more rail _ _ _ (par_wrap_bound rail st) H) as H1.
    pose proof (par_wrap_fuel_more rail _ _ _ fuel Hw) as H2.
    rewrite Nat.add_comm in H2. congruence. }
  destruct (st_use_splits st) eqn:Hus.
  - destruct (Z_lt_le_dec 0 rail) as [Hr|Hr].
    + destruct (par_wrap_spec rail st Hr) as (st'' & k & Hw & _). eauto.
    + destruct (Qlt_le_dec (st_pos_f st) (inject_Z rail)) as [Hlt|Hge].
      * apply Qle_bool_false in Hlt. unfold par_wrap, par_wrap_bound, wrap_bound.
        cbn [par_wrap_fuel Nat.add]. rewrite Hlt.
        destruct fuel; cbn [par_wrap_fuel] in H; rewrite Hlt in H; exact H.
      * rewrite (par_wrap_fuel_diverges rail fuel Hr st Hus Hge) in H. discriminate.
  - destruct (par_wrap_fuel_breaks rail (par_wrap_bound rail st) st Hus)
      as (st'' & Hw); [unfold par_wrap_bound, wrap_bound; lia ..|].
    eauto.
Qed.

(** ** Framebuffer reads and writes *)

Lemma set_nth_spec {A : Type} (d v : A) (xs : list A) :
  forall i : nat,
    (i < List.length xs)%nat ->
    exists xs',
      Py.set_nth xs i v = Some xs' /\
      List.length xs' = List.length xs /\
      nth i xs' d = v /\
      forall j, j <> i -> nth j xs' d = nth j xs d.
Proof.
  induction xs as [|x xs IH]; intros i Hi; [simpl in Hi; lia|].
  destruct i as [|i].
  - exists (v :: xs). repeat split. intros [|j] Hj; [congruence|reflexivity].
  - destruct (IH i) as (xs' & Hs & Hl & Hn & Ho); [simpl in Hi; lia|].
    exists (x :: xs'). cbn [Py.set_nth]. rewrite Hs.
    split; [reflexivity|]. split; [simpl; congruence|].
    split; [exact Hn|]. intros [|j] Hj; [reflexivity|].
    simpl. apply Ho. congruence.
Qed.

Lemma setitem_spec (fb : framebuffer) (i : Z) (c : rgb) :
  (0 <= i < Z.of_nat (List.length fb))%Z ->
  exists fb',
    Py.setitem fb i c = Ok fb' /\
    List.length fb' = List.length fb /\
    nth (Z.to_nat i) fb' black = c /\
    forall j, j <> Z.to_nat i -> nth j fb' black = nth j fb black.
Proof.
  intros Hi. unfold Py.setitem.
  destruct (i <? 0)%Z eqn:Hneg; [apply Z.ltb_lt in Hneg; lia|].
  replace ((0 <=? i)%Z && (i <? Z.of_nat (List.length fb))%Z)%bool with true
    by (symmetry; apply andb_true_iff; split;
        [apply Z.leb_le|apply Z.ltb_lt]; lia).
  destruct (set_nth_spec black c fb (Z.to_nat i)) as (fb' & Hs & Hrest); [lia|].
  exists fb'. rewrite Hs. split; [reflexivity|exact Hrest].
Qed.

Lemma index_spec (fb : framebuffer) (i : Z) :
  (0 <= i < Z.of_nat (List.length fb))%Z ->
  Py.index fb i = Ok (nth (Z.to_nat i) fb black).
Proof.
  intros Hi. unfold Py.index.
  destruct (i <? 0)%Z eqn:Hneg; [apply Z.ltb_lt in Hneg; lia|].
  replace ((0 <=? i)%Z && (i <? Z.of_nat (List.length fb))%Z)%bool with true
    by (symmetry; apply andb_true_iff; split;
        [apply Z.leb_le|apply Z.ltb_lt]; lia).
  destruct (nth_error fb (Z.to_nat i)) as [x|] eqn:Hn.
  - now rewrite (nth_error_nth _ _ _ Hn).
  - apply nth_error_None in Hn. lia.
Qed.


Lemma stored_blend (old col : rgb) : stored put_blend old col = blend_additive old col.
Proof. reflexivity. Qed.


Lemma put_blend_assigns : assigns put_blend.
Proof.
  intros fb i c Hi. unfold put_blend. rewrite index_spec by assumption.
  cbn [obind].
  destruct (setitem_spec fb i (blend_additive (nth (Z.to_nat i) fb black) c) Hi)
    as (fb' & H1 & H2 & H3 & H4).
  exists fb'. repeat split; assumption.
Qed.

(** ** The trail renderer *)

Lemma draw_trail_from (put : framebuffer -> Z -> rgb -> outcome framebuffer)
    (tl head : Z) (levels : list rgb) :
  forall (t0 : Z) (fb : framebuffer),
    draw_trail put tl head t0 levels fb =
    apply_writes put
      (filter (fun w => negb (fst w <? 0)%Z)
         (map (fun t => ((head - (tl - (t0 + Z.of_nat t)))%Z, nth t levels black))
            (seq 0 (List.length levels))))
      fb.
Proof.
  induction levels as [|col rest IH]; intros t0 fb; [reflexivity|].
  assert (Htail : forall fb1,
            draw_trail put tl head (t0 + 1) rest fb1 =
            apply_writes put
              (filter (fun w => negb (fst w <? 0)%Z)
                 (map (fun t => ((head - (tl - (t0 + Z.of_nat t)))%Z,
                                 nth t (col :: rest) black))
                    (seq 1 (List.length rest)))) fb1).
  { intros fb1. rewrite IH, <- seq_shift, map_map.
    f_equal. f_equal. apply map_ext. intros t. cbn [nth]. f_equal. lia. }
  change (seq 0 (List.length (col :: rest)))
    with (0%nat :: seq 1 (List.length rest)).
  cbn [draw_trail map filter fst].
  replace (t0 + Z.of_nat 0)%Z with t0 by lia.
  destruct (head - (tl - t0) <? 0)%Z; cbn [negb apply_writes nth].
  - apply Htail.
  - destruct (put fb (head - (tl - t0))%Z col) as [fb'| |]; cbn [obind];
      [apply Htail|reflexivity|reflexivity].
Qed.

(** The trail loop performs exactly the listed writes, in order. *)
Lemma draw_trail_writes (put : framebuffer -> Z -> rgb -> outcome framebuffer)
    (tl head : Z) (levels : list rgb) (fb : framebuffer) :
  draw_trail put tl head 0 levels fb =
  apply_writes put (trail_writes tl head levels) fb.
Proof.
  rewrite draw_trail_from. reflexivity.
Qed.

Lemma trail_writes_in (tl head : Z) (levels : list rgb) (i : Z) (c : rgb) :
  In (i, c) (trail_writes tl head levels) <->
  exists t : nat,
    (t < List.length levels)%nat /\
    i = (head - (tl - Z.of_nat t))%Z /\ c = nth t levels black /\ (0 <= i)%Z.
Proof.
  unfold trail_writes, trail_write. rewrite filter_In, in_map_iff. cbn [fst].
  split.
  - intros ((t & Ht & Hin) & Hpos). apply in_seq in Hin.
    injection Ht as Hi Hc. exists t.
    apply negb_true_iff, Z.ltb_ge in Hpos. repeat split; try lia; congruence.
  - intros (t & Ht & Hi & Hc & Hpos). split.
    + exists t. split; [congruence|]. apply in_seq. lia.
    + apply negb_true_iff, Z.ltb_ge. exact Hpos.
Qed.

Lemma apply_writes_ok (put : framebuffer -> Z -> rgb -> outcome framebuffer)
    (Hput : assigns put) (ws : list (Z * rgb)) :
  forall fb : framebuffer,
    Forall (fun w => (0 <= fst w < Z.of_nat (List.length fb))%Z) ws ->
    exists fb',
      apply_writes put ws fb = Ok fb' /\ List.length fb' = List.length fb.
Proof.
  induction ws as [|[i c] ws IH]; intros fb Hall.
  - exists fb. split; reflexivity.
  - inversion Hall as [|? ? Hi Hrest]; subst. cbn [fst] in Hi.
    destruct (Hput fb i c Hi) as (fb1 & Hp & Hl & _).
    destruct (IH fb1) as (fb' & Ha & Hl').
    { rewrite Hl. exact Hrest. }
    exists fb'. cbn [apply_writes]. rewrite Hp. cbn [obind].
    split; [exact Ha|congruence].
Qed.

Lemma blank_length (rail : Z) : Z.of_nat (List.length (blank rail)) = Z.max 0 rail.
Proof. unfold blank. rewrite repeat_length. lia. Qed.

(** *** The pixels after the trail loop *)

Lemma apply_writes_pixels (put : framebuffer -> Z -> rgb -> outcome framebuffer)
    (Hput : assigns put) (ws : list (Z * rgb)) :
  forall fb fb' : framebuffer,
    Forall (fun w => (0 <= fst w < Z.of_nat (List.length fb))%Z) ws ->
    NoDup (map fst ws) ->
    apply_writes put ws fb = Ok fb' ->
    (forall i c, In (i, c) ws ->
       nth (Z.to_nat i) fb' black = stored put (nth (Z.to_nat i) fb black) c) /\
    (forall j : nat, ~ In (Z.of_nat j) (map fst ws) ->
       nth j fb' black = nth j fb black).
Proof.
  induction ws as [|[i0 c0] ws IH]; intros fb fb' Hall Hnd H.
  - injection H as <-. split; [intros i c []|reflexivity].
  - inversion Hall as [|? ? Hi Hrest]; subst. cbn [fst] in Hi.
    cbn [map fst] in Hnd. inversion Hnd as [|? ? Hnotin Hnd']; subst.
    cbn [apply_writes] in H.
    destruct (Hput fb i0 c0 Hi) as (fb1 & Hp & Hl & Hset & Hother).
    rewrite Hp in H. cbn [obind] in H.
    destruct (IH fb1 fb') as (IH1 & IH2); try assumption.
    { rewrite Hl. exact Hrest. }
    split.
    + intros i c [Heq|Hin].
      * injection Heq as <- <-. rewrite IH2, Hset; [reflexivity|].
        rewrite Z2Nat.id by lia. exact Hnotin.
      * rewrite (IH1 i c Hin). f_equal. apply Hother.
        intros Heq. apply Hnotin.
        assert (Hr : (0 <= i < Z.of_nat (List.length fb))%Z).
        { rewrite Forall_forall in Hrest. apply (Hrest (i, c) Hin). }
        assert (i = i0) by lia. subst i.
        change i0 with (fst (i0, c)). now apply in_map.
    + intros j Hj. cbn [map fst] in Hj.
      rewrite IH2 by (intros Hin; apply Hj; right; exact Hin).
      apply Hother. intros Heq. apply Hj. left. lia.
Qed.

Lemma trail_writes_indices (tl head : Z) (levels : list rgb) :
  map fst (trail_writes tl head levels) =
  filter (fun i => negb (i <? 0)%Z)
    (map (fun t => (head - (tl - Z.of_nat t))%Z) (seq 0 (List.length levels))).
Proof.
  unfold trail_writes, trail_write.
  induction (seq 0 (List.length levels)) as [|t ts IH]; [reflexivity|].
  cbn [map filter fst].
  destruct (negb (head - (tl - Z.of_nat t) <? 0)%Z); cbn [map fst]; now rewrite IH.
Qed.

(** The indices of the trail are pairwise distinct: no pixel is written
    twice by one trail. *)
Lemma trail_writes_nodup (tl head : Z) (levels : list rgb) :
  NoDup (map fst (trail_writes tl head levels)).
Proof.
  rewrite trail_writes_indices. apply NoDup_filter.
  apply NoDup_map_NoDup_ForallPairs; [|apply seq_NoDup].
  intros a b _ _ Hab. lia.
Qed.

(** The frame left by a trail whose head lies on the rail: the pixel of
    position [t], when not below 0, holds what the assignment stores for
    [levels[t]]; every other pixel is as before. *)
Lemma trail_pixels (put : framebuffer -> Z -> rgb -> outcome framebuffer)
    (Hput : assigns put) (tl head rail : Z) (levels : list rgb)
    (fb fb' : framebuffer) :
  (Z.of_nat (List.length levels) <= Z.max 0 (tl + 1))%Z ->
  (head < rail)%Z ->
  Z.of_nat (List.length fb) = Z.max 0 rail ->
  apply_writes put (trail_writes tl head levels) fb = Ok fb' ->
  (forall t : nat,
     (t < List.length levels)%nat ->
     let i := (head - (tl - Z.of_nat t))%Z in
     (0 <= i)%Z ->
     nth (Z.to_nat i) fb' black =
     stored put (nth (Z.to_nat i) fb black) (nth t levels black)) /\
  (forall j : nat,
     (forall t : nat, (t < List.length levels)%nat ->
        Z.of_nat j <> (head - (tl - Z.of_nat t))%Z) ->
     nth j fb' black = nth j fb black).
Proof.
  intros Hlen Hhead Hfb H.
  destruct (apply_writes_pixels put Hput (trail_writes tl head levels) fb fb')
    as (H1 & H2); try assumption.
  - apply Forall_forall. intros [i c] Hin. apply trail_writes_in in Hin.
    destruct Hin as (t & Ht & Hi & _ & Hpos). cbn [fst]. lia.
  - apply trail_writes_nodup.
  - split.
    + intros t Ht i Hi. apply H1. apply trail_writes_in. exists t. auto.
    + intros j Hj. apply H2. intros Hin. apply in_map_iff in Hin.
      destruct Hin as ([i c] & Heq & Hin). cbn [fst] in Heq. subst i.
      apply trail_writes_in in Hin. destruct Hin as (t & Ht & Hi & _).
      now apply (Hj t Ht).
Qed.

(** ** One tick, case by case *)

Lemma div_inv (a b q : Q) : Py.div a b = Ok q -> q = a / b /\ ~ b == 0.
Proof.
  unfold Py.div. destruct (Qeq_bool b 0) eqn:Hb; [discriminate|].
  intros H. injection H as <-. split; [reflexivity|].
  now apply Qeq_bool_neq.
Qed.

Lemma obind_inv {A B : Type} (o : outcome A) (k : A -> outcome B) (b : B) :
  obind o k = Ok b -> exists a, o = Ok a /\ k a = Ok b.
Proof. destruct o as [a| |]; cbn; try discriminate. intros H. now exists a. Qed.

Lemma dt_pos : 0 < frame_dt_target.
Proof. reflexivity. Qed.

Lemma precompute_trail_short (ev : PaceEvent) :
  (Z.of_nat (List.length (precompute_trail ev)) <= Z.max 0 (trail_len ev + 1))%Z.
Proof.
  unfold precompute_trail. destruct (color ev) as [[r g] b].
  unfold Py.range_down. rewrite length_map, length_map, length_seq. lia.
Qed.

(** The writes of a trail whose head lies on the rail all land on the rail,
    so the loop cannot raise. *)
Lemma trail_on_rail (put : framebuffer -> Z -> rgb -> outcome framebuffer)
    (Hput : assigns put) (tl head rail : Z) (levels : list rgb) (fb : framebuffer) :
  (Z.of_nat (List.length levels) <= Z.max 0 (tl + 1))%Z ->
  (head < rail)%Z ->
  Z.of_nat (List.length fb) = Z.max 0 rail ->
  Forall (fun w => (0 <= fst w <= rail - 1)%Z) (trail_writes tl head levels) /\
  exists fb',
    draw_trail put tl head 0 levels fb = Ok fb' /\
    apply_writes put (trail_writes tl head levels) fb = Ok fb' /\
    List.length fb' = List.length fb.
Proof.
  intros Hlen Hhead Hfb.
  assert (Hall : Forall (fun w => (0 <= fst w <= rail - 1)%Z)
                   (trail_writes tl head levels)).
  { apply Forall_forall. intros [i c] Hin. apply trail_writes_in in Hin.
    destruct Hin as (t & Ht & Hi & _ & Hpos). cbn [fst]. lia. }
  split; [exact Hall|].
  destruct (apply_writes_ok put Hput (trail_writes tl head levels) fb)
    as (fb' & Ha & Hl).
  { eapply Forall_impl; [|exact Hall]. intros w Hw. cbn beta in Hw. lia. }
  exists fb'. rewrite draw_trail_writes. repeat split; assumption.
Qed.

(** *** Split pace *)

Lemma fmod_spec (x : Q) (n : Z) :
  (0 < n)%Z ->
  exists m : Q,
    Py.fmod x n = Ok m /\
    m == x - inject_Z n * inject_Z (Qfloor (x / inject_Z n)) /\
    0 <= m /\ m < inject_Z n.
Proof.
  intros Hn. pose proof (inject_Z_pos n Hn) as Hq.
  unfold Py.fmod. destruct (n =? 0)%Z eqn:Hz; [apply Z.eqb_eq in Hz; lia|].
  eexists. split; [reflexivity|]. split; [reflexivity|].
  set (y := x / inject_Z n).
  assert (Hx : x == y * inject_Z n) by (unfold y; field; lra).
  pose proof (Qfloor_le y) as Hlo. pose proof (Qlt_floor y) as Hhi.
  rewrite inject_Z_plus in Hhi. change (inject_Z 1) with 1 in Hhi.
  set (f := inject_Z (Qfloor y)) in *.
  assert (H1 : f * inject_Z n <= y * inject_Z n)
    by (apply Qmult_le_compat_r; lra).
  assert (H2 : y * inject_Z n < (f + 1) * inject_Z n)
    by (apply Qmult_lt_compat_r; lra).
  split; lra.
Qed.

(** *** The current 100 m block *)

Lemma int_inject_Z (z : Z) : Py.int (inject_Z z) = z.
Proof. unfold Py.int. simpl. apply Z.quot_1_r. Qed.

Lemma seg_index_value (splits : list Q) (m : Q) :
  seg_index splits m =
  Z.min (Z.of_nat (List.length splits) - 1) (Qfloor (m / 100)).
Proof.
  unfold seg_index, Py.floordiv, Qmin, GenericMinMax.gmin.
  set (a := (Z.of_nat (List.length splits) - 1)%Z). set (b := Qfloor (m / 100)).
  assert (Hc : (inject_Z a ?= inject_Z b) = (a ?= b)%Z).
  { unfold Qcompare. simpl. now rewrite !Z.mul_1_r. }
  rewrite Hc. destruct (a ?= b)%Z eqn:Hab; rewrite int_inject_Z.
  - apply Z.compare_eq in Hab. clearbody a b. lia.
  - rewrite Z.compare_lt_iff in Hab. clearbody a b. lia.
  - rewrite Z.compare_gt_iff in Hab. clearbody a b. lia.
Qed.

Lemma split_velocity_ok (splits : list Q) (lpm m : Q) :
  splits <> [] -> Forall (fun s => 0 < s) splits -> 0 <= m ->
  exists s : Q,
    In s splits /\ 0 < s /\
    nth_error splits (Z.to_nat (seg_index splits m)) = Some s /\
    split_velocity splits lpm m = Ok (100 / s * lpm).
Proof.
  intros Hne Hall Hm.
  assert (Hlen : (0 < List.length splits)%nat)
    by (destruct splits; [congruence|simpl; lia]).
  assert (Hfl : (0 <= Qfloor (m / 100))%Z).
  { rewrite <- (Qfloor_Z 0). apply Qfloor_resp_le.
    apply Qle_shift_div_l; [reflexivity|]. rewrite Qmult_0_l. exact Hm. }
  pose proof (seg_index_value splits m) as Hseg.
  set (i := seg_index splits m) in *.
  assert (Hi : (0 <= i < Z.of_nat (List.length splits))%Z) by lia.
  destruct (nth_error splits (Z.to_nat i)) as [s|] eqn:Hn.
  2:{ apply nth_error_None in Hn. lia. }
  assert (Hin : In s splits) by (eapply nth_error_In; eassumption).
  assert (Hs : 0 < s) by (rewrite Forall_forall in Hall; now apply Hall).
  exists s. split; [exact Hin|]. split; [exact Hs|]. split; [reflexivity|].
  unfold split_velocity, Py.index. fold i.
  destruct (i <? 0)%Z eqn:Hneg; [apply Z.ltb_lt in Hneg; lia|].
  replace ((0 <=? i)%Z && (i <? Z.of_nat (List.length splits))%Z)%bool with true
    by (symmetry; apply andb_true_iff; split;
        [apply Z.leb_le|apply Z.ltb_lt]; lia).
  rewrite Hn. cbn [obind]. rewrite div_ok by lra. reflexivity.
Qed.

(** *** A sub-event of the parallel runner *)

Lemma par_advance_inv (rail : Z) (st st' : pstate) :
  (0 < rail)%Z ->
  par_advance rail st = Ok st' ->
  exists (v lpm : Q) (st1 : pstate) (k : nat),
    par_velocity st = Ok v /\
    leds_per_meter (st_ev st) = Ok lpm /\ ~ lpm == 0 /\
    par_wrap rail (advanced st v lpm) = Ok st1 /\
    par_wrapped rail (advanced st v lpm) st1 k /\
    st' = completed st1.
Proof.
  intros Hr H. unfold par_advance in H.
  apply obind_inv in H. destruct H as (v & Hv & H).
  apply obind_inv in H. destruct H as (lpm & Hl & H).
  apply obind_inv in H. destruct H as (q & Hq & H).
  apply div_inv in Hq. destruct Hq as (-> & Hlpm).
  apply obind_inv in H. destruct H as (st1 & Hw & H).
  destruct (par_wrap_spec rail (advanced st v lpm) Hr) as (st2 & k & Hw2 & Hspec).
  unfold advanced in Hw2. proj. rewrite Hw in Hw2. injection Hw2 as <-.
  exists v, lpm, st1, k. repeat (split; [assumption|]).
  unfold completed.
  destruct (st_use_splits st1);
    [destruct (Qle_bool _ _)|]; congruence.
Qed.

(** ** Completion in the parallel runner *)

Lemma par_step_inv (rail : Z) (st st' : pstate) (fb fb' : framebuffer) :
  par_step rail st fb = Ok (st', fb') ->
  (st_done st = true /\ st' = st /\ fb' = fb) \/
  (st_done st = false /\ par_advance rail st = Ok st' /\
   ((st_done st' = true /\ fb' = fb) \/
    (st_done st' = false /\
     draw_trail put_blend (trail_len (st_ev st')) (Py.int (st_pos_f st')) 0
       (st_trail_levels st') fb = Ok fb'))).
Proof.
  unfold par_step. destruct (st_done st) eqn:Hd.
  - intros H. injection H as <- <-. left. auto.
  - intros H. right. split; [reflexivity|].
    apply obind_inv in H. destruct H as (st1 & Ha & H).
    destruct (st_done st1) eqn:Hd1.
    + injection H as <- <-. auto.
    + apply obind_inv in H. destruct H as (fb1 & Hdraw & H).
      injection H as <- <-. split; [assumption|]. right. auto.
Qed.

Lemma completed_fields (st : pstate) :
  st_ev (completed st) = st_ev st /\
  st_use_splits (completed st) = st_use_splits st /\
  st_traversals_needed (completed st) = st_traversals_needed st /\
  st_traversals_done (completed st) = st_traversals_done st /\
  st_meters_done (completed st) = st_meters_done st /\
  st_pos_f (completed st) = st_pos_f st /\
  st_trail_levels (completed st) = st_trail_levels st.
Proof.
  destruct st as [ev lps pos need trav met us dn lv]. unfold completed. proj.
  destruct us; [|repeat split].
  destruct (Qle_bool _ _); repeat split.
Qed.

(** One advance of a constant-pace sub-event that is not done: the flag
    afterwards says exactly whether the count has reached the need. *)
Lemma par_advance_traversal_rule (rail : Z) (st st' : pstate) :
  (0 < rail)%Z ->
  st_use_splits st = false -> st_done st = false ->
  (st_traversals_done st < st_traversals_needed st)%Z ->
  par_advance rail st = Ok st' ->
  traversal_rule st'.
Proof.
  intros Hr Hus Hd Hlt Ha.
  destruct (par_advance_inv rail st st' Hr Ha)
    as (v & lpm & st1 & k & _ & _ & _ & _ & Hw & ->).
  destruct Hw as (Hse & _ & _ & _ & Hc).
  destruct Hse as (_ & _ & Hneed & _ & Hus1 & _).
  destruct (Hc Hus) as (Ht & Hcase). unfold advanced in *; proj.
  unfold traversal_rule, completed. rewrite Hus1. proj. rewrite Hus.
  rewrite Hneed. unfold advanced in *; proj.
  destruct Hcase as [(Hd1 & Hge & _)|(Hd1 & _ & Hk)].
  - proj. tauto.
  - proj. rewrite Hd1, Hd. split; [discriminate|]. intros Hge.
    destruct Hk as [->|Hk]; lia.
Qed.

(** One advance of a split-pace sub-event: the flag afterwards says exactly
    whether the distance has been covered. *)
Lemma par_advance_distance_rule (rail : Z) (st st' : pstate) :
  (0 < rail)%Z ->
  st_use_splits st = true -> st_done st = false ->
  par_advance rail st = Ok st' ->
  distance_rule st'.
Proof.
  intros Hr Hus Hd Ha.
  destruct (par_advance_inv rail st st' Hr Ha)
    as (v & lpm & st1 & k & _ & _ & _ & _ & Hw & ->).
  destruct Hw as (Hse & _ & _ & Hs & _).
  destruct Hse as (Hev & _ & _ & _ & Hus1 & _).
  destruct (Hs Hus) as (_ & Hd1 & _). unfold advanced in *; proj.
  unfold distance_rule, completed. rewrite Hus1. proj. rewrite Hus.
  destruct (Qle_bool (inject_Z (distance_m (st_ev st1))) (st_meters_done st1)) eqn:Hb.
  - proj. apply Qle_bool_iff in Hb. tauto.
  - rewrite Hd1, Hd. apply Qle_bool_false in Hb. split; [discriminate|].
    intros Hle. lra.
Qed.

Lemma par_advance_well_formed (rail : Z) (st st' : pstate) :
  (0 < rail)%Z -> par_advance rail st = Ok st' ->
  well_formed st -> well_formed st'.
Proof.
  intros Hr Ha (Hn & Hs).
  destruct (par_advance_inv rail st st' Hr Ha)
    as (v & lpm & st1 & k & _ & _ & _ & _ & Hw & ->).
  destruct Hw as ((Hev & _ & Hneed & _ & Hus1 & _) & _). unfold advanced in *; proj.
  destruct (completed_fields st1) as (E1 & E2 & E3 & _).
  unfold well_formed. rewrite E1, E2, E3, Hev, Hneed, Hus1. proj. auto.
Qed.

Lemma par_step_completion (rail : Z) (b : bool) (st st' : pstate)
    (fb fb' : framebuffer) :
  (0 < rail)%Z ->
  par_step rail st fb = Ok (st', fb') ->
  completion_inv b st -> completion_inv true st'.
Proof.
  intros Hr Hstep (Hwf & Hc & Hs).
  destruct (par_step_inv rail st st' fb fb' Hstep)
    as [(Hd & -> & _)|(Hd & Ha & _)].
  - split; [assumption|]. split; [assumption|]. intros Hus.
    specialize (Hs Hus). destruct b; [assumption|congruence].
  - pose proof (par_advance_well_formed rail st st' Hr Ha Hwf) as Hwf'.
    split; [assumption|].
    destruct (par_advance_inv rail st st' Hr Ha)
      as (v & lpm & st1 & k & _ & _ & _ & _ & Hw & Heq).
    destruct Hw as ((_ & _ & _ & _ & Hus1 & _) & _). unfold advanced in *; proj.
    destruct (completed_fields st1) as (_ & E2 & _).
    assert (Hsame : st_use_splits st' = st_use_splits st) by congruence.
    rewrite Hsame. split; intros Hus.
    + apply (par_advance_traversal_rule rail st st'); try assumption.
      specialize (Hc Hus). unfold traversal_rule in Hc.
      destruct (Z_lt_le_dec (st_traversals_done st) (st_traversals_needed st))
        as [Hlt|Hge]; [assumption|].
      apply Hc in Hge. congruence.
    + now apply (par_advance_distance_rule rail st st').
Qed.

Lemma par_steps_completion (rail : Z) (b : bool) (state : list pstate) :
  (0 < rail)%Z ->
  forall (fb : framebuffer) (state' : list pstate) (fb' : framebuffer),
    par_steps rail state fb = Ok (state', fb') ->
    Forall (completion_inv b) state -> Forall (completion_inv true) state'.
Proof.
  intros Hr. induction state as [|st rest IH]; intros fb state' fb' H Hall.
  - injection H as <- <-. constructor.
  - cbn [par_steps] in H.
    apply obind_inv in H. destruct H as ([st1 fb1] & Hstep & H).
    apply obind_inv in H. destruct H as ([rest1 fb2] & Hrest & H).
    injection H as <- <-. inversion Hall; subst.
    constructor.
    + eapply par_step_completion; eassumption.
    + eapply IH; eassumption.
Qed.

Lemma after_ticks_completion (rail : Z) (n : nat) :
  (0 < rail)%Z ->
  forall (b : bool) (state state' : list pstate),
    after_ticks n rail state = Ok state' ->
    Forall (completion_inv b) state ->
    Forall (completion_inv (b || negb (Nat.eqb n 0))) state'.
Proof.
  intros Hr. induction n as [|n IH]; intros b state state' H Hall.
  - injection H as <-. cbn. now rewrite orb_false_r.
  - cbn [after_ticks] in H.
    apply obind_inv in H. destruct H as ([[state1 fb1] fin] & Htick & H).
    cbn [fst] in H. unfold tick_parallel in Htick.
    apply obind_inv in Htick. destruct Htick as ([state2 fb2] & Hsteps & Htick).
    injection Htick as <- <- <-.
    pose proof (par_steps_completion rail b state Hr _ _ _ Hsteps Hall) as H1.
    pose proof (IH true state2 state' H H1) as H2.
    cbn [orb] in H2. cbn [Nat.eqb negb]. now rewrite orb_true_r.
Qed.

(** *** The constant-pace rule does not read [meters_done] *)

Lemma par_wrap_fuel_meters (rail : Z) (m : Q) (fuel : nat) :
  forall st : pstate,
    par_wrap_fuel fuel rail (set_meters st m) =
    omap (fun s => set_meters s m) (par_wrap_fuel fuel rail st).
Proof.
  induction fuel as [|fuel IH]; intros st;
    destruct st as [ev lps pos need trav met us dn lv];
    cbn [par_wrap_fuel]; proj;
    destruct (Qle_bool (inject_Z rail) pos); try reflexivity.
  destruct us; proj.
  - apply (IH (mkPstate ev lps (pos - inject_Z rail) need trav met true dn lv)).
  - destruct (trav + 1 >=? need)%Z; [reflexivity|].
    apply (IH (mkPstate ev lps (pos - inject_Z rail) need (trav + 1) met false dn lv)).
Qed.

Lemma par_wrap_fuel_mode (rail : Z) (fuel : nat) :
  forall st st' : pstate,
    par_wrap_fuel fuel rail st = Ok st' -> st_use_splits st' = st_use_splits st.
Proof.
  induction fuel as [|fuel IH]; intros st st';
    destruct st as [ev lps pos need trav met us dn lv];
    cbn [par_wrap_fuel]; proj;
    destruct (Qle_bool (inject_Z rail) pos); try discriminate;
    try (intros H; injection H as <-; reflexivity).
  destruct us; proj.
  - intros H. now apply IH in H.
  - destruct (trav + 1 >=? need)%Z.
    + intros H. injection H as <-. reflexivity.
    + intros H. now apply IH in H.
Qed.

(** Whatever [meters_done] a constant-pace sub-event carries, its advance
    yields the same position, count and [done] flag. *)
Lemma par_advance_meters (rail : Z) (st st' : pstate) (m : Q) :
  st_use_splits st = false ->
  par_advance rail st = Ok st' ->
  exists m' : Q, par_advance rail (set_meters st m) = Ok (set_meters st' m').
Proof.
  intros Hus H. unfold par_advance, par_velocity in *. proj.
  rewrite Hus in *. cbn [obind] in *.
  destruct (leds_per_meter (st_ev st)) as [lpm| |]; try discriminate.
  cbn [obind] in *.
  destruct (Py.div (st_leds_per_sec st) lpm) as [q| |]; try discriminate.
  cbn [obind] in *.
  set (s1 := set_pos st (st_pos_f st + st_leds_per_sec st * frame_dt_target)) in *.
  exists (m + q * frame_dt_target).
  change (set_meters (set_pos (set_meters st m)
            (st_pos_f st + st_leds_per_sec st * frame_dt_target))
            (m + q * frame_dt_target))
    with (set_meters (set_meters s1 (st_meters_done st + q * frame_dt_target))
            (m + q * frame_dt_target)).
  unfold par_wrap, par_wrap_bound in *. proj.
  rewrite par_wrap_fuel_meters.
  destruct (par_wrap_fuel _ rail (set_meters s1 _)) as [s2| |] eqn:Hw;
    try discriminate.
  apply par_wrap_fuel_mode in Hw. proj. unfold s1 in Hw. proj.
  rewrite Hus in Hw.
  cbn [obind omap] in *. proj. rewrite Hw in *.
  injection H as <-. reflexivity.
Qed.

(** ** The strip seen from the runners *)

Lemma world_eq (w : world) (t : list io) (a b c d : nat) (r : bool) :
  trace w = t -> n_set w = a -> n_show w = b -> n_clock w = c ->
  n_poll w = d -> running_event w = r ->
  w = mkWorld t a b c d r.
Proof. destruct w. cbn. intros; subst. reflexivity. Qed.

Section Strip.

Variable E : env.

Lemma push_pixels_ok (Hok : writes_ok E) (fb : framebuffer) :
  forall (i : Z) (w : world),
    push_pixels E i fb w =
    (Ok tt,
     mkWorld (trace w ++ frame_trace i fb) (n_set w + List.length fb)
       (n_show w) (n_clock w) (n_poll w) (running_event w)).
Proof.
  induction fb as [|[[r g] b] rest IH]; intros i w.
  - cbn [push_pixels frame_trace List.length]. unfold ret. f_equal.
    apply world_eq; cbn; auto using app_nil_r.
  - cbn [push_pixels]. unfold bind at 1. unfold setPixelColor at 1.
    rewrite Hok. rewrite IH. f_equal. cbn.
    f_equal; [now rewrite <- app_assoc|lia].
Qed.

(** Whatever the strip does, the writes of a frame end normally or with
    the strip's error, and touch nothing but the strip. *)
Lemma push_pixels_any (fb : framebuffer) :
  forall (i : Z) (w : world),
    exists (r : outcome unit) (w' : world) (l : list io),
      push_pixels E i fb w = (r, w') /\
      (r = Ok tt \/ r = Raise StripError) /\
      strip_only w w' l /\
      n_show w' = n_show w /\
      Forall is_write l /\
      ((forall c, In c fb -> c = black) -> Forall blank_call l).
Proof.
  induction fb as [|[[r g] b] rest IH]; intros i w.
  - exists (Ok tt), w, []. cbn. repeat split; auto using app_nil_r.
  - cbn [push_pixels]. unfold bind at 1. unfold setPixelColor at 1.
    destruct (setPixelColor_ok E (n_set w)) eqn:Hok.
    + match goal with |- context [push_pixels E (i + 1) rest ?w1] =>
        destruct (IH (i + 1)%Z w1) as (r1 & w' & l & Hp & Hr & Hs & Hn & Hw & Hb)
      end.
      exists r1, w', (SetPixel i (pack_color r g b COLOR_ORDER) true :: l).
      split; [exact Hp|]. split; [exact Hr|].
      destruct Hs as (S1 & S2 & S3 & S4). cbn in S1, S2, S3, S4, Hn.
      split; [repeat split; try assumption;
              rewrite S1, <- app_assoc; reflexivity|].
      split; [assumption|]. split; [constructor; [exact I|assumption]|].
      intros Hall. constructor.
      * pose proof (Hall (r, g, b) (or_introl eq_refl)) as Hc.
        injection Hc as -> -> ->. reflexivity.
      * apply Hb. intros c Hc. apply Hall. now right.
    + eexists (Raise StripError), _, [SetPixel i (pack_color r g b COLOR_ORDER) false].
      split; [reflexivity|]. split; [now right|].
      split; [repeat split|]. split; [reflexivity|].
      split; [constructor; [exact I|constructor]|].
      intros Hall. constructor; [|constructor].
      pose proof (Hall (r, g, b) (or_introl eq_refl)) as Hc.
      injection Hc as -> -> ->. reflexivity.
Qed.

(** The push of a tick, once its writes have gone through: [show] may
    raise or not, the push returns normally either way, and a failure
    leaves one warning behind. *)
Lemma push_tick_show (fb : framebuffer) (w w1 : world) :
  push_pixels E 0 fb w = (Ok tt, w1) ->
  push_tick E fb w =
  (Ok tt,
   mkWorld
     (trace w1 ++ (if show_ok E (n_show w1) then [Flush true] else [Flush false; Warn]))
     (n_set w1) (S (n_show w1)) (n_clock w1) (n_poll w1) (running_event w1)).
Proof.
  intros Hp. unfold push_tick, bind. rewrite Hp.
  unfold try_except, show, warn, record. cbn.
  destruct (show_ok E (n_show w1)); cbn; [reflexivity|].
  now rewrite <- app_assoc.
Qed.

Lemma push_tick_ok (Hok : writes_ok E) (fb : framebuffer) (w : world) :
  push_tick E fb w =
  (Ok tt,
   mkWorld
     (trace w ++ frame_trace 0 fb ++
        (if show_ok E (n_show w) then [Flush true] else [Flush false; Warn]))
     (n_set w + List.length fb) (S (n_show w)) (n_clock w) (n_poll w)
     (running_event w)).
Proof.
  rewrite (push_tick_show fb w _ (push_pixels_ok Hok fb 0 w)). cbn.
  now rewrite app_assoc.
Qed.

(** A write that raises inside a tick is not handled: the push raises. *)
Lemma push_tick_write_raises (fb : framebuffer) (w w1 : world) (e : exn) :
  push_pixels E 0 fb w = (Raise e, w1) ->
  push_tick E fb w = (Raise e, w1).
Proof. intros Hp. unfold push_tick, bind. now rewrite Hp. Qed.

End Strip.

(** ** Startup: the blank frame and the pre-advance *)

Lemma frame_trace_blank (n : nat) :
  forall i : Z,
    frame_trace i (repeat black n) =
    map (fun k => SetPixel (i + Z.of_nat k) 0 true) (seq 0 n).
Proof.
  induction n as [|n IH]; intros i; [reflexivity|].
  cbn [repeat frame_trace black seq map]. rewrite IH, <- seq_shift, map_map.
  f_equal; [f_equal; lia|]. apply map_ext. intros k. f_equal. lia.
Qed.

Lemma blank_all_black (rail : Z) (c : rgb) : In c (blank rail) -> c = black.
Proof. unfold blank. intros H. now apply repeat_spec in H. Qed.

Section Startup.

Variable E : env.

(** [try: self._push_frame(fb) except Exception: pass] always returns. *)
Lemma push_frame_guarded (fb : framebuffer) (w : world) :
  exists (w' : world) (l : list io),
    try_except (_push_frame E fb) (fun _ => ret tt) w = (Ok tt, w') /\
    strip_only w w' l /\
    ((forall c, In c fb -> c = black) -> Forall blank_call l) /\
    (writes_ok E -> show_ok E (n_show w) = true ->
     l = frame_trace 0 fb ++ [Flush true]).
Proof.
  destruct (push_pixels_any E fb 0 w)
    as (r & w2 & l & Hp & Hr & (S1 & S2 & S3 & S4) & Hn & _ & Hb).
  unfold try_except, _push_frame, bind. rewrite Hp.
  destruct Hr as [-> | ->].
  - unfold show, record. cbn [trace n_set n_show n_clock n_poll running_event].
    exists (mkWorld (trace w2 ++ [Flush (show_ok E (n_show w2))]) (n_set w2)
              (S (n_show w2)) (n_clock w2) (n_poll w2) (running_event w2)),
      (l ++ [Flush (show_ok E (n_show w2))]).
    split; [destruct (show_ok E (n_show w2)); reflexivity|].
    split; [repeat split; cbn; try assumption;
            rewrite S1, <- app_assoc; reflexivity|].
    split.
    + intros Hall. apply Forall_app. split; [now apply Hb|].
      constructor; [exact I|constructor].
    + intros Hok Hshow. rewrite (push_pixels_ok E Hok fb 0 w) in Hp.
      injection Hp as Hw2. rewrite <- Hw2 in *.
      cbn [trace n_set n_show n_clock n_poll running_event] in *.
      apply app_inv_head in S1. rewrite <- S1, Hshow. reflexivity.
  - exists w2, l. split; [reflexivity|]. split; [repeat split; assumption|].
    split; [exact Hb|]. intros Hok _.
    rewrite (push_pixels_ok E Hok fb 0 w) in Hp. discriminate.
Qed.

Lemma measure_startup_spec (rail : Z) (w : world) :
  exists w' : world,
    measure_startup E rail w = (Ok (startup_delay_at E w), w') /\
    blank_frame_pushed E rail w w'.
Proof.
  unfold measure_startup, startup_delay_at, bind, time_monotonic.
  match goal with
  | |- context [try_except ?c ?h ?w1] =>
      destruct (push_frame_guarded (blank rail) w1)
        as (w2 & l & Hp & (S1 & S2 & S3 & S4) & Hb & Hx);
      rewrite Hp
  end.
  cbn [trace n_set n_show n_clock n_poll running_event] in *.
  unfold ret. eexists. split; [rewrite S2; reflexivity|].
  exists l. cbn [trace n_set n_show n_clock n_poll running_event].
  split; [exact S1|]. split; [apply Hb, blank_all_black|].
  split; [reflexivity|]. split; [exact S3|]. split; [exact S4|].
  intros Hok Hshow. rewrite (Hx Hok Hshow).
  unfold blank. now rewrite frame_trace_blank.
Qed.


Lemma first_split_pos (splits : list Q) : 0 < first_split splits.
Proof.
  unfold first_split. destruct splits as [|s ?]; [reflexivity|].
  destruct (Qlt_le_dec 0 s); [assumption|reflexivity].
Qed.



End Startup.


(** ** The parallel runner before its first tick *)

Lemma total_led_traversals_value (ev : PaceEvent) (n : Z) :
  total_led_traversals ev = Ok n ->
  n = Z.max 1 (Qceiling (inject_Z (distance_m ev) / inject_Z (laps_m ev))).
Proof.
  unfold total_led_traversals. intros H.
  apply obind_inv in H. destruct H as (q & Hq & H).
  apply div_inv in Hq. destruct Hq as (-> & _). now injection H as <-.
Qed.

Lemma init_state_spec (rail : Z) (events : list PaceEvent) :
  forall state : list pstate,
    init_state rail events = Ok state ->
    Forall (initial rail) state /\
    map st_ev state = filter positive_velocity events.
Proof.
  induction events as [|ev rest IH]; intros state H.
  - injection H as <-. split; [constructor|reflexivity].
  - cbn [init_state] in H. cbn [filter]. unfold positive_velocity at 1.
    apply obind_inv in H. destruct H as (lpm & Hl & H). rewrite Hl.
    destruct (Qle_bool (pace_mps ev * lpm) 0) eqn:Hv; cbn [negb].
    + now apply IH.
    + apply obind_inv in H. destruct H as (needed & Hn & H).
      apply obind_inv in H. destruct H as (state1 & Hs & H).
      injection H as <-. destruct (IH state1 Hs) as (Hall & Hmap).
      split; [|cbn [map st_ev]; now rewrite Hmap].
      constructor; [|assumption].
      repeat split; proj; try reflexivity.
      * now apply total_led_traversals_value.
      * exists lpm. repeat split; try assumption.
        now apply Qle_bool_false in Hv.
Qed.

Lemma init_state_ok (rail : Z) (events : list PaceEvent) :
  Forall (fun ev => laps_m ev <> 0%Z) events ->
  exists state, init_state rail events = Ok state.
Proof.
  induction 1 as [|ev rest Hl Hrest (state & IH)].
  - now exists [].
  - cbn [init_state]. rewrite (leds_per_meter_value ev Hl). cbn [obind].
    destruct (Qle_bool _ 0); [now exists state|].
    unfold total_led_traversals. rewrite div_ok.
    + cbn [obind]. rewrite IH. cbn [obind]. eexists. reflexivity.
    + intros Hq. apply Hl. unfold Qeq in Hq. simpl in Hq. lia.
Qed.

Lemma initial_lpm (rail : Z) (st : pstate) :
  initial rail st ->
  exists lpm, leds_per_meter (st_ev st) = Ok lpm /\ ~ lpm == 0.
Proof.
  intros (_ & _ & _ & _ & _ & _ & lpm & Hl & Hv & Hpos).
  exists lpm. split; [assumption|]. intros Hz. rewrite Hv, Hz in Hpos. lra.
Qed.

Lemma compensate_spec (delay : Q) (st : pstate) (lpm : Q) :
  leds_per_meter (st_ev st) = Ok lpm -> ~ lpm == 0 ->
  exists st', compensate delay st = Ok st' /\ pre_advanced delay st st'.
Proof.
  intros Hl Hn. unfold compensate.
  assert (Hv : (if negb (st_use_splits st) then Ok (st_leds_per_sec st)
                else
                  obind (Py.div 100 (first_split
                           (match splits_100 (st_ev st) with
                            | Some l => l | None => [] end)))
                    (fun mps => obind (leds_per_meter (st_ev st))
                                  (fun lpm0 => Ok (mps * lpm0)))) =
               Ok (first_velocity st lpm)).
  { unfold first_velocity. destruct (st_use_splits st); cbn [negb]; [|reflexivity].
    pose proof (first_split_pos (match splits_100 (st_ev st) with
                                 | Some l => l | None => [] end)).
    rewrite div_ok by lra. cbn [obind]. rewrite Hl. reflexivity. }
  rewrite Hv. cbn [obind]. proj. rewrite Hl. cbn [obind].
  rewrite (div_ok _ lpm Hn). cbn [obind].
  eexists. split; [reflexivity|]. exists lpm. proj.
  repeat split; try reflexivity. assumption.
Qed.

Lemma compensate_all_spec (rail : Z) (delay : Q) (state : list pstate) :
  Forall (initial rail) state ->
  exists state',
    compensate_all delay state = Ok state' /\
    Forall2 (pre_advanced delay) state state'.
Proof.
  induction 1 as [|st rest Hst Hrest (rest' & IH & IH2)].
  - exists []. split; [reflexivity|constructor].
  - destruct (initial_lpm rail st Hst) as (lpm & Hl & Hn).
    destruct (compensate_spec delay st lpm Hl Hn) as (st' & Hc & Hp).
    exists (st' :: rest'). cbn [compensate_all]. rewrite Hc. cbn [obind].
    rewrite IH. cbn [obind]. split; [reflexivity|]. now constructor.
Qed.

Lemma pre_advanced_zero (rail : Z) (delay : Q) (state : list pstate) :
  delay == 0 -> Forall (initial rail) state ->
  Forall2 (pre_advanced delay) state state.
Proof.
  intros Hd. induction 1 as [|st rest Hst Hrest IH]; constructor; [|assumption].
  destruct (initial_lpm rail st Hst) as (lpm & Hl & Hn).
  exists lpm. split; [assumption|]. rewrite Hd.
  split; [ring|]. split; [ring|]. repeat split.
Qed.

Section StartupParallel.

Variable E : env.

(** The parallel runner pushes the blank frame once and pre-advances each
    sub-event by the measured delay at its own first velocity. *)
Lemma startup_parallel_spec (rail : Z) (state : list pstate) (w : world) :
  Forall (initial rail) state ->
  exists (state' : list pstate) (w' : world),
    startup_parallel E rail state w = (Ok state', w') /\
    blank_frame_pushed E rail w w' /\
    Forall2 (pre_advanced (startup_delay_at E w)) state state'.
Proof.
  intros Hinit. destruct (measure_startup_spec E rail w) as (w' & Hm & Hb).
  unfold startup_parallel, bind. rewrite Hm.
  destruct (Qlt_le_dec 0 (startup_delay_at E w)) as [Hpos|Hle].
  - destruct (compensate_all_spec rail (startup_delay_at E w) state Hinit)
      as (state' & Hc & Hf).
    exists state', w'. unfold lift. rewrite Hc. auto.
  - exists state, w'. split; [reflexivity|]. split; [assumption|].
    apply (pre_advanced_zero rail); [|assumption].
    unfold startup_delay_at in *. pose proof (Q.le_max_l 0
      (monotonic E (S (n_clock w)) - monotonic E (n_clock w))). lra.
Qed.

End StartupParallel.

(** ** The parallel runner: submission *)

Lemma validate_from_ok (strip_leds laps0 : Z) (events : list PaceEvent) :
  validate_from strip_leds laps0 events = Ok tt <->
  Forall (fun ev => rail_leds ev = strip_leds /\ laps_m ev = laps0) events.
Proof.
  induction events as [|ev rest IH]; cbn [validate_from].
  - split; [constructor|reflexivity].
  - destruct (rail_leds ev =? strip_leds)%Z eqn:Hr; cbn [negb].
    2:{ apply Z.eqb_neq in Hr. split; [discriminate|].
        intros H. inversion H; subst. tauto. }
    destruct (laps_m ev =? laps0)%Z eqn:Hl; cbn [negb].
    2:{ apply Z.eqb_neq in Hl. split; [discriminate|].
        intros H. inversion H; subst. tauto. }
    apply Z.eqb_eq in Hr, Hl. rewrite IH. split.
    + intros H. constructor; auto.
    + intros H. now inversion H.
Qed.

Lemma validate_from_result (strip_leds laps0 : Z) (events : list PaceEvent) :
  validate_from strip_leds laps0 events = Ok tt \/
  exists msg, validate_from strip_leds laps0 events = Raise (ValueError msg).
Proof.
  induction events as [|ev rest IH]; cbn [validate_from]; [now left|].
  destruct (negb (rail_leds ev =? strip_leds)%Z); [right; eauto|].
  destruct (negb (laps_m ev =? laps0)%Z); [right; eauto|assumption].
Qed.

(** A pair that disagrees on [rail_leds] or on [laps_m] does not pass. *)
Lemma validate_pair_mismatch (strip_leds : Z) (e1 e2 : PaceEvent) :
  rail_leds e1 <> rail_leds e2 \/ laps_m e1 <> laps_m e2 ->
  exists msg, validate strip_leds [e1; e2] = Raise (ValueError msg).
Proof.
  intros Hdiff. unfold validate.
  destruct (validate_from_result strip_leds (laps_m e1) [e1; e2]) as [Hok|Hbad];
    [|assumption].
  apply validate_from_ok in Hok.
  inversion Hok as [|? ? (H1 & _) Hrest]; subst.
  inversion Hrest as [|? ? (H2 & H3) _]; subst.
  destruct Hdiff; congruence.
Qed.

Lemma validate_sublist (strip_leds : Z) (events : list PaceEvent)
    (keep : PaceEvent -> bool) :
  validate strip_leds events = Ok tt ->
  validate strip_leds (filter keep events) = Ok tt.
Proof.
  unfold validate. destruct events as [|ev0 rest]; [reflexivity|].
  intros H. apply validate_from_ok in H.
  assert (Hf : Forall (fun ev => rail_leds ev = strip_leds /\ laps_m ev = laps_m ev0)
                 (filter keep (ev0 :: rest))).
  { rewrite Forall_forall in *. intros ev Hin. apply filter_In in Hin.
    now apply H. }
  destruct (filter keep (ev0 :: rest)) as [|ev1 rest1] eqn:Hfl; [reflexivity|].
  apply validate_from_ok.
  assert (H1 : laps_m ev1 = laps_m ev0) by (inversion Hf; tauto).
  rewrite H1. exact Hf.
Qed.

Lemma init_state_filter (rail : Z) (events : list PaceEvent) :
  Forall (fun ev => laps_m ev <> 0%Z) events ->
  init_state rail (filter positive_velocity events) = init_state rail events.
Proof.
  induction 1 as [|ev rest Hl Hrest IH]; [reflexivity|].
  cbn [filter init_state]. unfold positive_velocity at 1.
  rewrite (leds_per_meter_value ev Hl). cbn [obind].
  destruct (Qle_bool _ 0) eqn:Hv; cbn [negb]; [exact IH|].
  cbn [init_state]. rewrite (leds_per_meter_value ev Hl). cbn [obind].
  rewrite Hv, IH. reflexivity.
Qed.

(** A non-positive target time makes the pace 0.0 and so excludes the
    event, whatever its splits. *)
Lemma nonpositive_time_excluded (ev : PaceEvent) :
  target_time_s ev <= 0 -> positive_velocity ev = false.
Proof.
  intros Ht. unfold positive_velocity.
  destruct (leds_per_meter ev) as [lpm| |]; try reflexivity.
  unfold pace_mps. destruct (Qlt_le_dec 0 (target_time_s ev)); [lra|].
  apply negb_false_iff, Qle_bool_iff. lra.
Qed.

Lemma positive_velocity_false (ev : PaceEvent) (lpm : Q) :
  leds_per_meter ev = Ok lpm ->
  (positive_velocity ev = false <-> pace_mps ev * lpm <= 0).
Proof.
  intros Hl. unfold positive_velocity. rewrite Hl.
  rewrite negb_false_iff. apply Qle_bool_iff.
Qed.

Section Submission.

Variable E : env.

Lemma truncated_firstn (events : list PaceEvent) :
  truncated events = firstn 2 events.
Proof.
  unfold truncated. destruct (2 <? Z.of_nat (List.length events))%Z eqn:Hlen;
    [reflexivity|].
  apply Z.ltb_ge in Hlen. symmetry. apply firstn_all2. lia.
Qed.

Lemma run_events_parallel_unfold (fuel : nat) (events : list PaceEvent) :
  events <> [] ->
  run_events_parallel E fuel events = run_pair E fuel (firstn 2 events).
Proof.
  intros Hne. destruct events as [|ev rest]; [congruence|].
  unfold run_events_parallel. fold (truncated (ev :: rest)).
  rewrite truncated_firstn. reflexivity.
Qed.

(** Only the first two events of a submission are looked at. *)
Lemma run_events_parallel_truncates (fuel : nat) (events : list PaceEvent) :
  run_events_parallel E fuel events =
  run_events_parallel E fuel (firstn 2 events).
Proof.
  destruct events as [|e1 rest]; [reflexivity|].
  rewrite run_events_parallel_unfold by discriminate.
  rewrite (run_events_parallel_unfold fuel (firstn 2 (e1 :: rest)))
    by discriminate.
  now rewrite firstn_firstn.
Qed.

Lemma run_pair_rejected (fuel : nat) (events : list PaceEvent) (w : world)
    (msg : string) :
  validate (numPixels E) events = Raise (ValueError msg) ->
  run_pair E fuel events w = (Raise (ValueError msg), w).
Proof. intros H. unfold run_pair, bind, lift. now rewrite H. Qed.

Lemma run_pair_filter (fuel : nat) (events : list PaceEvent) :
  validate (numPixels E) events = Ok tt ->
  Forall (fun ev => laps_m ev <> 0%Z) events ->
  run_pair E fuel (filter positive_velocity events) = run_pair E fuel events.
Proof.
  intros Hv Hl. unfold run_pair.
  rewrite (validate_sublist _ _ positive_velocity Hv), Hv.
  now rewrite init_state_filter.
Qed.

End Submission.

(** ** One iteration of the render loops *)

Section Loops.

Variable E : env.

Lemma push_tick_pushed (Hok : writes_ok E) (fb : framebuffer) (w : world) :
  push_tick E fb w = (Ok tt, pushed E fb w).
Proof. apply push_tick_ok, Hok. Qed.

Lemma loop_const_frame (Hok : writes_ok E) (fuel : nat) (ev : PaceEvent)
    (rail : Z) (v lpm : Q) (levels : list rgb) (st st' : rstate)
    (fb : framebuffer) (nt : Q) (w : world) :
  due E nt w ->
  tick_const ev rail v lpm levels st = Ok (st', Some fb) ->
  loop_const E (S fuel) ev rail v lpm levels st nt w =
  loop_const E fuel ev rail v lpm levels st' (nt + frame_dt_target)
    (pushed E fb (polled w)).
Proof.
  intros (Hstop & Hdue) Htick. cbn [loop_const].
  enter_tick Hstop Hdue. rewrite Htick.
  unfold bind at 1. rewrite (push_tick_pushed Hok). reflexivity.
Qed.

Lemma loop_splits_step (Hok : writes_ok E) (fuel : nat) (ev : PaceEvent)
    (rail : Z) (lpm : Q) (splits : list Q) (levels : list rgb)
    (st st' : rstate) (fb : framebuffer) (nt : Q) (w : world) :
  due E nt w ->
  tick_splits ev rail lpm splits levels st = Ok (st', fb) ->
  loop_splits E (S fuel) ev rail lpm splits levels st nt w =
  if Qle_bool (inject_Z (distance_m ev)) (meters_done st')
  then (Ok tt, pushed E fb (polled w))
  else loop_splits E fuel ev rail lpm splits levels st' (nt + frame_dt_target)
         (pushed E fb (polled w)).
Proof.
  intros (Hstop & Hdue) Htick. cbn [loop_splits].
  enter_tick Hstop Hdue. rewrite Htick.
  unfold bind at 1. rewrite (push_tick_pushed Hok).
  destruct (Qle_bool (inject_Z (distance_m ev)) (meters_done st')); reflexivity.
Qed.

Lemma loop_parallel_step (Hok : writes_ok E) (fuel : nat) (rail : Z)
    (state state' : list pstate) (fb : framebuffer) (fin : bool)
    (nt : Q) (w : world) :
  due E nt w ->
  tick_parallel rail state = Ok (state', fb, fin) ->
  loop_parallel E (S fuel) rail state nt w =
  if fin then (Ok tt, pushed E fb (polled w))
  else loop_parallel E fuel rail state' (nt + frame_dt_target)
         (pushed E fb (polled w)).
Proof.
  intros (Hstop & Hdue) Htick. cbn [loop_parallel].
  enter_tick Hstop Hdue. rewrite Htick.
  unfold bind at 1. rewrite (push_tick_pushed Hok).
  destruct fin; reflexivity.
Qed.

Lemma tick_parallel_finished (rail : Z) (state state' : list pstate)
    (fb : framebuffer) (fin : bool) :
  tick_parallel rail state = Ok (state', fb, fin) ->
  (fin = true <-> Forall (fun st => st_done st = true) state).
Proof.
  unfold tick_parallel. intros H.
  apply obind_inv in H. destruct H as ([s f] & _ & H). injection H as _ _ <-.
  unfold all_done. rewrite forallb_forall, Forall_forall. reflexivity.
Qed.

End Loops.

(** ** A steady environment

    A strip whose writes go through, no cancellation, and a clock that
    advances by at least one frame interval between two readings, so that a
    frame is due at every iteration. *)

Lemma bind_ok {A B : Type} (c : IO A) (k : A -> IO B) (w w' : world) (a : A) :
  c w = (Ok a, w') -> bind c k w = k a w'.
Proof. intros H. unfold bind. now rewrite H. Qed.

(** [strip.clear()] makes the calls of pushing a blank frame. *)
Lemma clear_as_push (E : env) (m : nat) :
  forall i : Z,
    clear_pixels E (map (fun k => (i + Z.of_nat k)%Z) (seq 0 m)) =
    push_pixels E i (repeat black m).
Proof.
  induction m as [|m IH]; intros i; [reflexivity|].
  cbn [seq map repeat]. unfold black at 1. cbn [clear_pixels push_pixels].
  replace (i + Z.of_nat 0)%Z with i by lia.
  change (pack_color 0 0 0 COLOR_ORDER) with 0%Z.
  rewrite <- seq_shift, map_map.
  rewrite (map_ext _ (fun k => (i + 1 + Z.of_nat k)%Z)) by (intros; lia).
  now rewrite IH.
Qed.

Lemma strip_clear_as_push (E : env) :
  strip_clear E = _push_frame E (blank (numPixels E)).
Proof.
  unfold strip_clear, _push_frame, Py.range, blank.
  now rewrite <- (clear_as_push E (Z.to_nat (numPixels E)) 0).
Qed.

(** The cleanup always returns, with the running flag cleared and nothing
    but blank calls made. *)
Lemma cleanup_returns (E : env) (w : world) :
  exists (w' : world) (l : list io),
    cleanup E w = (Ok tt, w') /\
    running_event w' = false /\
    trace w' = trace w ++ l /\
    Forall blank_call l.
Proof.
  unfold cleanup. rewrite strip_clear_as_push.
  destruct (push_frame_guarded E (blank (numPixels E)) w)
    as (w1 & l & Hp & (S1 & _) & Hb & _).
  rewrite (bind_ok _ _ _ _ _ Hp). unfold running_event_put.
  eexists. exists l. split; [reflexivity|]. cbn.
  split; [reflexivity|]. split; [exact S1|]. apply Hb, blank_all_black.
Qed.

Lemma initial_completion_inv (rail : Z) (st : pstate) :
  initial rail st -> completion_inv false st.
Proof.
  intros (_ & _ & Ht & Hd & Hwf & _). split; [assumption|].
  split; [|intros _; assumption].
  intros _. unfold traversal_rule. destruct Hwf as (Hn & _).
  rewrite Hd, Ht, Hn. split; [discriminate|lia].
Qed.

Lemma pre_advanced_completion_inv (delay : Q) (st st' : pstate) :
  pre_advanced delay st st' -> completion_inv false st -> completion_inv false st'.
Proof.
  intros (lpm & _ & _ & _ & Hev & _ & Hn & Ht & Hu & Hd & _) ((W1 & W2) & Hc & Hs).
  unfold completion_inv, well_formed, traversal_rule.
  rewrite Hev, Hn, Ht, Hu, Hd. repeat split; try assumption; now apply Hc.
Qed.

Lemma started_completion_inv (rail : Z) (delay : Q) (state0 state1 : list pstate) :
  Forall (initial rail) state0 ->
  Forall2 (pre_advanced delay) state0 state1 ->
  Forall (completion_inv false) state1.
Proof.
  intros Hinit Hpre. induction Hpre as [|st st' r r' Hp Hrest IH]; [constructor|].
  inversion Hinit; subst. constructor; [|now apply IH].
  eapply pre_advanced_completion_inv; [eassumption|].
  eapply initial_completion_inv; eassumption.
Qed.

(** ** C3: wrap normalization *)

Lemma tick_const_inv (ev : PaceEvent) (rail : Z) (v lpm : Q) (levels : list rgb)
    (st st' : rstate) (r : option framebuffer) :
  tick_const ev rail v lpm levels st = Ok (st', r) ->
  ~ lpm == 0 /\
  wrap (pos_f st + v * frame_dt_target) rail = Ok (pos_f st') /\
  meters_done st' = meters_done st + v / lpm * frame_dt_target /\
  (r = None <-> inject_Z (distance_m ev) <= meters_done st') /\
  (forall fb, r = Some fb ->
     draw_trail put_col (trail_len ev) (Py.int (pos_f st')) 0 levels (blank rail)
       = Ok fb).
Proof.
  unfold tick_const. intros H.
  apply obind_inv in H. destruct H as (q & Hq & H).
  apply div_inv in Hq. destruct Hq as (-> & Hl).
  apply obind_inv in H. destruct H as (p & Hw & H).
  split; [exact Hl|].
  destruct (Qle_bool _ _) eqn:Hb.
  - injection H as <- <-. cbn [pos_f meters_done].
    apply Qle_bool_iff in Hb. repeat split; auto; discriminate.
  - apply obind_inv in H. destruct H as (fb & Hd & H).
    injection H as <- <-. cbn [pos_f meters_done].
    apply Qle_bool_false in Hb. repeat split; auto.
    + discriminate.
    + intros Hle. lra.
    + intros fb0 Hfb. now injection Hfb as <-.
Qed.

Lemma tick_splits_inv (ev : PaceEvent) (rail : Z) (lpm : Q) (splits : list Q)
    (levels : list rgb) (st st' : rstate) (fb : framebuffer) :
  tick_splits ev rail lpm splits levels st = Ok (st', fb) ->
  exists (v h : Q),
    split_velocity splits lpm (meters_done st) = Ok v /\
    ~ lpm == 0 /\
    pos_f st' = pos_f st + v * frame_dt_target /\
    meters_done st' = meters_done st + v / lpm * frame_dt_target /\
    Py.fmod (pos_f st') rail = Ok h /\
    draw_trail put_col (trail_len ev) (Py.int h) 0 levels (blank rail) = Ok fb.
Proof.
  unfold tick_splits. intros H.
  apply obind_inv in H. destruct H as (v & Hv & H).
  apply obind_inv in H. destruct H as (q & Hq & H).
  apply div_inv in Hq. destruct Hq as (-> & Hl).
  apply obind_inv in H. destruct H as (h & Hh & H).
  apply obind_inv in H. destruct H as (fb0 & Hd & H).
  injection H as <- <-. exists v, h. cbn [pos_f meters_done]. auto 10.
Qed.

(** C3, as stated, fails twice.  The single-event split-pace runner never
    reduces [pos_f]: from 199.99 on a 200-LED rail one tick leaves it above
    200 (only the head index is taken modulo the rail).  And in the parallel
    runner a split-pace sub-event wraps, from the same position back under
    1, while its traversal count stays 0. *)
Lemma position_and_count_not_uniform :
  (exists st' fb,
     tick_splits ev_splits_800 200 (1 # 2) splits_800
       (precompute_trail ev_splits_800) st_lap_end = Ok (st', fb) /\
     200 <= pos_f st') /\
  (exists st',
     par_advance 200 pst_lap_end = Ok st' /\
     st_pos_f st' < 1 /\
     st_traversals_done st' = st_traversals_done pst_lap_end).
Proof.
  split.
  - eexists. eexists. split; [vm_compute; reflexivity|]. vm_compute. discriminate.
  - eexists. split; [vm_compute; reflexivity|]. split; [|reflexivity].
    vm_compute. reflexivity.
Qed.

Lemma tick_const_position (rail : Z) (Hrail : (0 < rail)%Z)
    ev v lpm levels st st' r :
  tick_const ev rail v lpm levels st = Ok (st', r) ->
  0 <= pos_f st + v * frame_dt_target ->
  0 <= pos_f st' /\ pos_f st' < inject_Z rail /\
  exists k : nat,
    pos_f st' ==
    pos_f st + v * frame_dt_target - inject_Z (Z.of_nat k) * inject_Z rail.
Proof.
  intros Htick Hnn.
  destruct (tick_const_inv _ _ _ _ _ _ _ _ Htick) as (_ & Hw & _).
  destruct (wrap_spec (pos_f st + v * frame_dt_target) rail Hrail)
    as (p & k & Hw' & Hp & Hlt & Hge).
  rewrite Hw in Hw'. injection Hw' as <-.
  split; [now apply Hge|]. split; [assumption|]. now exists k.
Qed.

Lemma tick_splits_position (rail : Z) (Hrail : (0 < rail)%Z)
    ev lpm splits levels st st' fb :
  tick_splits ev rail lpm splits levels st = Ok (st', fb) ->
  exists v h : Q,
    split_velocity splits lpm (meters_done st) = Ok v /\
    pos_f st' = pos_f st + v * frame_dt_target /\
    Py.fmod (pos_f st') rail = Ok h /\
    0 <= h /\ h < inject_Z rail /\
    (0 <= Py.int h < rail)%Z.
Proof.
  intros Htick.
  destruct (tick_splits_inv _ _ _ _ _ _ _ _ Htick)
    as (v & h & Hv & _ & Hp & _ & Hh & _).
  destruct (fmod_spec (pos_f st') rail Hrail) as (h' & Hh' & _ & H0 & H1).
  rewrite Hh in Hh'. injection Hh' as <-.
  exists v, h. repeat (split; [assumption|]).
  split; [now apply int_sign|now apply int_lt].
Qed.

Lemma par_advance_position (rail : Z) (Hrail : (0 < rail)%Z) (st st' : pstate) :
  par_advance rail st = Ok st' ->
  exists (v : Q) (k : nat),
    par_velocity st = Ok v /\
    st_pos_f st' ==
      st_pos_f st + v * frame_dt_target - inject_Z (Z.of_nat k) * inject_Z rail /\
    (0 <= st_pos_f st + v * frame_dt_target -> 0 <= st_pos_f st') /\
    (st_use_splits st = false ->
       st_traversals_done st' = (st_traversals_done st + Z.of_nat k)%Z) /\
    (st_use_splits st = true ->
       st_traversals_done st' = st_traversals_done st) /\
    (st_use_splits st = true \/ st_done st' = false ->
       st_pos_f st' < inject_Z rail).
Proof.
  intros Ha.
  destruct (par_advance_inv rail st st' Hrail Ha)
    as (v & lpm & st1 & k & Hv & _ & _ & _ & Hw & ->).
  destruct Hw as ((_ & _ & _ & _ & Hus1 & _) & Hp & Hnn & Hs & Hc).
  destruct (completed_fields st1) as (_ & _ & _ & E4 & _ & E6 & _).
  unfold advanced in *; proj.
  exists v, k. split; [assumption|]. rewrite E4, E6.
  split; [assumption|]. split; [assumption|].
  split; [intros Hus; now apply Hc|].
  split; [intros Hus; now apply Hs|].
  intros [Hus|Hd]; [now apply Hs|].
  destruct (st_use_splits st) eqn:Hus; [now apply Hs|].
  unfold completed in Hd. rewrite Hus1 in Hd.
  destruct (Hc eq_refl) as (_ & [(Hd1 & _)|(_ & Hlt & _)]);
    [congruence|assumption].
Qed.

(** C3 (amended).  On a rail of at least one LED: a tick of the constant-pace
    single-event runner leaves [pos_f] in [0, rail_leds), reduced by a whole
    number of rail lengths (no count is kept there); a tick of the split-pace
    single-event runner advances [pos_f] without reducing it and takes the
    head at [pos_f % rail_leds], which lies in [0, rail_leds); an advance of
    a sub-event of the parallel runner reduces [st_pos_f] by [k] rail
    lengths, adds exactly [k] to the traversal count of a constant-pace
    sub-event and nothing to that of a split-pace one, and leaves the
    position in [0, rail_leds) whenever the sub-event is split-paced or
    still not done (a constant-pace sub-event leaves the loop the moment its
    count is reached). *)
Theorem wrap_normalization (rail : Z) (Hrail : (0 < rail)%Z) :
  (forall ev v lpm levels st st' r,
     tick_const ev rail v lpm levels st = Ok (st', r) ->
     0 <= pos_f st + v * frame_dt_target ->
     0 <= pos_f st' /\ pos_f st' < inject_Z rail /\
     exists k : nat,
       pos_f st' ==
       pos_f st + v * frame_dt_target - inject_Z (Z.of_nat k) * inject_Z rail) /\
  (forall ev lpm splits levels st st' fb,
     tick_splits ev rail lpm splits levels st = Ok (st', fb) ->
     exists v h : Q,
       split_velocity splits lpm (meters_done st) = Ok v /\
       pos_f st' = pos_f st + v * frame_dt_target /\
       Py.fmod (pos_f st') rail = Ok h /\
       0 <= h /\ h < inject_Z rail /\
       (0 <= Py.int h < rail)%Z) /\
  (forall st st',
     par_advance rail st = Ok st' ->
     exists (v : Q) (k : nat),
       par_velocity st = Ok v /\
       st_pos_f st' ==
         st_pos_f st + v * frame_dt_target - inject_Z (Z.of_nat k) * inject_Z rail /\
       (0 <= st_pos_f st + v * frame_dt_target -> 0 <= st_pos_f st') /\
       (st_use_splits st = false ->
          st_traversals_done st' = (st_traversals_done st + Z.of_nat k)%Z) /\
       (st_use_splits st = true ->
          st_traversals_done st' = st_traversals_done st) /\
       (st_use_splits st = true \/ st_done st' = false ->
          st_pos_f st' < inject_Z rail)).
Proof.
  split; [|split].
  - intros ev v lpm levels st st' r. now apply tick_const_position.
  - intros ev lpm splits levels st st' fb. now apply tick_splits_position.
  - intros st st'. now apply par_advance_position.
Qed.

Lemma wrap_normalization_witness :
  (0 < 200)%Z /\
  forall ev v lpm levels st st' r,
    tick_const ev 200 v lpm levels st = Ok (st', r) ->
    0 <= pos_f st + v * frame_dt_target ->
    0 <= pos_f st' /\ pos_f st' < inject_Z 200 /\
    exists k : nat,
      pos_f st' ==
      pos_f st + v * frame_dt_target - inject_Z (Z.of_nat k) * inject_Z 200.
Proof.
  split; [reflexivity|].
  apply (wrap_normalization 200). reflexivity.
Defined.

(** ** C6: the trail renderer *)

Lemma par_step_levels (rail : Z) (st st' : pstate) (fb fb' : framebuffer) :
  (0 < rail)%Z ->
  par_step rail st fb = Ok (st', fb') ->
  st_trail_levels st' = st_trail_levels st /\ st_ev st' = st_ev st.
Proof.
  intros Hr H.
  destruct (par_step_inv _ _ _ _ _ H) as [(_ & -> & _)|(_ & Ha & _)]; [auto|].
  destruct (par_advance_inv rail st st' Hr Ha)
    as (v & lpm & st1 & k & _ & _ & _ & _ & Hw & ->).
  destruct Hw as ((Hev & _ & _ & _ & _ & Hlv) & _).
  destruct (completed_fields st1) as (E1 & _ & _ & _ & _ & _ & E7).
  unfold advanced in *; proj. split; congruence.
Qed.






(** ** C2: completion of a single-event run *)

(** C2.  The split-pace runner makes its completion test after the frame
    has been drawn and pushed, where the two other loops make it before
    drawing.  On the tick that takes [meters_done] from 799.99 to at least
    800 the loop of [run_event_with_splits] writes the 200 pixels and
    flushes before it returns; the constant-pace loop, on the tick that
    takes it from 799.99 to at least 800, returns without a single call to
    the strip, and the parallel runner marks the same split-pace sub-event
    done and draws nothing for it. *)
Theorem split_runner_tests_after_push :
  (exists st' fb w',
     tick_splits ev_splits_800 200 (1 # 2) splits_800
       (precompute_trail ev_splits_800) st_finish = Ok (st', fb) /\
     800 <= meters_done st' /\
     loop_splits env_steady 1 ev_splits_800 200 (1 # 2) splits_800
       (precompute_trail ev_splits_800) st_finish 0 world0 = (Ok tt, w') /\
     trace w' = frame_trace 0 fb ++ [Flush true] /\
     List.length (trace w') = 201%nat) /\
  (exists st' w',
     tick_const ev_const_800 200 (pace_mps ev_const_800 * (1 # 2)) (1 # 2)
       (precompute_trail ev_const_800) st_finish_const = Ok (st', None) /\
     800 <= meters_done st' /\
     loop_const env_steady 1 ev_const_800 200 (pace_mps ev_const_800 * (1 # 2))
       (1 # 2) (precompute_trail ev_const_800) st_finish_const 0 world0 =
       (Ok tt, w') /\
     trace w' = []) /\
  (exists st',
     par_step 200 pst_finish (blank 200) = Ok (st', blank 200) /\
     800 <= st_meters_done st' /\
     st_done st' = true).
Proof.
  split; [|split].
  - eexists. eexists. eexists.
    split; [vm_compute; reflexivity|].
    split; [vm_compute; discriminate|].
    split; [vm_compute; reflexivity|].
    split; vm_compute; reflexivity.
  - eexists. eexists.
    split; [vm_compute; reflexivity|].
    split; [vm_compute; discriminate|].
    split; vm_compute; reflexivity.
  - eexists.
    split; [vm_compute; reflexivity|].
    split; [vm_compute; discriminate|reflexivity].
Qed.

Lemma env_steady_is_steady : steady env_steady.
Proof.
  split; [intros n; reflexivity|]. split; [intros n; reflexivity|].
  intros n. cbn [env_steady monotonic]. rewrite Nat2Z.inj_succ. unfold Z.succ.
  rewrite inject_Z_plus. change (inject_Z 1) with 1.
  assert (frame_dt_target <= 1) by (vm_compute; discriminate). lra.
Qed.

(** ** C9: failures of the strip during a run *)

Lemma write_failure_any_fuel (fuel : nat) :
  exists w',
    run_event env_write_fails (S fuel) ev_default world0 =
      (Raise StripError, w') /\
    last (trace w') Warn = SetPixel 0 6684672 false /\
    List.length (trace w') = 202%nat /\
    running_event w' = true.
Proof.
  eexists. split; [|split; [|split]].
  - unfold run_event. change (splits_100 ev_default) with (@None (list Q)).
    unfold run_event_const.
    unfold bind at 1. unfold lift at 1.
    change (leds_per_meter ev_default) with (Ok (inject_Z 200 / inject_Z 400)).
    cbv beta iota zeta.
    match goal with
    | |- (if ?c then _ else _) _ = _ =>
        replace c with false by (vm_compute; reflexivity)
    end.
    unfold bind at 1. unfold running_event_put at 1.
    unfold bind at 1.
    match goal with
    | |- context [startup_const ?e ?ev ?r ?v ?l ?w] =>
        let x := eval vm_compute in (startup_const e ev r v l w) in
        change (startup_const e ev r v l w) with x
    end.
    cbv beta iota.
    unfold bind at 1. unfold time_monotonic at 1.
    cbv beta iota. cbn [n_clock trace n_set n_show n_poll running_event].
    unfold bind at 1. cbn [loop_const].
    unfold bind at 1. unfold stop_event_is_set at 1.
    cbn [n_clock trace n_set n_show n_poll running_event env_write_fails stop_is_set].
    cbv beta iota.
    unfold bind at 1. unfold time_monotonic at 1.
    cbn [n_clock trace n_set n_show n_poll running_event env_write_fails monotonic].
    cbv beta iota.
    match goal with
    | |- context [Qle_bool ?a ?b] =>
        replace (Qle_bool a b) with true by (vm_compute; reflexivity)
    end.
    cbn [negb]. unfold bind at 1. unfold lift at 1.
    match goal with
    | |- context [tick_const ?ev ?r ?v ?l ?lv ?st] =>
        let x := eval vm_compute in (tick_const ev r v l lv st) in
        change (tick_const ev r v l lv st) with x
    end.
    cbv beta iota.
    unfold bind at 1.
    match goal with
    | |- context [push_tick ?e ?fb ?w] =>
        let x := eval vm_compute in (push_tick e fb w) in
        change (push_tick e fb w) with x
    end.
    cbv beta iota. reflexivity.
  - vm_compute. reflexivity.
  - vm_compute. reflexivity.
  - reflexivity.
Qed.

(** C9, as stated, fails for pixel writes: only [show] sits under the
    handler.  When a [setPixelColor] of a tick raises (here the first write
    of the first tick, pixel 0), the run ends with that error; the rail is
    not cleared and the running flag stays set. *)
Lemma write_failure_aborts_run :
  exists w',
    run_event env_write_fails 1000 ev_default world0 = (Raise StripError, w') /\
    last (trace w') Warn = SetPixel 0 6684672 false /\
    List.length (trace w') = 202%nat /\
    running_event w' = true.
Proof. exact (write_failure_any_fuel 999). Qed.

(** C9 (amended).  While the pixel writes of a tick go through, a [show]
    that raises is caught and logged: the push of the tick returns normally,
    leaving the failed flush and one warning in the trace, and each of the
    three loops goes on to its next iteration with the state and the
    schedule that the tick computed, which do not depend on the strip. *)
Theorem show_failure_tolerated (E : env) (Hok : writes_ok E) :
  (forall (fb : framebuffer) (w : world),
     push_tick E fb w = (Ok tt, pushed E fb w) /\
     (show_ok E (n_show w) = false ->
      trace (pushed E fb w) = trace w ++ frame_trace 0 fb ++ [Flush false; Warn])) /\
  (forall fuel ev rail v lpm levels st st' fb nt w,
     due E nt w ->
     tick_const ev rail v lpm levels st = Ok (st', Some fb) ->
     loop_const E (S fuel) ev rail v lpm levels st nt w =
     loop_const E fuel ev rail v lpm levels st' (nt + frame_dt_target)
       (pushed E fb (polled w))) /\
  (forall fuel ev rail lpm splits levels st st' fb nt w,
     due E nt w ->
     tick_splits ev rail lpm splits levels st = Ok (st', fb) ->
     inject_Z (distance_m ev) > meters_done st' ->
     loop_splits E (S fuel) ev rail lpm splits levels st nt w =
     loop_splits E fuel ev rail lpm splits levels st' (nt + frame_dt_target)
       (pushed E fb (polled w))) /\
  (forall fuel rail state state' fb nt w,
     due E nt w ->
     tick_parallel rail state = Ok (state', fb, false) ->
     loop_parallel E (S fuel) rail state nt w =
     loop_parallel E fuel rail state' (nt + frame_dt_target)
       (pushed E fb (polled w))).
Proof.
  split; [|split; [|split]].
  - intros fb w. split; [now apply push_tick_pushed|].
    intros Hs. unfold pushed. cbn [trace]. now rewrite Hs.
  - intros. now apply loop_const_frame.
  - intros fuel ev rail lpm splits levels st st' fb nt w Hdue Htick Hm.
    rewrite (loop_splits_step E Hok fuel ev rail lpm splits levels st st' fb nt w
               Hdue Htick).
    apply Qle_bool_false in Hm. now rewrite Hm.
  - intros fuel rail state state' fb nt w Hdue Htick.
    now rewrite (loop_parallel_step E Hok fuel rail state state' fb false nt w
                   Hdue Htick).
Qed.

Lemma show_failure_tolerated_witness :
  writes_ok env_show_fails /\
  forall (fb : framebuffer) (w : world),
    push_tick env_show_fails fb w = (Ok tt, pushed env_show_fails fb w) /\
    (show_ok env_show_fails (n_show w) = false ->
     trace (pushed env_show_fails fb w) =
     trace w ++ frame_trace 0 fb ++ [Flush false; Warn]).
Proof.
  assert (H : writes_ok env_show_fails) by (intros n; reflexivity).
  split; [exact H|].
  apply (show_failure_tolerated env_show_fails H).
Defined.

(** ** C4: start offset and startup compensation *)



(** ** C8: validation of a parallel submission *)

(** C8.  A parallel submission is cut down to its first two events, and a
    pair that differs in [rail_leds] or in [laps_m] is rejected with a
    [ValueError] while the world is still untouched: no pixel has been
    written, nothing flushed, no tick taken. *)
Theorem parallel_submission_checked (E : env) (fuel : nat) (e1 e2 : PaceEvent)
    (rest : list PaceEvent) (w : world)
    (Hdiff : rail_leds e1 <> rail_leds e2 \/ laps_m e1 <> laps_m e2) :
  (forall events : list PaceEvent,
     run_events_parallel E fuel events =
     run_events_parallel E fuel (firstn 2 events)) /\
  exists msg : string,
    run_events_parallel E fuel (e1 :: e2 :: rest) w = (Raise (ValueError msg), w).
Proof.
  split; [apply run_events_parallel_truncates|].
  destruct (validate_pair_mismatch (numPixels E) e1 e2 Hdiff) as (msg & Hv).
  exists msg. rewrite run_events_parallel_unfold by discriminate.
  cbn [firstn]. now apply run_pair_rejected.
Qed.

Lemma parallel_submission_checked_witness :
  exists msg : string,
    run_events_parallel env_steady 10 [ev_lap_400; ev_lap_300] world0 =
    (Raise (ValueError msg), world0).
Proof.
  apply (parallel_submission_checked env_steady 10 ev_lap_400 ev_lap_300 [] world0).
  right. vm_compute. discriminate.
Defined.

(** ** C10: sub-events without a positive velocity *)

(** C10.  Take a parallel submission of at most two events that passes the
    validation and whose lap lengths are not 0.  The sub-events built are
    exactly the events whose constant-pace velocity
    [pace_mps * leds_per_meter] is strictly positive, in order; the splits
    are not consulted, so an event with a non-positive target time is left
    out even with splits.  The run is the run of the remaining events, and
    when none remains it returns at once with the world untouched: no frame
    pushed, running flag not set. *)
Theorem nonpositive_velocity_excluded (E : env) (fuel : nat)
    (events : list PaceEvent) (w : world)
    (Hlen : (List.length events <= 2)%nat)
    (Hval : validate (numPixels E) events = Ok tt)
    (Hlaps : Forall (fun ev => laps_m ev <> 0%Z) events) :
  (exists state : list pstate,
     init_state (numPixels E) events = Ok state /\
     map st_ev state = filter positive_velocity events) /\
  (forall ev : PaceEvent,
     In ev events ->
     (positive_velocity ev = false <->
      pace_mps ev * (inject_Z (rail_leds ev) / inject_Z (laps_m ev)) <= 0)) /\
  (forall ev : PaceEvent, target_time_s ev <= 0 -> positive_velocity ev = false) /\
  run_events_parallel E fuel events w =
    run_events_parallel E fuel (filter positive_velocity events) w /\
  (filter positive_velocity events = [] ->
   run_events_parallel E fuel events w = (Ok tt, w)).
Proof.
  destruct (init_state_ok (numPixels E) events Hlaps) as (state & Hinit).
  destruct (init_state_spec _ _ _ Hinit) as (_ & Hmap).
  split; [exists state; auto|].
  split.
  { intros ev Hin. apply positive_velocity_false.
    rewrite Forall_forall in Hlaps. now apply leds_per_meter_value, Hlaps. }
  split; [apply nonpositive_time_excluded|].
  assert (Hcut : forall l : list PaceEvent,
            (List.length l <= 2)%nat -> firstn 2 l = l)
    by (intros l Hl; now apply firstn_all2).
  assert (Hflen : (List.length (filter positive_velocity events) <= 2)%nat).
  { pose proof (filter_length_le positive_velocity events). lia. }
  assert (Hrun : run_events_parallel E fuel events w =
                 run_pair E fuel (filter positive_velocity events) w).
  { destruct events as [|e0 rest] eqn:Hev.
    - reflexivity.
    - rewrite run_events_parallel_unfold by discriminate.
      rewrite Hcut by assumption. now rewrite run_pair_filter. }
  split.
  - rewrite Hrun.
    destruct (filter positive_velocity events) as [|f0 frest] eqn:Hf.
    + reflexivity.
    + rewrite run_events_parallel_unfold by discriminate.
      now rewrite Hcut.
  - intros Hnone. rewrite Hrun, Hnone. reflexivity.
Qed.

Lemma nonpositive_velocity_excluded_witness :
  run_events_parallel env_steady 10 [ev_splits_no_time] world0 = (Ok tt, world0).
Proof.
  apply (nonpositive_velocity_excluded env_steady 10 [ev_splits_no_time] world0).
  - simpl; lia.
  - vm_compute; reflexivity.
  - repeat constructor; vm_compute; discriminate.
  - vm_compute; reflexivity.
Defined.

(** ** C1: completion in the parallel runner *)

Lemma par_steps_events (rail : Z) (Hr : (0 < rail)%Z) (state : list pstate) :
  forall (fb : framebuffer) (state' : list pstate) (fb' : framebuffer),
    par_steps rail state fb = Ok (state', fb') ->
    map st_ev state' = map st_ev state.
Proof.
  induction state as [|st rest IH]; intros fb state' fb' H.
  - injection H as <- <-. reflexivity.
  - cbn [par_steps] in H.
    apply obind_inv in H. destruct H as ([st1 fb1] & Hstep & H).
    apply obind_inv in H. destruct H as ([rest1 fb2] & Hrest & H).
    injection H as <- <-. cbn [map].
    destruct (par_step_levels rail st st1 fb fb1 Hr Hstep) as (_ & ->).
    now rewrite (IH _ _ _ Hrest).
Qed.

Lemma after_ticks_events (rail : Z) (Hr : (0 < rail)%Z) (n : nat) :
  forall state state' : list pstate,
    after_ticks n rail state = Ok state' ->
    map st_ev state' = map st_ev state.
Proof.
  induction n as [|n IH]; intros state state' H.
  - now injection H as <-.
  - cbn [after_ticks] in H.
    apply obind_inv in H. destruct H as ([[state1 fb1] fin] & Htick & H).
    cbn [fst] in H. unfold tick_parallel in Htick.
    apply obind_inv in Htick. destruct Htick as ([state2 fb2] & Hsteps & Htick).
    injection Htick as <- <- <-.
    rewrite (IH _ _ H). exact (par_steps_events rail Hr _ _ _ _ Hsteps).
Qed.

Lemma pre_advanced_events (delay : Q) (state0 state1 : list pstate) :
  Forall2 (pre_advanced delay) state0 state1 ->
  map st_ev state1 = map st_ev state0.
Proof.
  induction 1 as [|st st' r r' Hp _ IH]; [reflexivity|].
  destruct Hp as (lpm & _ & _ & _ & Hev & _).
  cbn [map]. now rewrite Hev, IH.
Qed.

(** C1.  Take any parallel run on a rail of at least one LED: the sub-events
    built from the submitted events, pre-advanced at startup, then advanced
    by any number [n] of ticks that returned.  They are the submitted
    events of positive velocity, in order.  For every sub-event whose
    distance is below [2^53] and whose lap length is positive the need is
    what [total_led_traversals] returns in binary64,
    [max(1, ceil(distance_m / laps_m))]; the need is at least 1 and a
    sub-event is split-paced exactly when its event has splits.  A
    constant-pace sub-event is done exactly when its traversal count has
    reached the need, and its advance yields the same flag, count and
    position whatever [meters_done] holds; a split-pace sub-event is,
    after any tick, done exactly when [meters_done] has reached
    [distance_m].  A tick reports the run finished exactly when every
    sub-event was done, and the loop then returns after that push, and
    goes on otherwise. *)
Theorem parallel_completion (E : env) (events : list PaceEvent)
    (state0 state1 state : list pstate) (w w' : world) (n : nat)
    (Hrail : (0 < numPixels E)%Z)
    (Hinit : init_state (numPixels E) events = Ok state0)
    (Hstart : startup_parallel E (numPixels E) state0 w = (Ok state1, w'))
    (Hrun : after_ticks n (numPixels E) state1 = Ok state) :
  map st_ev state = filter positive_velocity events /\
  Forall
    (fun st =>
       ((0 <= distance_m (st_ev st) < 2 ^ 53)%Z -> (0 < laps_m (st_ev st))%Z ->
        B64.total_led_traversals (st_ev st) = Ok (st_traversals_needed st)) /\
       (1 <= st_traversals_needed st)%Z /\
       st_use_splits st = has_splits (st_ev st) /\
       (st_use_splits st = false ->
          (st_done st = true <->
           (st_traversals_needed st <= st_traversals_done st)%Z)) /\
       (st_use_splits st = true -> (1 <= n)%nat ->
          (st_done st = true <->
           inject_Z (distance_m (st_ev st)) <= st_meters_done st)))
    state /\
  (forall (st st' : pstate) (m : Q),
     st_use_splits st = false ->
     par_advance (numPixels E) st = Ok st' ->
     exists m', par_advance (numPixels E) (set_meters st m) = Ok (set_meters st' m')) /\
  (forall (state' : list pstate) (fb : framebuffer) (fin : bool),
     tick_parallel (numPixels E) state = Ok (state', fb, fin) ->
     (fin = true <-> Forall (fun st => st_done st = true) state) /\
     forall (fuel : nat) (nt : Q) (w1 : world),
       writes_ok E -> due E nt w1 ->
       loop_parallel E (S fuel) (numPixels E) state nt w1 =
       if fin then (Ok tt, pushed E fb (polled w1))
       else loop_parallel E fuel (numPixels E) state' (nt + frame_dt_target)
              (pushed E fb (polled w1))).
Proof.
  destruct (init_state_spec _ _ _ Hinit) as (Hini & Hmap).
  destruct (startup_parallel_spec E (numPixels E) state0 w Hini)
    as (s1 & w1 & Hs & _ & Hpre).
  rewrite Hstart in Hs. injection Hs as <- <-.
  pose proof (started_completion_inv _ _ _ _ Hini Hpre) as Hinv.
  pose proof (after_ticks_completion _ n Hrail false _ _ Hrun Hinv) as Hfin.
  split.
  { rewrite (after_ticks_events _ Hrail n _ _ Hrun).
    rewrite (pre_advanced_events _ _ _ Hpre). exact Hmap. }
  split.
  { eapply Forall_impl; [|exact Hfin].
    intros st ((Hn & Hm) & Hc & Hs).
    split.
    { intros Hd Hl. rewrite Hn. now apply traversals64_exact. }
    split; [rewrite Hn; lia|]. split; [exact Hm|]. split; [exact Hc|].
    intros Hus Hpos. specialize (Hs Hus).
    destruct n; [lia|]. exact Hs. }
  split; [intros st st' m; apply par_advance_meters|].
  intros state' fb fin Htick. split.
  - eapply tick_parallel_finished; eassumption.
  - intros fuel nt w2 Hok Hdue. now apply loop_parallel_step.
Qed.

Lemma parallel_completion_witness :
  map st_ev wit_state2 = [ev_sprint; ev_splits_800] /\
  map st_traversals_needed wit_state2 = [1; 2]%Z /\
  map st_traversals_done wit_state2 = [1; 0]%Z /\
  map st_done wit_state2 = [true; false] /\
  Forall
    (fun st =>
       ((0 <= distance_m (st_ev st) < 2 ^ 53)%Z -> (0 < laps_m (st_ev st))%Z ->
        B64.total_led_traversals (st_ev st) = Ok (st_traversals_needed st)) /\
       (1 <= st_traversals_needed st)%Z /\
       st_use_splits st = has_splits (st_ev st) /\
       (st_use_splits st = false ->
          (st_done st = true <->
           (st_traversals_needed st <= st_traversals_done st)%Z)) /\
       (st_use_splits st = true -> (1 <= 1)%nat ->
          (st_done st = true <->
           inject_Z (distance_m (st_ev st)) <= st_meters_done st)))
    wit_state2.
Proof.
  assert (H := parallel_completion env_steady wit_events wit_state0 wit_state1
                 wit_state2 world0 wit_world1 1
                 ltac:(reflexivity) ltac:(vm_compute; reflexivity)
                 ltac:(vm_compute; reflexivity) ltac:(vm_compute; reflexivity)).
  destruct H as (Hev & Hall & _).
  split; [exact Hev|].
  split; [reflexivity|]. split; [reflexivity|]. split; [reflexivity|].
  exact Hall.
Defined.

(** * Further properties of the code

    Properties of the colour helpers, the event model, the strip calls, the
    render loops, the worker thread and the GUI's event list that the
    code shows beyond the specification's claims. *)

(** ** Colour helpers *)

Lemma clamp_byte_max_min (x : Z) : clamp_byte x = Z.max 0 (Z.min 255 x).
Proof.
  unfold clamp_byte.
  destruct (Z.ltb_spec x 0); [lia|].
  destruct (x >? 255)%Z eqn:H1; [apply Z.gtb_lt in H1; lia|].
  rewrite Z.gtb_ltb in H1. apply Z.ltb_ge in H1. lia.
Qed.

Lemma clamp_byte_range (x : Z) : (0 <= clamp_byte x <= 255)%Z.
Proof. rewrite clamp_byte_max_min. lia. Qed.

Lemma clamp_byte_id (x : Z) : (0 <= x <= 255)%Z -> clamp_byte x = x.
Proof. intros H. rewrite clamp_byte_max_min. lia. Qed.

Lemma lor_shiftl_low (hi lo n : Z) :
  (0 <= n)%Z -> (0 <= lo < 2 ^ n)%Z ->
  Z.lor (Z.shiftl hi n) lo = (hi * 2 ^ n + lo)%Z.
Proof.
  intros Hn Hlo.
  assert (Hland : Z.land (Z.shiftl hi n) lo = 0%Z).
  { apply Z.bits_inj'. intros i Hi.
    rewrite Z.land_spec, Z.bits_0.
    destruct (Z.lt_ge_cases i n) as [Hlt|Hge].
    - rewrite Z.shiftl_spec_low by assumption. reflexivity.
    - rewrite <- (Z.mod_small lo (2 ^ n)) by assumption.
      rewrite Z.mod_pow2_bits_high by lia.
      apply andb_false_r. }
  pose proof (Z.add_lor_land (Z.shiftl hi n) lo) as Hadd.
  rewrite Hland, Z.add_0_r in Hadd.
  rewrite Hadd, Z.shiftl_mul_pow2 by assumption. reflexivity.
Qed.

Lemma word_value (a b c : Z) :
  (0 <= b <= 255)%Z -> (0 <= c <= 255)%Z ->
  Z.lor (Z.lor (Z.shiftl a 16) (Z.shiftl b 8)) c = (a * 65536 + b * 256 + c)%Z.
Proof.
  intros Hb Hc.
  assert (H8 : Z.shiftl b 8 = (b * 256)%Z) by (rewrite Z.shiftl_mul_pow2 by lia; reflexivity).
  rewrite H8.
  rewrite (lor_shiftl_low a (b * 256) 16) by (change (2 ^ 16)%Z with 65536%Z; lia).
  change (2 ^ 16)%Z with 65536%Z.
  replace (a * 65536 + b * 256)%Z with (Z.shiftl (a * 256 + b) 8)
    by (rewrite Z.shiftl_mul_pow2 by lia; change (2 ^ 8)%Z with 256%Z; lia).
  rewrite (lor_shiftl_low (a * 256 + b) c 8) by (change (2 ^ 8)%Z with 256%Z; lia).
  rewrite Z.shiftl_mul_pow2 by lia.
  change (2 ^ 8)%Z with 256%Z. lia.
Qed.

Lemma word_bytes (a b c : Z) :
  (0 <= a <= 255)%Z -> (0 <= b <= 255)%Z -> (0 <= c <= 255)%Z ->
  let p := Z.lor (Z.lor (Z.shiftl a 16) (Z.shiftl b 8)) c in
  (0 <= p < 16777216)%Z /\
  Z.land (Z.shiftr p 16) 255 = a /\
  Z.land (Z.shiftr p 8) 255 = b /\
  Z.land p 255 = c.
Proof.
  intros Ha Hb Hc p. subst p. rewrite word_value by assumption.
  change 255%Z with (Z.ones 8).
  rewrite !Z.land_ones by lia.
  rewrite !Z.shiftr_div_pow2 by lia.
  change (2 ^ 16)%Z with 65536%Z. change (2 ^ 8)%Z with 256%Z.
  repeat split; try lia.
  - symmetry. apply Z.mod_unique_pos with (q := 0%Z); [lia|].
    assert ((a * 65536 + b * 256 + c) / 65536 = a)%Z
      by (symmetry; apply Z.div_unique_pos with (r := (b * 256 + c)%Z); lia).
    lia.
  - symmetry. apply Z.mod_unique_pos with (q := a); [lia|].
    assert ((a * 65536 + b * 256 + c) / 256 = a * 256 + b)%Z
      by (symmetry; apply Z.div_unique_pos with (r := c); lia).
    lia.
  - symmetry. apply Z.mod_unique_pos with (q := (a * 256 + b)%Z); lia.
Qed.

Lemma pack_color_clamped (r g b : Z) (order : color_order) :
  pack_color r g b order =
  pack_color (clamp_byte r) (clamp_byte g) (clamp_byte b) order.
Proof.
  unfold pack_color. rewrite !clamp_byte_max_min.
  replace (Z.max 0 (Z.min 255 (Z.max 0 (Z.min 255 r)))) with (Z.max 0 (Z.min 255 r)) by lia.
  replace (Z.max 0 (Z.min 255 (Z.max 0 (Z.min 255 g)))) with (Z.max 0 (Z.min 255 g)) by lia.
  replace (Z.max 0 (Z.min 255 (Z.max 0 (Z.min 255 b)))) with (Z.max 0 (Z.min 255 b)) by lia.
  reflexivity.
Qed.

Lemma unpack_pack (r g b : Z) (order : color_order) :
  (0 <= pack_color r g b order < 16777216)%Z /\
  unpack_color order (pack_color r g b order) =
  (clamp_byte r, clamp_byte g, clamp_byte b).
Proof.
  rewrite !clamp_byte_max_min.
  assert (Hr : (0 <= Z.max 0 (Z.min 255 r) <= 255)%Z) by lia.
  assert (Hg : (0 <= Z.max 0 (Z.min 255 g) <= 255)%Z) by lia.
  assert (Hb : (0 <= Z.max 0 (Z.min 255 b) <= 255)%Z) by lia.
  unfold unpack_color, pack_color.
  set (r' := Z.max 0 (Z.min 255 r)) in *.
  set (g' := Z.max 0 (Z.min 255 g)) in *.
  set (b' := Z.max 0 (Z.min 255 b)) in *.
  destruct order.
  - destruct (word_bytes r' g' b' Hr Hg Hb) as (H0 & H1 & H2 & H3).
    split; [exact H0|]. rewrite H1, H2, H3. reflexivity.
  - destruct (word_bytes g' r' b' Hg Hr Hb) as (H0 & H1 & H2 & H3).
    split; [exact H0|]. rewrite H1, H2, H3. reflexivity.
  - destruct (word_bytes b' r' g' Hb Hr Hg) as (H0 & H1 & H2 & H3).
    split; [exact H0|]. rewrite H1, H2, H3. reflexivity.
  - destruct (word_bytes r' g' b' Hr Hg Hb) as (H0 & H1 & H2 & H3).
    split; [exact H0|]. rewrite H1, H2, H3. reflexivity.
Qed.

(** X1.  [pack_color] always yields a 24-bit word, for any integers and any
    colour order, and reading the three bytes of that word back in the same
    order gives the channels saturated to 0..255: packing loses nothing but
    what the clamp removes. *)
Theorem pack_color_round_trip (r g b : Z) (order : color_order) :
  (0 <= pack_color r g b order < 2 ^ 24)%Z /\
  unpack_color order (pack_color r g b order) =
  (clamp_byte r, clamp_byte g, clamp_byte b) /\
  ((0 <= r <= 255 /\ 0 <= g <= 255 /\ 0 <= b <= 255)%Z ->
   unpack_color order (pack_color r g b order) = (r, g, b)).
Proof.
  destruct (unpack_pack r g b order) as [Hrange Hback].
  change (2 ^ 24)%Z with 16777216%Z.
  split; [exact Hrange|]. split; [exact Hback|].
  intros (Hr & Hg & Hb). rewrite Hback.
  rewrite !clamp_byte_id by assumption. reflexivity.
Qed.

(** X2.  Channels outside 0..255 pack as their clamps, and on byte-valued
    colours [pack_color] is injective for every colour order: two colours
    that the strip receives as the same word are the same colour. *)
Theorem pack_color_injective (c1 c2 : rgb) (order : color_order)
    (H1 : byte_valued c1) (H2 : byte_valued c2) :
  let '(r1, g1, b1) := c1 in
  let '(r2, g2, b2) := c2 in
  (forall r g b : Z,
     pack_color r g b order =
     pack_color (clamp_byte r) (clamp_byte g) (clamp_byte b) order) /\
  (pack_color r1 g1 b1 order = pack_color r2 g2 b2 order -> c1 = c2).
Proof.
  destruct c1 as [[r1 g1] b1], c2 as [[r2 g2] b2].
  split; [intros; apply pack_color_clamped|].
  intros Heq.
  destruct H1 as (Hr1 & Hg1 & Hb1), H2 as (Hr2 & Hg2 & Hb2).
  destruct (unpack_pack r1 g1 b1 order) as [_ U1].
  destruct (unpack_pack r2 g2 b2 order) as [_ U2].
  rewrite Heq, U2 in U1.
  rewrite !clamp_byte_id in U1 by assumption.
  symmetry. exact U1.
Qed.

Lemma pack_color_injective_witness :
  let '(r1, g1, b1) := (0, 255, 0)%Z in
  let '(r2, g2, b2) := (0, 255, 0)%Z in
  (forall r g b : Z,
     pack_color r g b GRB =
     pack_color (clamp_byte r) (clamp_byte g) (clamp_byte b) GRB) /\
  (pack_color r1 g1 b1 GRB = pack_color r2 g2 b2 GRB ->
   (0, 255, 0)%Z = (0, 255, 0)%Z).
Proof.
  apply (pack_color_injective (0, 255, 0)%Z (0, 255, 0)%Z GRB); cbn; lia.
Defined.

(** X3.  [clamp_byte] is the saturation [max(0, min(255, x))] that
    [pack_color] applies inline: its result lies in 0..255, it leaves
    byte values alone, applying it twice changes nothing, and it is
    monotone. *)
Theorem clamp_byte_saturates (x y : Z) :
  clamp_byte x = Z.max 0 (Z.min 255 x) /\
  (0 <= clamp_byte x <= 255)%Z /\
  ((0 <= x <= 255)%Z -> clamp_byte x = x) /\
  ((x < 0)%Z -> clamp_byte x = 0%Z) /\
  ((255 < x)%Z -> clamp_byte x = 255%Z) /\
  clamp_byte (clamp_byte x) = clamp_byte x /\
  ((x <= y)%Z -> (clamp_byte x <= clamp_byte y)%Z).
Proof.
  rewrite !clamp_byte_max_min. repeat split; intros; lia.
Qed.

(** X4.  [blend_additive] is a saturating channel-wise sum: its channels lie
    in 0..255 whatever the inputs, it is commutative, black is neutral on
    byte-valued colours, and for colours with non-negative channels each
    channel is [min(255, sum)] and blending is associative, so the colour of
    a pixel shared by several trails does not depend on the drawing
    order. *)
Theorem blend_additive_saturating_sum (c1 c2 c3 : rgb) :
  byte_valued (blend_additive c1 c2) /\
  blend_additive c1 c2 = blend_additive c2 c1 /\
  (byte_valued c1 -> blend_additive black c1 = c1 /\ blend_additive c1 black = c1) /\
  (let '(r1, g1, b1) := c1 in
   let '(r2, g2, b2) := c2 in
   let '(r3, g3, b3) := c3 in
   (0 <= r1 /\ 0 <= g1 /\ 0 <= b1)%Z ->
   (0 <= r2 /\ 0 <= g2 /\ 0 <= b2)%Z ->
   (0 <= r3 /\ 0 <= g3 /\ 0 <= b3)%Z ->
   blend_additive c1 c2 =
     (Z.min 255 (r1 + r2), Z.min 255 (g1 + g2), Z.min 255 (b1 + b2)) /\
   blend_additive (blend_additive c1 c2) c3 =
     blend_additive c1 (blend_additive c2 c3)).
Proof.
  destruct c1 as [[r1 g1] b1], c2 as [[r2 g2] b2], c3 as [[r3 g3] b3].
  unfold blend_additive, byte_valued, black.
  repeat split.
  1-6: try apply clamp_byte_range.
  - f_equal; [f_equal|]; f_equal; lia.
  - destruct H as (Hr & Hg & Hb).
    rewrite !Z.add_0_l, !clamp_byte_id by assumption. reflexivity.
  - destruct H as (Hr & Hg & Hb).
    rewrite !Z.add_0_r, !clamp_byte_id by assumption. reflexivity.
  - rewrite !clamp_byte_max_min. f_equal; [f_equal|]; lia.
  - rewrite !clamp_byte_max_min. f_equal; [f_equal|]; lia.
Qed.

(** ** The event model *)

Lemma int_of_integer (x : Q) (z : Z) : x == inject_Z z -> Py.int x = z.
Proof.
  intros H. unfold Py.int. unfold Qeq in H. cbn in H.
  rewrite Z.mul_1_r in H. rewrite H.
  apply Z.quot_mul. discriminate.
Qed.

Lemma div_le_iff (d l n : Z) :
  (0 < l)%Z -> (inject_Z d / inject_Z l <= inject_Z n <-> (d <= n * l)%Z).
Proof.
  intros Hl.
  assert (HlQ : 0 < inject_Z l) by (apply inject_Z_pos; exact Hl).
  rewrite Zle_Qle, inject_Z_mult.
  split; intros H.
  - apply (Qmult_le_r _ _ (inject_Z l)) in H; [|exact HlQ].
    assert (Heq : inject_Z d / inject_Z l * inject_Z l == inject_Z d)
      by (field; lra).
    rewrite Heq in H. exact H.
  - apply Qle_shift_div_r; assumption.
Qed.

(** X5.  [total_led_traversals] raises [ZeroDivisionError] for a lap
    length of zero.  For a positive lap length and a distance from 0 to
    below [2^53] it returns, in binary64, the least whole number of laps,
    at least one, that covers the distance.  The bound matters: for
    [2^53 + 1] metres on a lap of [2^53] metres the quotient rounds to 1.0
    and the method returns 1, one lap short. *)
Theorem total_led_traversals_least (ev : PaceEvent) :
  (laps_m ev = 0%Z -> B64.total_led_traversals ev = Raise ZeroDivisionError) /\
  ((0 < laps_m ev)%Z -> (0 <= distance_m ev < 2 ^ 53)%Z ->
   exists n : Z,
     B64.total_led_traversals ev = Ok n /\
     (1 <= n)%Z /\
     (distance_m ev <= n * laps_m ev)%Z /\
     (forall m : Z, (1 <= m)%Z -> (distance_m ev <= m * laps_m ev)%Z -> (n <= m)%Z) /\
     ((distance_m ev <= laps_m ev)%Z -> n = 1%Z)) /\
  (B64.total_led_traversals ev_beyond_53_bits = Ok 1%Z /\
   (1 * laps_m ev_beyond_53_bits < distance_m ev_beyond_53_bits)%Z).
Proof.
  split; [|split].
  - intros Hz. unfold B64.total_led_traversals, B64.int_truediv.
    rewrite Hz. reflexivity.
  - intros Hl Hd.
    set (q := inject_Z (distance_m ev) / inject_Z (laps_m ev)).
    assert (Hcover : forall n : Z, (Qceiling q <= n)%Z ->
              (distance_m ev <= n * laps_m ev)%Z).
    { intros n Hn. apply (div_le_iff _ _ _ Hl). fold q.
      apply Qle_trans with (inject_Z (Qceiling q)); [apply Qle_ceiling|].
      rewrite <- Zle_Qle. exact Hn. }
    assert (Hleast : forall m : Z, (distance_m ev <= m * laps_m ev)%Z ->
              (Qceiling q <= m)%Z).
    { intros m Hm. apply (div_le_iff _ _ _ Hl) in Hm. fold q in Hm.
      rewrite <- (Qceiling_Z m). apply Qceiling_resp_le. exact Hm. }
    exists (Z.max 1 (Qceiling q)).
    split; [now apply traversals64_exact|].
    split; [lia|]. split; [apply Hcover; lia|]. split.
    + intros m Hm1 Hm. specialize (Hleast m Hm). lia.
    + intros Hle. assert (Qceiling q <= 1)%Z by (apply Hleast; lia). lia.
  - split; [vm_compute; reflexivity|vm_compute; reflexivity].
Qed.

Lemma total_led_traversals_least_witness :
  (0 < laps_m ev_default)%Z /\ (0 <= distance_m ev_default < 2 ^ 53)%Z /\
  exists n : Z,
    B64.total_led_traversals ev_default = Ok n /\
    (1 <= n)%Z /\
    (distance_m ev_default <= n * laps_m ev_default)%Z /\
    (forall m : Z, (1 <= m)%Z -> (distance_m ev_default <= m * laps_m ev_default)%Z ->
       (n <= m)%Z) /\
    ((distance_m ev_default <= laps_m ev_default)%Z -> n = 1%Z).
Proof.
  assert (Hl : (0 < laps_m ev_default)%Z) by reflexivity.
  assert (Hd : (0 <= distance_m ev_default < 2 ^ 53)%Z)
    by (split; [discriminate|reflexivity]).
  split; [exact Hl|]. split; [exact Hd|].
  exact (proj1 (proj2 (total_led_traversals_least ev_default)) Hl Hd).
Defined.

Lemma trail_factor_le_one (n t : Z) : (0 <= t)%Z -> trail_factor n t <= 1.
Proof.
  intros Ht. unfold trail_factor.
  apply Q.max_lub; [lra|].
  assert (0 < inject_Z (Z.max 1 n)) by (apply inject_Z_pos; lia).
  assert (0 <= inject_Z t) by (change 0 with (inject_Z 0); rewrite <- Zle_Qle; exact Ht).
  assert (0 <= inject_Z t / inject_Z (Z.max 1 n)).
  { apply Qle_shift_div_l; [assumption|lra]. }
  lra.
Qed.

Lemma scale_channel_bounds (c : Z) (f : Q) :
  (0 <= c)%Z -> 0 <= f -> f <= 1 -> (0 <= scale_channel c f <= c)%Z.
Proof.
  intros Hc Hf0 Hf1.
  assert (HcQ : 0 <= inject_Z c)
    by (change 0 with (inject_Z 0); rewrite <- Zle_Qle; exact Hc).
  rewrite scale_channel_floor by assumption.
  split.
  - change 0%Z with (Qfloor 0). apply Qfloor_resp_le. nra.
  - rewrite <- (Qfloor_Z c) at 2. apply Qfloor_resp_le. nra.
Qed.

Lemma scale_channel_full (c : Z) (f : Q) : f == 1 -> scale_channel c f = c.
Proof.
  intros Hf. unfold scale_channel. apply int_of_integer. rewrite Hf. lra.
Qed.

Lemma nth_last {A : Type} (l : list A) (d : A) :
  nth (List.length l - 1) l d = last l d.
Proof.
  induction l as [|x [|y l] IH]; try reflexivity.
  cbn [List.length last] in *.
  replace (S (S (List.length l)) - 1)%nat with (S (S (List.length l) - 1)) by lia.
  exact IH.
Qed.

Lemma range_down_in (n t : Z) : In t (Py.range_down n) -> (0 <= t <= n)%Z.
Proof.
  unfold Py.range_down. rewrite in_map_iff.
  intros (k & <- & Hk). apply in_seq in Hk. lia.
Qed.

Lemma range_down_negative (n : Z) : (n < 0)%Z -> Py.range_down n = [].
Proof.
  intros Hn. unfold Py.range_down.
  replace (Z.to_nat (n + 1)) with 0%nat by lia. reflexivity.
Qed.

Lemma trail_levels_bounded (ev : PaceEvent) :
  nonneg_colour (color ev) ->
  Forall
    (fun level =>
       let '(r, g, b) := color ev in
       let '(r', g', b') := level in
       (0 <= r' <= r /\ 0 <= g' <= g /\ 0 <= b' <= b)%Z)
    (precompute_trail ev).
Proof.
  intros Hc. unfold precompute_trail.
  destruct (color ev) as [[r g] b]. destruct Hc as (Hr & Hg & Hb).
  apply Forall_forall. intros level Hin.
  apply in_map_iff in Hin. destruct Hin as (t & <- & Ht).
  apply range_down_in in Ht.
  pose proof (trail_factor_ge (trail_len ev) t) as Hlo.
  assert (Hhi : trail_factor (trail_len ev) t <= 1)
    by (apply trail_factor_le_one; lia).
  assert (H0 : 0 <= trail_factor (trail_len ev) t) by lra.
  pose proof (scale_channel_bounds r _ Hr H0 Hhi).
  pose proof (scale_channel_bounds g _ Hg H0 Hhi).
  pose proof (scale_channel_bounds b _ Hb H0 Hhi).
  lia.
Qed.

(** X6.  The levels of [precompute_trail] end with the event's own colour,
    unscaled, so the head pixel of a trail always shows [ev.color]; for a
    byte-valued colour every level is byte-valued and no brighter than the
    colour, channel by channel; a negative [trail_len] gives no level at
    all, so such an event never lights a pixel. *)
Theorem trail_head_full_colour (ev : PaceEvent) :
  ((trail_len ev < 0)%Z -> precompute_trail ev = []) /\
  ((0 <= trail_len ev)%Z ->
   nth (Z.to_nat (trail_len ev)) (precompute_trail ev) black = color ev /\
   last (precompute_trail ev) black = color ev) /\
  (byte_valued (color ev) ->
   Forall
     (fun level =>
        byte_valued level /\
        let '(r, g, b) := color ev in
        let '(r', g', b') := level in
        (r' <= r /\ g' <= g /\ b' <= b)%Z)
     (precompute_trail ev)).
Proof.
  split; [|split].
  - intros Hn. unfold precompute_trail.
    destruct (color ev) as [[r g] b].
    rewrite range_down_negative by exact Hn. reflexivity.
  - intros Hn.
    assert (Hnth : nth (Z.to_nat (trail_len ev)) (precompute_trail ev) black = color ev).
    { rewrite precompute_trail_nth by lia.
      destruct (color ev) as [[r g] b]. cbv zeta.
      assert (Hf : level_factor (trail_len ev) (Z.to_nat (trail_len ev)) == 1)
        by (apply level_factor_last; exact Hn).
      rewrite !scale_channel_full by exact Hf. reflexivity. }
    split; [exact Hnth|].
    rewrite <- Hnth.
    pose proof (precompute_trail_length ev Hn) as Hlen.
    rewrite <- nth_last. f_equal. lia.
  - intros Hc.
    assert (Hn : nonneg_colour (color ev)).
    { unfold byte_valued, nonneg_colour in *.
      destruct (color ev) as [[r g] b]. lia. }
    pose proof (trail_levels_bounded ev Hn) as Hb.
    eapply Forall_impl; [|exact Hb].
    intros [[r' g'] b']. unfold byte_valued in *.
    destruct (color ev) as [[r g] b]. lia.
Qed.

(** X7.  The start LED is always a valid index of the rail: for a rail of
    at least one LED it lies in [0, rail_leds), a configured start inside
    the rail is kept, one outside (negative included) is reduced modulo the
    rail with the sign of the rail, and it is 0 when no start is configured
    or the rail is empty. *)
Theorem start_position_on_rail (ev : PaceEvent) (rail : Z) :
  ((0 < rail)%Z -> (0 <= start_position ev rail < rail)%Z) /\
  ((rail <= 0)%Z \/ start_led ev = None -> start_position ev rail = 0%Z) /\
  (forall s : Z,
     start_led ev = Some s -> (0 < rail)%Z ->
     start_position ev rail = (s mod rail)%Z /\
     (exists k : Z, start_position ev rail = (s - k * rail)%Z) /\
     ((0 <= s < rail)%Z -> start_position ev rail = s)).
Proof.
  unfold start_position.
  split; [|split].
  - intros Hr. destruct (start_led ev) as [s|]; [|lia].
    destruct (Z.gtb_spec rail 0); [|lia].
    apply Z.mod_pos_bound. exact Hr.
  - intros [Hr|Hs].
    + destruct (start_led ev) as [s|]; [|reflexivity].
      destruct (Z.gtb_spec rail 0); [lia|reflexivity].
    + rewrite Hs. reflexivity.
  - intros s Hs Hr. rewrite Hs.
    destruct (Z.gtb_spec rail 0); [|lia].
    split; [reflexivity|]. split.
    + exists (s / rail)%Z. rewrite Z.mod_eq by lia. lia.
    + intros Hin. apply Z.mod_small. exact Hin.
Qed.

(** ** Frames on the strip *)

Lemma push_pixels_return (E : env) (fb : framebuffer) :
  forall (i : Z) (w : world),
    writes_return E w (List.length fb) ->
    push_pixels E i fb w =
    (Ok tt,
     mkWorld (trace w ++ frame_trace i fb) (n_set w + List.length fb)
       (n_show w) (n_clock w) (n_poll w) (running_event w)).
Proof.
  induction fb as [|[[r g] b] rest IH]; intros i w Hok.
  - cbn [push_pixels frame_trace List.length]. unfold ret. f_equal.
    apply world_eq; cbn; auto using app_nil_r.
  - cbn [push_pixels]. unfold bind at 1. unfold setPixelColor at 1.
    pose proof (Hok 0%nat) as H0. rewrite Nat.add_0_r in H0.
    rewrite H0 by (cbn; lia).
    rewrite IH.
    + f_equal. cbn. f_equal; [now rewrite <- app_assoc|lia].
    + intros k Hk. unfold record. cbn [n_set].
      replace (S (n_set w) + k)%nat with (n_set w + S k)%nat by lia.
      apply Hok. cbn. lia.
Qed.

Lemma push_pixels_fails (E : env) (fb : framebuffer) :
  forall (j : nat) (i : Z) (w : world),
    (j < List.length fb)%nat ->
    writes_return E w j ->
    setPixelColor_ok E (n_set w + j) = false ->
    push_pixels E i fb w =
    (Raise StripError,
     mkWorld
       (trace w ++ firstn j (frame_trace i fb) ++
          [frame_entry (i + Z.of_nat j) (nth j fb black) false])
       (n_set w + S j) (n_show w) (n_clock w) (n_poll w) (running_event w)).
Proof.
  induction fb as [|[[r g] b] rest IH]; intros j i w Hj Hok Hbad.
  - cbn in Hj. lia.
  - cbn [push_pixels]. unfold bind at 1. unfold setPixelColor at 1.
    destruct j as [|j].
    + rewrite Nat.add_0_r in Hbad. rewrite Hbad.
      f_equal. cbn. rewrite Z.add_0_r. f_equal. lia.
    + pose proof (Hok 0%nat) as H0. rewrite Nat.add_0_r in H0.
      rewrite H0 by lia.
      rewrite (IH j).
      * f_equal. cbn [trace n_set n_show n_clock n_poll running_event record
                      frame_trace firstn nth].
        f_equal; [|lia].
        rewrite <- !app_assoc. cbn [app].
        replace (i + 1 + Z.of_nat j)%Z with (i + Z.of_nat (S j))%Z by lia.
        reflexivity.
      * cbn in Hj. lia.
      * intros k Hk. unfold record. cbn [n_set].
        replace (S (n_set w) + k)%nat with (n_set w + S k)%nat by lia.
        apply Hok. lia.
      * unfold record. cbn [n_set].
        replace (S (n_set w) + j)%nat with (n_set w + S j)%nat by lia.
        exact Hbad.
Qed.

(** X8.  [_push_frame] writes the pixels in index order, each with the
    packed colour of its framebuffer entry, and calls [show] once after the
    last write; its result is that of [show].  If a write raises, the frame
    stops there: the later pixels are not written, [show] is not called,
    and the strip's error is the result. *)
Theorem push_frame_stops_at_failed_write (E : env) (fb : framebuffer) (w : world) :
  (writes_return E w (List.length fb) ->
   _push_frame E fb w =
   ((if show_ok E (n_show w) then Ok tt else Raise StripError),
    mkWorld (trace w ++ frame_trace 0 fb ++ [Flush (show_ok E (n_show w))])
      (n_set w + List.length fb) (S (n_show w)) (n_clock w) (n_poll w)
      (running_event w))) /\
  (forall j : nat,
     (j < List.length fb)%nat ->
     writes_return E w j ->
     setPixelColor_ok E (n_set w + j) = false ->
     _push_frame E fb w =
     (Raise StripError,
      mkWorld
        (trace w ++ firstn j (frame_trace 0 fb) ++
           [frame_entry (Z.of_nat j) (nth j fb black) false])
        (n_set w + S j) (n_show w) (n_clock w) (n_poll w) (running_event w))).
Proof.
  split.
  - intros Hok. unfold _push_frame, bind.
    rewrite (push_pixels_return E fb 0 w Hok).
    unfold show, record. cbn [trace n_set n_show n_clock n_poll running_event].
    rewrite <- app_assoc. reflexivity.
  - intros j Hj Hok Hbad. unfold _push_frame, bind.
    rewrite (push_pixels_fails E fb j 0 w Hj Hok Hbad). reflexivity.
Qed.

Lemma blank_length_nat (rail : Z) : List.length (blank rail) = Z.to_nat rail.
Proof. unfold blank. apply repeat_length. Qed.

(** X9.  [BaseStrip.clear] is the push of an all-black frame of the strip's
    size: it writes colour 0 to every pixel from 0 to [numPixels() - 1], in
    order, then calls [show] once; on a strip that reports no pixels it
    only calls [show].  It reads no clock, polls no flag and leaves
    [running_event] alone. *)
Theorem clear_blanks_every_pixel (E : env) (w : world) :
  strip_clear E w = _push_frame E (blank (numPixels E)) w /\
  (writes_return E w (Z.to_nat (numPixels E)) ->
   strip_clear E w =
   ((if show_ok E (n_show w) then Ok tt else Raise StripError),
    mkWorld
      (trace w ++
         map (fun k => SetPixel (Z.of_nat k) 0 true) (seq 0 (Z.to_nat (numPixels E))) ++
         [Flush (show_ok E (n_show w))])
      (n_set w + Z.to_nat (numPixels E)) (S (n_show w)) (n_clock w) (n_poll w)
      (running_event w))) /\
  ((numPixels E <= 0)%Z ->
   strip_clear E w =
   ((if show_ok E (n_show w) then Ok tt else Raise StripError),
    mkWorld (trace w ++ [Flush (show_ok E (n_show w))])
      (n_set w) (S (n_show w)) (n_clock w) (n_poll w) (running_event w))).
Proof.
  rewrite strip_clear_as_push.
  assert (Hfull : writes_return E w (Z.to_nat (numPixels E)) ->
    _push_frame E (blank (numPixels E)) w =
    ((if show_ok E (n_show w) then Ok tt else Raise StripError),
     mkWorld
       (trace w ++
          map (fun k => SetPixel (Z.of_nat k) 0 true) (seq 0 (Z.to_nat (numPixels E))) ++
          [Flush (show_ok E (n_show w))])
       (n_set w + Z.to_nat (numPixels E)) (S (n_show w)) (n_clock w) (n_poll w)
       (running_event w))).
  { intros Hok. unfold _push_frame, bind.
    rewrite (push_pixels_return E (blank (numPixels E)) 0 w)
      by (rewrite blank_length_nat; exact Hok).
    unfold show, record. cbn [trace n_set n_show n_clock n_poll running_event].
    rewrite blank_length_nat. unfold blank. rewrite frame_trace_blank.
    rewrite <- app_assoc. reflexivity. }
  split; [reflexivity|]. split; [exact Hfull|].
  intros Hn. rewrite Hfull.
  - replace (Z.to_nat (numPixels E)) with 0%nat by lia.
    cbn [seq map app]. rewrite Nat.add_0_r. reflexivity.
  - intros k Hk. lia.
Qed.

(** ** The shape shared by the three render loops *)

Lemma loop_const_shape (E : env) (ev : PaceEvent) (rail : Z) (v lpm : Q)
    (levels : list rgb) (fuel : nat) :
  forall (st : rstate) (nt : Q) (w : world),
    loop_const E fuel ev rail v lpm levels st nt w =
    render_loop E (const_tick ev rail v lpm levels) fuel st nt w.
Proof.
  induction fuel as [|fuel IH]; intros st nt w; [reflexivity|].
  cbn [loop_const render_loop]. loop_head.
  - apply IH.
  - unfold const_tick.
    destruct (tick_const ev rail v lpm levels st) as [[st' [fb|]]| |];
      cbn [omap fst snd]; try reflexivity.
    destruct (push_tick E fb _) as [[[]| |] w3]; try reflexivity.
    apply IH.
Qed.

Lemma loop_splits_shape (E : env) (ev : PaceEvent) (rail : Z) (lpm : Q)
    (splits : list Q) (levels : list rgb) (fuel : nat) :
  forall (st : rstate) (nt : Q) (w : world),
    loop_splits E fuel ev rail lpm splits levels st nt w =
    render_loop E (splits_tick ev rail lpm splits levels) fuel st nt w.
Proof.
  induction fuel as [|fuel IH]; intros st nt w; [reflexivity|].
  cbn [loop_splits render_loop]. loop_head.
  - apply IH.
  - unfold splits_tick.
    destruct (tick_splits ev rail lpm splits levels st) as [[st' fb]| |];
      cbn [omap fst snd]; try reflexivity.
    destruct (push_tick E fb _) as [[[]| |] w3]; try reflexivity.
    destruct (Qle_bool (inject_Z (distance_m ev)) (meters_done st'));
      [reflexivity|apply IH].
Qed.

Lemma loop_parallel_shape (E : env) (rail : Z) (fuel : nat) :
  forall (state : list pstate) (nt : Q) (w : world),
    loop_parallel E fuel rail state nt w =
    render_loop E (parallel_tick rail) fuel state nt w.
Proof.
  induction fuel as [|fuel IH]; intros st nt w; [reflexivity|].
  cbn [loop_parallel render_loop]. loop_head.
  - apply IH.
  - unfold parallel_tick.
    destruct (tick_parallel rail st) as [[[st' fb] fin]| |];
      cbn [omap fst snd]; try reflexivity.
    destruct (push_tick E fb _) as [[[]| |] w3]; try reflexivity.
    destruct fin; [reflexivity|apply IH].
Qed.

(** *** What a push changes *)

Lemma push_tick_any (E : env) (fb : framebuffer) (w : world) :
  exists (r : outcome unit) (w' : world),
    push_tick E fb w = (r, w') /\
    n_clock w' = n_clock w /\
    n_poll w' = n_poll w /\
    running_event w' = running_event w /\
    ((r = Ok tt /\ n_show w' = S (n_show w)) \/
     (r = Raise StripError /\ n_show w' = n_show w)).
Proof.
  destruct (push_pixels_any E fb 0 w)
    as (r1 & w1 & l & Hp & [->| ->] & (_ & Hc & Hq & Hr) & Hn & _).
  - rewrite (push_tick_show E fb w w1 Hp).
    eexists _, _. split; [reflexivity|]. cbn. repeat split; try assumption.
    left. split; [reflexivity|]. now rewrite Hn.
  - rewrite (push_tick_write_raises E fb w w1 _ Hp).
    eexists _, _. split; [reflexivity|]. repeat split; try assumption.
    right. split; [reflexivity|assumption].
Qed.

(** *** One iteration *)

Lemma render_loop_step {St : Type} (E : env)
    (tick : St -> outcome (St * option framebuffer * bool))
    (fuel : nat) (st : St) (nt : Q) (w : world) :
  render_loop E tick (S fuel) st nt w =
  if stop_is_set E (n_poll w) then (Ok tt, poll_only w)
  else if negb (Qle_bool nt (monotonic E (n_clock w))) then
    render_loop E tick fuel st nt
      (record (Sleep (nt - monotonic E (n_clock w))) (polled w))
  else
    match tick st with
    | Ok (st', frame, finished) =>
        match push_frame_of E frame (polled w) with
        | (Ok _, w2) =>
            if finished then (Ok tt, w2)
            else render_loop E tick fuel st' (nt + frame_dt_target) w2
        | (Raise e, w2) => (Raise e, w2)
        | (Diverge, w2) => (Diverge, w2)
        end
    | Raise e => (Raise e, polled w)
    | Diverge => (Diverge, polled w)
    end.
Proof.
  cbn [render_loop].
  unfold bind, stop_event_is_set, time_monotonic, time_sleep, ret, lift.
  cbv beta iota zeta.
  destruct (stop_is_set E (n_poll w)); [reflexivity|].
  cbv beta iota zeta. cbn [n_clock n_poll trace n_set n_show running_event].
  destruct (negb (Qle_bool nt (monotonic E (n_clock w)))); [reflexivity|].
  cbv beta iota zeta.
  destruct (tick st) as [[[st' frame] fin]| |]; try reflexivity.
  unfold push_frame_of, polled, ret.
  destruct frame as [fb|]; [|destruct fin; reflexivity].
  destruct (push_tick E fb _) as [[[]| |] w2]; try reflexivity.
  destruct fin; reflexivity.
Qed.

Lemma push_frame_of_any (E : env) (frame : option framebuffer) (w : world) :
  exists (r : outcome unit) (w' : world),
    push_frame_of E frame w = (r, w') /\
    n_clock w' = n_clock w /\
    n_poll w' = n_poll w /\
    running_event w' = running_event w /\
    ((r = Ok tt /\ (n_show w' <= S (n_show w))%nat /\ (n_show w <= n_show w')%nat /\
      (frame = None -> n_show w' = n_show w) /\
      (frame <> None -> n_show w' = S (n_show w))) \/
     (r = Raise StripError /\ n_show w' = n_show w)).
Proof.
  destruct frame as [fb|]; cbn [push_frame_of].
  - destruct (push_tick_any E fb w) as (r & w' & Hp & Hc & Hq & Hr & Hres).
    exists r, w'. repeat split; try assumption.
    destruct Hres as [[-> Hn]|[-> Hn]]; [left|right]; repeat split; try lia.
    discriminate.
  - exists (Ok tt), w. repeat split. left. repeat split; try lia.
    intros H. now contradiction H.
Qed.

(** *** Cancellation *)

Lemma render_loop_stops {St : Type} (E : env)
    (tick : St -> outcome (St * option framebuffer * bool))
    (Htick : forall st, tick st <> Diverge) :
  forall (k fuel : nat) (st : St) (nt : Q) (w : world),
    stop_is_set E (n_poll w + k) = true ->
    (k < fuel)%nat ->
    exists (r : outcome unit) (w' : world),
      render_loop E tick fuel st nt w = (r, w') /\
      r <> Diverge /\
      running_event w' = running_event w.
Proof.
  induction k as [|k IH]; intros fuel st nt w Hstop Hk;
    (destruct fuel as [|fuel]; [lia|]);
    rewrite render_loop_step.
  - rewrite Nat.add_0_r in Hstop. rewrite Hstop.
    eexists _, _. split; [reflexivity|]. split; [discriminate|reflexivity].
  - destruct (stop_is_set E (n_poll w)).
    { eexists _, _. split; [reflexivity|]. split; [discriminate|reflexivity]. }
    destruct (negb (Qle_bool nt (monotonic E (n_clock w)))).
    + destruct (IH fuel st nt
                  (record (Sleep (nt - monotonic E (n_clock w))) (polled w)))
        as (r & w' & Hl & Hr & Hrun).
      * cbn [n_poll record polled]. rewrite <- Hstop. f_equal. lia.
      * lia.
      * exists r, w'. split; [exact Hl|]. split; [exact Hr|exact Hrun].
    + destruct (tick st) as [[[st' frame] fin]| |] eqn:Ht.
      * destruct (push_frame_of_any E frame (polled w))
          as (r1 & w2 & Hp & _ & Hq & Hr & Hres).
        rewrite Hp. cbn [polled n_poll running_event] in Hq, Hr.
        destruct Hres as [[-> _]|[-> _]].
        -- destruct fin.
           ++ eexists _, _. split; [reflexivity|]. split; [discriminate|exact Hr].
           ++ destruct (IH fuel st' (nt + frame_dt_target) w2) as (r & w' & Hl & Hr' & Hrun).
              ** rewrite Hq. rewrite <- Hstop. f_equal. lia.
              ** lia.
              ** exists r, w'. split; [exact Hl|]. split; [exact Hr'|].
                 rewrite Hrun. exact Hr.
        -- eexists _, _. split; [reflexivity|]. split; [discriminate|exact Hr].
      * eexists _, _. split; [reflexivity|]. split; [discriminate|reflexivity].
      * contradiction (Htick st Ht).
Qed.

(** *** Pacing *)

Lemma monotone_clock_le (E : env) (Hmono : monotone_clock E) (a b : nat) :
  (a <= b)%nat -> monotonic E a <= monotonic E b.
Proof.
  induction 1 as [|b Hab IH]; [apply Qle_refl|].
  eapply Qle_trans; [exact IH|apply Hmono].
Qed.

Lemma render_loop_paced {St : Type} (E : env) (Hmono : monotone_clock E)
    (tick : St -> outcome (St * option framebuffer * bool)) :
  forall (fuel : nat) (st : St) (nt : Q) (w : world),
    paced E nt w (snd (render_loop E tick fuel st nt w)).
Proof.
  pose proof dt_pos as Hdt.
  assert (Hsame : forall nt w w', n_show w' = n_show w ->
            (n_clock w <= n_clock w')%nat -> paced E nt w w').
  { intros nt w w' Hs Hc. split; [lia|]. split; [exact Hc|]. intros f Hf. lia. }
  induction fuel as [|fuel IH]; intros st nt w.
  - cbn. apply Hsame; reflexivity.
  - rewrite render_loop_step.
    destruct (stop_is_set E (n_poll w)).
    { cbn [snd]. apply Hsame; cbn; lia. }
    destruct (negb (Qle_bool nt (monotonic E (n_clock w)))) eqn:Hdue.
    + specialize (IH st nt (record (Sleep (nt - monotonic E (n_clock w))) (polled w))).
      destruct IH as (H1 & H2 & H3). cbn [record polled n_show n_clock] in H1, H2, H3.
      split; [exact H1|]. split; [lia|].
      intros f Hf. destruct (H3 f Hf) as (c & Hc1 & Hc2 & Hc3).
      exists c. split; [exact Hc1|]. split; [lia|exact Hc3].
    + apply negb_false_iff, Qle_bool_iff in Hdue.
      destruct (tick st) as [[[st' frame] fin]| |];
        [|cbn [snd]; apply Hsame; cbn; lia|cbn [snd]; apply Hsame; cbn; lia].
      destruct (push_frame_of_any E frame (polled w))
        as (r1 & w2 & Hp & Hc & _ & _ & Hres).
      rewrite Hp. cbn [polled n_clock n_show] in Hc, Hres.
      assert (Hone : forall w', w' = w2 -> paced E nt w w').
      { intros w' ->. destruct Hres as [(_ & Hle & Hge & _)|(_ & Hn)].
        - split; [lia|]. split; [lia|]. intros f Hf.
          exists (n_clock w). split; [lia|]. split; [lia|].
          replace f with 0%nat by lia.
          change (inject_Z (Z.of_nat 0)) with 0. lra.
        - apply Hsame; lia. }
      destruct Hres as [(-> & Hle & Hge & Hnone & Hsome)|(-> & Hn)];
        [|cbn [snd]; apply Hone; reflexivity].
      destruct fin; [cbn [snd]; apply Hone; reflexivity|].
      specialize (IH st' (nt + frame_dt_target) w2).
      destruct IH as (H1 & H2 & H3).
      set (w' := snd (render_loop E tick fuel st' (nt + frame_dt_target) w2)) in *.
      split; [lia|]. split; [lia|].
      intros f Hf.
      destruct frame as [fb|].
      * specialize (Hsome ltac:(discriminate)).
        destruct f as [|f].
        -- exists (pred (n_clock w')). split; [lia|]. split; [lia|].
           change (inject_Z (Z.of_nat 0)) with 0.
           apply Qle_trans with (monotonic E (n_clock w)); [lra|].
           apply monotone_clock_le; [exact Hmono|lia].
        -- destruct (H3 f ltac:(lia)) as (c & Hc1 & Hc2 & Hc3).
           exists c. split; [exact Hc1|]. split; [lia|].
           rewrite inject_nat_succ. lra.
      * specialize (Hnone eq_refl).
        destruct (H3 f ltac:(lia)) as (c & Hc1 & Hc2 & Hc3).
        exists c. split; [exact Hc1|]. split; [lia|].
        assert (0 <= inject_Z (Z.of_nat f) * frame_dt_target)
          by (apply Qmult_le_0_compat; [apply inject_nat_nonneg|lra]).
        lra.
Qed.

(** ** Pacing and cancellation of the three loops *)

(** X12.  With a clock that never goes back, each render loop keeps its
    frame rate under [MAX_FPS], whatever the strip and the stop flag do and
    however the loop ends: when a loop entered with [next_time = nt] has
    called [show] [f + 1] times, its latest clock reading is at least
    [nt + f / MAX_FPS]. *)
Theorem frame_rate_capped (E : env) (Hmono : monotone_clock E) :
  (forall fuel ev rail v lpm levels st nt w,
     paced E nt w (snd (loop_const E fuel ev rail v lpm levels st nt w))) /\
  (forall fuel ev rail lpm splits levels st nt w,
     paced E nt w (snd (loop_splits E fuel ev rail lpm splits levels st nt w))) /\
  (forall fuel rail state nt w,
     paced E nt w (snd (loop_parallel E fuel rail state nt w))).
Proof.
  split; [|split]; intros.
  - rewrite loop_const_shape. apply render_loop_paced. exact Hmono.
  - rewrite loop_splits_shape. apply render_loop_paced. exact Hmono.
  - rewrite loop_parallel_shape. apply render_loop_paced. exact Hmono.
Qed.

Lemma frame_rate_capped_witness :
  monotone_clock env_steady /\
  forall fuel ev rail v lpm levels st nt w,
    paced env_steady nt w
      (snd (loop_const env_steady fuel ev rail v lpm levels st nt w)).
Proof.
  assert (Hmono : monotone_clock env_steady).
  { intros n. pose proof env_steady_is_steady as (_ & _ & Hc).
    pose proof dt_pos. specialize (Hc n). lra. }
  split; [exact Hmono|].
  exact (proj1 (frame_rate_capped env_steady Hmono)).
Defined.

(** *** Runs under cancellation *)

Lemma bind_raise {A B : Type} (c : IO A) (k : A -> IO B) (w w' : world) (e : exn) :
  c w = (Raise e, w') -> bind c k w = (Raise e, w').
Proof. intros H. unfold bind. now rewrite H. Qed.

(** Once the stop flag reads set at the [k + 1]-th poll, a loop polls no
    more than [k + 1] times and pushes no more than [k] frames, whatever
    its tick does. *)
Lemma render_loop_polls {St : Type} (E : env)
    (tick : St -> outcome (St * option framebuffer * bool)) :
  forall (k fuel : nat) (st : St) (nt : Q) (w : world),
    stop_is_set E (n_poll w + k) = true ->
    (n_poll (snd (render_loop E tick fuel st nt w)) <= n_poll w + S k)%nat /\
    (n_show (snd (render_loop E tick fuel st nt w)) <= n_show w + k)%nat /\
    running_event (snd (render_loop E tick fuel st nt w)) = running_event w.
Proof.
  induction k as [|k IH]; intros fuel st nt w Hstop;
    (destruct fuel as [|fuel]; [cbn; repeat split; lia|]);
    rewrite render_loop_step.
  - rewrite Nat.add_0_r in Hstop. rewrite Hstop. cbn. repeat split; lia.
  - destruct (stop_is_set E (n_poll w)); [cbn; repeat split; lia|].
    destruct (negb (Qle_bool nt (monotonic E (n_clock w)))).
    + destruct (IH fuel st nt
                  (record (Sleep (nt - monotonic E (n_clock w))) (polled w)))
        as (H1 & H2 & H3).
      * cbn [n_poll record polled]. rewrite <- Hstop. f_equal. lia.
      * cbn [n_poll n_show running_event record polled] in H1, H2, H3.
        repeat split; [lia|lia|exact H3].
    + destruct (tick st) as [[[st' frame] fin]| |];
        [|cbn; repeat split; lia|cbn; repeat split; lia].
      destruct (push_frame_of_any E frame (polled w))
        as (r1 & w2 & Hp & _ & Hq & Hr & Hres).
      rewrite Hp. cbn [polled n_poll n_show running_event] in Hq, Hr, Hres.
      destruct Hres as [(-> & Hle & _)|(-> & Hn)];
        [|cbn [snd]; repeat split; [lia|lia|exact Hr]].
      destruct fin; [cbn [snd]; repeat split; [lia|lia|exact Hr]|].
      destruct (IH fuel st' (nt + frame_dt_target) w2) as (H1 & H2 & H3).
      * rewrite Hq. rewrite <- Hstop. f_equal. lia.
      * repeat split; [lia|lia|]. rewrite H3. exact Hr.
Qed.

(** X13.  Cancellation.  Each of the three loops is the common loop
    [render_loop] run with its own tick, and polls the stop flag once at
    the top of every iteration.  If the flag reads set at the [k + 1]-th
    poll counted from the entry of a loop, the loop polls no more than
    [k + 1] times and pushes no more than [k] frames, whatever the strip,
    the clock and the tick do, and it leaves [running_event] as it was, for
    the cleanup to clear.  It ends within [k + 1] iterations unless a tick
    itself does not come back. *)
Theorem stop_ends_every_run (E : env) (k : nat) (w : world)
    (Hstop : stop_is_set E (n_poll w + k) = true) :
  (forall fuel ev rail v lpm levels st nt,
     let w' := snd (loop_const E fuel ev rail v lpm levels st nt w) in
     (n_poll w' <= n_poll w + S k)%nat /\ (n_show w' <= n_show w + k)%nat /\
     running_event w' = running_event w) /\
  (forall fuel ev rail lpm splits levels st nt,
     let w' := snd (loop_splits E fuel ev rail lpm splits levels st nt w) in
     (n_poll w' <= n_poll w + S k)%nat /\ (n_show w' <= n_show w + k)%nat /\
     running_event w' = running_event w) /\
  (forall fuel rail state nt,
     let w' := snd (loop_parallel E fuel rail state nt w) in
     (n_poll w' <= n_poll w + S k)%nat /\ (n_show w' <= n_show w + k)%nat /\
     running_event w' = running_event w) /\
  ((forall fuel ev rail v lpm levels st nt,
      loop_const E fuel ev rail v lpm levels st nt w =
      render_loop E (const_tick ev rail v lpm levels) fuel st nt w) /\
   (forall fuel ev rail lpm splits levels st nt,
      loop_splits E fuel ev rail lpm splits levels st nt w =
      render_loop E (splits_tick ev rail lpm splits levels) fuel st nt w) /\
   (forall fuel rail state nt,
      loop_parallel E fuel rail state nt w =
      render_loop E (parallel_tick rail) fuel state nt w) /\
   forall (St : Type) (tick : St -> outcome (St * option framebuffer * bool)),
     (forall st, tick st <> Diverge) ->
     forall (fuel : nat) (st : St) (nt : Q),
       (k < fuel)%nat ->
       fst (render_loop E tick fuel st nt w) <> Diverge).
Proof.
  split; [|split; [|split]].
  - intros fuel ev rail v lpm levels st nt. cbv zeta.
    rewrite loop_const_shape. now apply render_loop_polls.
  - intros fuel ev rail lpm splits levels st nt. cbv zeta.
    rewrite loop_splits_shape. now apply render_loop_polls.
  - intros fuel rail state nt. cbv zeta.
    rewrite loop_parallel_shape. now apply render_loop_polls.
  - split; [intros; apply loop_const_shape|].
    split; [intros; apply loop_splits_shape|].
    split; [intros; apply loop_parallel_shape|].
    intros St tick Htick fuel st nt Hk.
    destruct (render_loop_stops E tick Htick k fuel st nt w Hstop Hk)
      as (r & w' & Hl & Hr & _).
    rewrite Hl. exact Hr.
Qed.

Lemma stop_ends_every_run_witness :
  stop_is_set env_stopped (n_poll world0 + 3) = true /\
  (n_poll (snd (loop_const env_stopped 10 ev_default 200 (40 # 11) (1 # 2)
                  (precompute_trail ev_default) (mkRstate 2 1) 0 world0))
   <= n_poll world0 + 4)%nat /\
  (n_show (snd (loop_const env_stopped 10 ev_default 200 (40 # 11) (1 # 2)
                  (precompute_trail ev_default) (mkRstate 2 1) 0 world0))
   <= n_show world0 + 3)%nat /\
  loop_const env_stopped 10 ev_default 200 (40 # 11) (1 # 2)
    (precompute_trail ev_default) (mkRstate 2 1) 0 world0 =
  (Ok tt,
   snd (loop_const env_stopped 4 ev_default 200 (40 # 11) (1 # 2)
          (precompute_trail ev_default) (mkRstate 2 1) 0 world0)).
Proof.
  assert (Hstop : stop_is_set env_stopped (n_poll world0 + 3) = true) by reflexivity.
  split; [exact Hstop|].
  destruct (stop_ends_every_run env_stopped 3 world0 Hstop) as (Hc & _).
  destruct (Hc 10%nat ev_default 200%Z (40 # 11) (1 # 2)
              (precompute_trail ev_default) (mkRstate 2 1) 0) as (H1 & H2 & _).
  split; [exact H1|]. split; [exact H2|].
  vm_compute. reflexivity.
Defined.

(** ** A strip that reports no pixels *)

Lemma startup_delay_nonneg (E : env) (w : world) : 0 <= startup_delay_at E w.
Proof. unfold startup_delay_at. apply Q.le_max_l. Qed.

Lemma measure_startup_empty (E : env) (w : world) :
  measure_startup E 0 w =
  (Ok (startup_delay_at E w),
   mkWorld (trace w ++ [Flush (show_ok E (n_show w))]) (n_set w) (S (n_show w))
     (S (S (n_clock w))) (n_poll w) (running_event w)).
Proof.
  unfold measure_startup, blank, startup_delay_at. cbn [Z.to_nat repeat].
  unfold _push_frame. cbn [push_pixels].
  unfold bind, try_except, show, time_monotonic, ret, record.
  cbn [n_clock n_poll trace n_set n_show running_event].
  destruct (show_ok E (n_show w)); reflexivity.
Qed.

Lemma tick_splits_no_rail (ev : PaceEvent) (lpm : Q) (splits : list Q)
    (levels : list rgb) (st : rstate) :
  ~ lpm == 0 -> splits <> [] -> Forall (fun s => 0 < s) splits ->
  0 <= meters_done st ->
  tick_splits ev 0 lpm splits levels st = Raise ZeroDivisionError.
Proof.
  intros Hl Hne Hpos Hm.
  destruct (split_velocity_ok splits lpm (meters_done st) Hne Hpos Hm)
    as (s & _ & _ & _ & Hv).
  unfold tick_splits. rewrite Hv. cbn [obind].
  rewrite div_ok by exact Hl. reflexivity.
Qed.

(** X14.  The guard against an empty strip exists only on the
    constant-pace path.  On a strip that reports no pixels, [run_event]
    returns at once for an event without splits, touching nothing; for an
    event with positive splits it starts the run and then raises
    [ZeroDivisionError] (in the startup compensation when the event's own
    [rail_leds] is 0, else at [pos_f % rail_leds] of the first tick), so
    the cleanup is skipped and [running_event] stays set. *)
Theorem empty_strip_guard_only_constant_pace (E : env) (ev : PaceEvent)
    (fuel : nat) (w : world)
    (Hsteady : steady E)
    (Hstrip : numPixels E = 0%Z)
    (Hlap : laps_m ev <> 0%Z) :
  (has_splits ev = false -> run_event E fuel ev w = (Ok tt, w)) /\
  (forall splits : list Q,
     splits_100 ev = Some splits -> splits <> [] ->
     Forall (fun s => 0 < s) splits ->
     exists w',
       run_event E (S fuel) ev w = (Raise ZeroDivisionError, w') /\
       running_event w' = true /\
       trace w' = trace w ++ [Flush (show_ok E (n_show w))] /\
       n_set w' = n_set w).
Proof.
  pose proof (leds_per_meter_value ev Hlap) as Hl.
  set (lpm := inject_Z (rail_leds ev) / inject_Z (laps_m ev)) in *.
  split.
  - intros Hns.
    assert (Hr : run_event E fuel ev w = run_event_const E fuel ev w).
    { unfold run_event, has_splits in *.
      destruct (splits_100 ev) as [[|s ss]|]; try reflexivity. discriminate. }
    rewrite Hr. unfold run_event_const.
    rewrite (bind_ok _ _ w w lpm) by (unfold lift; rewrite Hl; reflexivity).
    rewrite Hstrip. cbn [Z.leb Z.compare]. rewrite orb_true_r. reflexivity.
  - intros splits Hs Hne Hpos.
    assert (Hr : run_event E (S fuel) ev w = run_event_splits E (S fuel) ev splits w).
    { unfold run_event. rewrite Hs. destruct splits; [contradiction|reflexivity]. }
    rewrite Hr. unfold run_event_splits.
    rewrite (bind_ok _ _ w w lpm) by (unfold lift; rewrite Hl; reflexivity).
    set (w0 := mkWorld (trace w) (n_set w) (n_show w) (n_clock w) (n_poll w) true).
    rewrite (bind_ok _ _ w w0 tt) by reflexivity.
    rewrite Hstrip.
    pose proof (measure_startup_empty E w0) as Hm.
    set (w1 := mkWorld _ _ _ _ _ _) in Hm.
    pose proof (first_split_pos splits) as Hf.
    pose proof (startup_delay_nonneg E w0) as Hd.
    destruct (Qeq_bool lpm 0) eqn:Hz.
    + exists w1. split; [|repeat split].
      apply bind_raise.
      unfold startup_splits.
      rewrite (bind_ok _ _ _ _ _ Hm).
      rewrite (bind_ok _ _ w1 w1 (100 / first_split splits))
        by (unfold lift; rewrite div_ok by lra; reflexivity).
      apply bind_raise. unfold lift, Py.div. rewrite Hz. reflexivity.
    + assert (Hlpm : ~ lpm == 0).
      { intros H. apply Qeq_bool_iff in H. congruence. }
      set (v0 := 100 / first_split splits * lpm).
      set (st0 := mkRstate
                    (inject_Z (start_position ev 0) + v0 * startup_delay_at E w0)
                    (0 + v0 / lpm * startup_delay_at E w0)).
      assert (Hst : startup_splits E ev 0 lpm splits w0 = (Ok st0, w1)).
      { unfold startup_splits.
        rewrite (bind_ok _ _ _ _ _ Hm).
        rewrite (bind_ok _ _ w1 w1 (100 / first_split splits))
          by (unfold lift; rewrite div_ok by lra; reflexivity).
        rewrite (bind_ok _ _ w1 w1 (v0 / lpm))
          by (unfold lift; rewrite div_ok by exact Hlpm; reflexivity).
        reflexivity. }
      rewrite (bind_ok _ _ _ _ _ Hst).
      set (w2 := mkWorld (trace w1) (n_set w1) (n_show w1) (S (n_clock w1)) (n_poll w1)
                   (running_event w1)).
      rewrite (bind_ok _ _ w1 w2 (monotonic E (n_clock w1))) by reflexivity.
      exists (polled w2). split; [|repeat split].
      apply bind_raise.
      rewrite loop_splits_shape, render_loop_step.
      destruct Hsteady as (_ & Hnostop & Hclock).
      rewrite Hnostop.
      match goal with |- context [negb (Qle_bool ?a ?b)] =>
        replace (Qle_bool a b) with true
          by (symmetry; apply Qle_bool_iff; apply Hclock)
      end.
      cbn [negb].
      unfold splits_tick. rewrite tick_splits_no_rail; try assumption.
      * reflexivity.
      * cbn [st0 meters_done].
        assert (Heq : v0 / lpm == 100 / first_split splits)
          by (unfold v0; field; split; [lra|exact Hlpm]).
        rewrite Heq.
        assert (0 < 100 / first_split splits)
          by (apply Qlt_shift_div_l; [exact Hf|lra]).
        nra.
Qed.

Lemma env_no_pixels_steady : steady env_no_pixels.
Proof.
  split; [intros n; reflexivity|]. split; [intros n; reflexivity|].
  intros n. cbn [env_no_pixels monotonic]. rewrite Nat2Z.inj_succ. unfold Z.succ.
  rewrite inject_Z_plus. change (inject_Z 1) with 1.
  assert (frame_dt_target <= 1) by (vm_compute; discriminate). lra.
Qed.

Lemma empty_strip_guard_only_constant_pace_witness :
  steady env_no_pixels /\ numPixels env_no_pixels = 0%Z /\
  run_event env_no_pixels 1 ev_default world0 = (Ok tt, world0) /\
  exists w',
    run_event env_no_pixels 1 ev_splits_800 world0 = (Raise ZeroDivisionError, w') /\
    running_event w' = true /\
    trace w' = trace world0 ++ [Flush (show_ok env_no_pixels (n_show world0))] /\
    n_set w' = n_set world0.
Proof.
  pose proof env_no_pixels_steady as Hsteady.
  assert (Hstrip : numPixels env_no_pixels = 0%Z) by reflexivity.
  assert (Hlap : laps_m ev_default <> 0%Z) by discriminate.
  assert (Hlap' : laps_m ev_splits_800 <> 0%Z) by discriminate.
  split; [exact Hsteady|]. split; [exact Hstrip|]. split.
  - apply (proj1 (empty_strip_guard_only_constant_pace env_no_pixels ev_default 1
                    world0 Hsteady Hstrip Hlap)).
    reflexivity.
  - apply (proj2 (empty_strip_guard_only_constant_pace env_no_pixels ev_splits_800 0
                    world0 Hsteady Hstrip Hlap') splits_800).
    + reflexivity.
    + discriminate.
    + repeat constructor.
Defined.

(** ** Blending of two trails *)

Lemma blend_trail_pixel (tl head rail : Z) (levels : list rgb) (fb fb' : framebuffer) :
  (Z.of_nat (List.length levels) <= Z.max 0 (tl + 1))%Z ->
  (head < rail)%Z ->
  Z.of_nat (List.length fb) = Z.max 0 rail ->
  apply_writes put_blend (trail_writes tl head levels) fb = Ok fb' ->
  forall j : nat,
    nth j fb' black = blended (nth j fb black) (level_at tl head levels j).
Proof.
  intros Hshort Hhead Hlen Hw j.
  destruct (trail_pixels put_blend put_blend_assigns tl head rail levels fb fb'
              Hshort Hhead Hlen Hw) as (P1 & P2).
  unfold level_at.
  destruct (Z.leb_spec 0 (Z.of_nat j - head + tl)) as [H0|H0]; cbn [andb].
  - destruct (Z.ltb_spec (Z.of_nat j - head + tl) (Z.of_nat (List.length levels)))
      as [H1|H1]; cbn [blended].
    + specialize (P1 (Z.to_nat (Z.of_nat j - head + tl)) ltac:(lia)).
      cbv zeta in P1.
      replace (head - (tl - Z.of_nat (Z.to_nat (Z.of_nat j - head + tl))))%Z
        with (Z.of_nat j) in P1 by lia.
      rewrite Nat2Z.id in P1. rewrite P1 by lia. apply stored_blend.
    + apply P2. intros t Ht. lia.
  - cbn [blended]. apply P2. intros t Ht. lia.
Qed.

Lemma level_at_in (tl head : Z) (levels : list rgb) (j : nat) (c : rgb) :
  level_at tl head levels j = Some c -> In c levels.
Proof.
  unfold level_at.
  destruct (Z.leb_spec 0 (Z.of_nat j - head + tl)); cbn [andb]; [|discriminate].
  destruct (Z.ltb_spec (Z.of_nat j - head + tl) (Z.of_nat (List.length levels)));
    [|discriminate].
  intros Hc. injection Hc as <-. apply nth_In. lia.
Qed.

Lemma blended_comm (x : rgb) (a b : option rgb) :
  nonneg_colour x ->
  (forall c, a = Some c -> nonneg_colour c) ->
  (forall c, b = Some c -> nonneg_colour c) ->
  blended (blended x a) b = blended (blended x b) a.
Proof.
  intros Hx Ha Hb.
  destruct a as [[[ra ga] ba]|], b as [[[rb gb] bb]|]; try reflexivity.
  specialize (Ha _ eq_refl). specialize (Hb _ eq_refl).
  destruct x as [[r g] bl]. cbn [blended blend_additive].
  unfold nonneg_colour in *. rewrite !clamp_byte_max_min.
  f_equal; [f_equal|]; lia.
Qed.

Lemma par_step_on (rail : Z) (st st' : pstate) (fb fb' : framebuffer) :
  (0 < rail)%Z ->
  st_trail_levels st = precompute_trail (st_ev st) ->
  par_step rail st fb = Ok (st', fb') ->
  forall fb2 : framebuffer,
    Z.of_nat (List.length fb2) = rail ->
    exists fb2' : framebuffer,
      par_step rail st fb2 = Ok (st', fb2') /\
      Z.of_nat (List.length fb2') = rail /\
      forall j : nat,
        nth j fb2' black =
        if paints st st' then blended (nth j fb2 black) (trail_of st' j)
        else nth j fb2 black.
Proof.
  intros Hr Hlv Hstep fb2 Hlen.
  destruct (par_step_levels rail st st' fb fb' Hr Hstep) as (Elv & Eev).
  unfold paints.
  destruct (par_step_inv _ _ _ _ _ Hstep)
    as [(Hd & -> & _)|(Hd & Ha & [(Hd1 & _)|(Hd1 & Hdraw)])].
  - exists fb2. unfold par_step. rewrite Hd. cbn. auto.
  - exists fb2. unfold par_step. rewrite Hd, Ha. cbn [obind]. rewrite Hd1.
    cbn. auto.
  - destruct (par_advance_position rail Hr st st' Ha)
      as (v & k & _ & _ & _ & _ & _ & Hlt).
    assert (Hhead : (Py.int (st_pos_f st') < rail)%Z).
    { apply int_lt; [assumption|]. apply Hlt. now right. }
    assert (Hshort : (Z.of_nat (List.length (st_trail_levels st')) <=
                      Z.max 0 (trail_len (st_ev st') + 1))%Z).
    { rewrite Elv, Hlv, Eev. apply precompute_trail_short. }
    destruct (trail_on_rail put_blend put_blend_assigns
                (trail_len (st_ev st')) (Py.int (st_pos_f st')) rail
                (st_trail_levels st') fb2 Hshort Hhead ltac:(lia))
      as (_ & fb2' & Hd2 & Hw2 & Hlen2).
    exists fb2'. split; [|split].
    + unfold par_step. rewrite Hd, Ha. cbn [obind]. rewrite Hd1, Hd2. reflexivity.
    + lia.
    + intros j. rewrite Hd, Hd1. cbn [negb andb]. unfold trail_of.
      apply (blend_trail_pixel _ _ rail); try assumption. lia.
Qed.

Lemma trail_of_nonneg (rail : Z) (st st' : pstate) (fb fb' : framebuffer)
    (j : nat) (c : rgb) :
  (0 < rail)%Z ->
  st_trail_levels st = precompute_trail (st_ev st) ->
  nonneg_colour (color (st_ev st)) ->
  par_step rail st fb = Ok (st', fb') ->
  trail_of st' j = Some c -> nonneg_colour c.
Proof.
  intros Hr Hlv Hc Hstep Hj.
  destruct (par_step_levels rail st st' fb fb' Hr Hstep) as (Elv & Eev).
  apply level_at_in in Hj. rewrite Elv, Hlv in Hj.
  pose proof (trail_levels_bounded (st_ev st) Hc) as Hb.
  rewrite Forall_forall in Hb. specialize (Hb c Hj).
  unfold nonneg_colour in *.
  destruct (color (st_ev st)) as [[r g] b], c as [[r' g'] b']. lia.
Qed.

(** X15.  The frame of a tick of the parallel runner does not depend on
    the order of the two sub-events: for events with non-negative colour
    channels, swapping the two leaves every pixel of the composited
    framebuffer, both advanced sub-events and the end-of-run flag the
    same. *)
Theorem parallel_frame_order_free (rail : Z) (s1 s2 s1' s2' : pstate)
    (fb : framebuffer) (fin : bool)
    (Hrail : (0 < rail)%Z)
    (Hl1 : st_trail_levels s1 = precompute_trail (st_ev s1))
    (Hl2 : st_trail_levels s2 = precompute_trail (st_ev s2))
    (Hc1 : nonneg_colour (color (st_ev s1)))
    (Hc2 : nonneg_colour (color (st_ev s2)))
    (Htick : tick_parallel rail [s1; s2] = Ok ([s1'; s2'], fb, fin)) :
  tick_parallel rail [s2; s1] = Ok ([s2'; s1'], fb, fin).
Proof.
  unfold tick_parallel in *. cbn [par_steps] in *.
  destruct (par_step rail s1 (blank rail)) as [[a fa]| |] eqn:E1; try discriminate.
  cbn [obind] in Htick.
  destruct (par_step rail s2 fa) as [[b fb12]| |] eqn:E2; try discriminate.
  cbn [obind] in Htick. injection Htick as <- <- <- <-.
  assert (Hblank : Z.of_nat (List.length (blank rail)) = rail)
    by (rewrite blank_length; lia).
  destruct (par_step_on rail s1 a _ _ Hrail Hl1 E1 (blank rail) Hblank)
    as (fa' & Ea & Hla & Pa).
  rewrite E1 in Ea. injection Ea as <-.
  destruct (par_step_on rail s2 b _ _ Hrail Hl2 E2 fa Hla)
    as (fb' & Eb & Hlb & Pb).
  rewrite E2 in Eb. injection Eb as <-.
  destruct (par_step_on rail s2 b _ _ Hrail Hl2 E2 (blank rail) Hblank)
    as (g2 & Eg2 & Hlg2 & Pg2).
  destruct (par_step_on rail s1 a _ _ Hrail Hl1 E1 g2 Hlg2)
    as (g21 & Eg21 & Hlg21 & Pg21).
  rewrite Eg2. cbn [obind]. rewrite Eg21. cbn [obind].
  assert (Hfb : g21 = fb12).
  { apply nth_ext with (d := black) (d' := black); [lia|].
    intros j _. rewrite Pg21, Pg2, Pb, Pa.
    assert (Hx : nonneg_colour (nth j (blank rail) black)).
    { unfold blank. rewrite nth_repeat. cbn. lia. }
    destruct (paints s1 a), (paints s2 b); try reflexivity.
    apply blended_comm; [exact Hx| |].
    - intros c Hc. exact (trail_of_nonneg rail s2 b _ _ j c Hrail Hl2 Hc2 E2 Hc).
    - intros c Hc. exact (trail_of_nonneg rail s1 a _ _ j c Hrail Hl1 Hc1 E1 Hc). }
  rewrite Hfb. unfold all_done. cbn [forallb].
  rewrite !andb_true_r. rewrite (andb_comm (st_done s2)). reflexivity.
Qed.

Lemma parallel_frame_order_free_witness :
  tick_parallel 200 [pair_a; pair_b] =
    Ok ([pair_a'; pair_b'], snd (fst pair_ticked), snd pair_ticked) /\
  nth 10 (snd (fst pair_ticked)) black = (255, 255, 0)%Z /\
  tick_parallel 200 [pair_b; pair_a] =
    Ok ([pair_b'; pair_a'], snd (fst pair_ticked), snd pair_ticked).
Proof.
  assert (Htick : tick_parallel 200 [pair_a; pair_b] =
                  Ok ([pair_a'; pair_b'], snd (fst pair_ticked), snd pair_ticked))
    by (vm_compute; reflexivity).
  split; [exact Htick|]. split; [vm_compute; reflexivity|].
  apply (parallel_frame_order_free 200 pair_a pair_b pair_a' pair_b'
           (snd (fst pair_ticked)) (snd pair_ticked)).
  - lia.
  - reflexivity.
  - reflexivity.
  - cbn. lia.
  - cbn. lia.
  - exact Htick.
Defined.

(** ** The worker thread *)

Lemma run_step (E : env) (fuel loop_fuel : nat) (queue : list PaceEvent)
    (errors : list exn) (w : world) :
  run E (S fuel) loop_fuel queue errors w =
  if stop_is_set E (n_poll w) then (Ok (queue, errors), poll_only w)
  else
    match queue with
    | [] => run E fuel loop_fuel [] errors (poll_only w)
    | ev :: rest =>
        if stop_is_set E (S (n_poll w))
        then (Ok (rest, errors), poll_only (poll_only w))
        else
          match run_event E loop_fuel ev (poll_only (poll_only w)) with
          | (Ok _, w') => run E fuel loop_fuel rest errors w'
          | (Raise e, w') => run E fuel loop_fuel rest (errors ++ [e]) w'
          | (Diverge, w') => (Diverge, w')
          end
    end.
Proof.
  cbn [run]. unfold poll_only.
  unfold bind at 1. unfold stop_event_is_set at 1.
  destruct (stop_is_set E (n_poll w)); [reflexivity|].
  destruct queue as [|ev rest]; [reflexivity|].
  unfold bind at 1. unfold stop_event_is_set at 1.
  cbn [n_poll trace n_set n_show n_clock running_event].
  destruct (stop_is_set E (S (n_poll w))); [reflexivity|].
  unfold bind at 1. unfold try_except at 1. unfold bind at 1.
  destruct (run_event E loop_fuel ev _) as [[[]|e|] w']; reflexivity.
Qed.

Lemma run_served (E : env) (loop_fuel : nat) :
  forall (fuel : nat) (queue : list PaceEvent) (errors : list exn) (w : world),
    (forall e, fst (run E fuel loop_fuel queue errors w) <> Raise e) /\
    (forall queue' errors',
       fst (run E fuel loop_fuel queue errors w) = Ok (queue', errors') ->
       served E queue errors queue' errors'
         (snd (run E fuel loop_fuel queue errors w))).
Proof.
  induction fuel as [|fuel IH]; intros queue errors w.
  { cbn. split; [discriminate|discriminate]. }
  rewrite run_step.
  destruct (stop_is_set E (n_poll w)) eqn:Hs1.
  { cbn [fst snd]. split; [discriminate|].
    intros q' e' H. injection H as <- <-. split.
    - exists 0%nat, []. cbn. rewrite app_nil_r. repeat split; lia.
    - exists (n_poll w). split; [reflexivity|exact Hs1]. }
  destruct queue as [|ev rest].
  { destruct (IH [] errors (poll_only w)) as (H1 & H2). split; [exact H1|].
    intros q' e' H. exact (H2 q' e' H). }
  destruct (stop_is_set E (S (n_poll w))) eqn:Hs2.
  { cbn [fst snd]. split; [discriminate|].
    intros q' e' H. injection H as <- <-. split.
    - exists 1%nat, []. cbn. rewrite app_nil_r. repeat split; lia.
    - exists (S (n_poll w)). split; [reflexivity|exact Hs2]. }
  destruct (run_event E loop_fuel ev (poll_only (poll_only w))) as [[[]|e|] w'].
  - destruct (IH rest errors w') as (H1 & H2). split; [exact H1|].
    intros q' e' H. destruct (H2 q' e' H) as ((n & new & Hq & Hn & He & Hl) & Hp).
    split; [|exact Hp].
    exists (S n), new. cbn [skipn List.length]. repeat split; try assumption; lia.
  - destruct (IH rest (errors ++ [e]) w') as (H1 & H2). split; [exact H1|].
    intros q' e' H. destruct (H2 q' e' H) as ((n & new & Hq & Hn & He & Hl) & Hp).
    split; [|exact Hp].
    exists (S n), (e :: new). cbn [skipn List.length].
    repeat split; try assumption; try lia.
    rewrite He, <- app_assoc. reflexivity.
  - cbn [fst]. split; discriminate.
Qed.

(** X16.  No exception of an event reaches the worker thread: [Runner.run]
    never raises, whatever [run_event] does.  It returns only after a poll
    that found the stop flag set; by then it has taken events from the
    front of the queue in order, leaving a suffix of the queue, and has
    reported at most one failure per event taken.  An event taken just
    before the flag is seen is dropped without being run. *)
Theorem worker_survives_failed_events (E : env) (fuel loop_fuel : nat)
    (queue : list PaceEvent) (errors : list exn) (w : world) :
  (forall e, fst (run E fuel loop_fuel queue errors w) <> Raise e) /\
  (forall queue' errors',
     fst (run E fuel loop_fuel queue errors w) = Ok (queue', errors') ->
     served E queue errors queue' errors'
       (snd (run E fuel loop_fuel queue errors w))) /\
  (forall ev rest,
     queue = ev :: rest ->
     stop_is_set E (n_poll w) = false ->
     stop_is_set E (S (n_poll w)) = true ->
     run E (S fuel) loop_fuel queue errors w =
     (Ok (rest, errors), poll_only (poll_only w))) /\
  (forall ev rest e w',
     queue = ev :: rest ->
     stop_is_set E (n_poll w) = false ->
     stop_is_set E (S (n_poll w)) = false ->
     run_event E loop_fuel ev (poll_only (poll_only w)) = (Raise e, w') ->
     run E (S fuel) loop_fuel queue errors w =
     run E fuel loop_fuel rest (errors ++ [e]) w').
Proof.
  destruct (run_served E loop_fuel fuel queue errors w) as (H1 & H2).
  split; [exact H1|]. split; [exact H2|]. split.
  - intros ev rest -> Hs1 Hs2. rewrite run_step, Hs1, Hs2. reflexivity.
  - intros ev rest e w' -> Hs1 Hs2 Hr. rewrite run_step, Hs1, Hs2, Hr. reflexivity.
Qed.

(** ** The event list of the GUI *)

Lemma delete_at_nil {A : Type} (i : Z) : delete_at i ([] : list A) = [].
Proof.
  unfold delete_at. destruct (_ && _)%bool; [|reflexivity].
  rewrite firstn_nil, skipn_nil. reflexivity.
Qed.

Lemma delete_at_head {A : Type} (x : A) (xs : list A) : delete_at 0 (x :: xs) = xs.
Proof.
  unfold delete_at. cbn [List.length].
  replace ((0 <=? 0)%Z && (0 <? Z.of_nat (S (List.length xs)))%Z)%bool with true
    by (symmetry; apply andb_true_iff; split; [reflexivity|apply Z.ltb_lt; lia]).
  reflexivity.
Qed.

Lemma delete_at_tail {A : Type} (i : Z) (x : A) (xs : list A) :
  (1 <= i)%Z -> delete_at i (x :: xs) = x :: delete_at (i - 1) xs.
Proof.
  intros Hi. unfold delete_at. cbn [List.length].
  destruct (Z.ltb_spec i (Z.of_nat (S (List.length xs)))) as [Hlt|Hge].
  - replace (0 <=? i)%Z with true by (symmetry; apply Z.leb_le; lia).
    replace (0 <=? i - 1)%Z with true by (symmetry; apply Z.leb_le; lia).
    replace (i - 1 <? Z.of_nat (List.length xs))%Z with true
      by (symmetry; apply Z.ltb_lt; lia).
    cbn [andb].
    replace (Z.to_nat i) with (S (Z.to_nat (i - 1))) by lia.
    reflexivity.
  - replace (i - 1 <? Z.of_nat (List.length xs))%Z with false
      by (symmetry; apply Z.ltb_ge; lia).
    rewrite !andb_false_r. reflexivity.
Qed.

Lemma delete_at_negative {A : Type} (i : Z) (xs : list A) :
  (i < 0)%Z -> delete_at i xs = xs.
Proof.
  intros Hi. unfold delete_at.
  replace (0 <=? i)%Z with false by (symmetry; apply Z.leb_gt; lia).
  reflexivity.
Qed.

Lemma delete_at_map {A B : Type} (f : A -> B) (i : Z) (xs : list A) :
  delete_at i (map f xs) = map f (delete_at i xs).
Proof.
  unfold delete_at. rewrite length_map.
  destruct (_ && _)%bool; [|reflexivity].
  rewrite map_app, firstn_map, skipn_map. reflexivity.
Qed.

Lemma delete_at_length {A : Type} (i : Z) (xs : list A) :
  (0 <= i < Z.of_nat (List.length xs))%Z ->
  S (List.length (delete_at i xs)) = List.length xs.
Proof.
  intros Hi. unfold delete_at.
  replace ((0 <=? i)%Z && (i <? Z.of_nat (List.length xs))%Z)%bool with true
    by (symmetry; apply andb_true_iff; split; [apply Z.leb_le|apply Z.ltb_lt]; lia).
  rewrite length_app, length_firstn, length_skipn. lia.
Qed.

Lemma unselected_below {A : Type} (i : Z) (idxs : list Z) (xs : list A) :
  forall k : Z,
    (i < k)%Z -> unselected_from k (i :: idxs) xs = unselected_from k idxs xs.
Proof.
  induction xs as [|x rest IH]; intros k Hk; [reflexivity|].
  cbn [unselected_from existsb].
  replace (k =? i)%Z with false by (symmetry; apply Z.eqb_neq; lia).
  cbn [orb]. rewrite IH by lia. reflexivity.
Qed.

Lemma unselected_delete {A : Type} (i : Z) (idxs : list Z) (xs : list A) :
  Forall (fun j => (i < j)%Z) idxs ->
  forall k : Z,
    (k <= i)%Z ->
    delete_at (i - k) (unselected_from k idxs xs) = unselected_from k (i :: idxs) xs.
Proof.
  intros Hall.
  assert (Hnot : forall k, (k <= i)%Z -> existsb (Z.eqb k) idxs = false).
  { intros k Hk. apply not_true_is_false. intros H.
    apply existsb_exists in H. destruct H as (j & Hj & He).
    apply Z.eqb_eq in He. subst j.
    rewrite Forall_forall in Hall. specialize (Hall k Hj). lia. }
  induction xs as [|x rest IH]; intros k Hk.
  - cbn. apply delete_at_nil.
  - cbn [unselected_from existsb]. rewrite (Hnot k Hk).
    destruct (Z.eqb_spec k i) as [->|Hne]; cbn [orb].
    + rewrite Z.sub_diag, delete_at_head.
      symmetry. apply unselected_below. lia.
    + rewrite delete_at_tail by lia.
      replace (i - k - 1)%Z with (i - (k + 1))%Z by lia.
      rewrite IH by lia. reflexivity.
Qed.

Lemma unselected_none {A : Type} (xs : list A) :
  forall k : Z, unselected_from k [] xs = xs.
Proof.
  induction xs as [|x rest IH]; intros k; [reflexivity|].
  cbn [unselected_from existsb]. now rewrite IH.
Qed.

Lemma delete_each_unselected {A : Type} (idxs : list Z) (xs : list A) :
  StronglySorted Z.lt idxs -> delete_each idxs xs = unselected idxs xs.
Proof.
  induction 1 as [|i rest Hs IH Hall].
  - symmetry. apply unselected_none.
  - unfold delete_each in *. cbn [rev]. rewrite fold_left_app. cbn [fold_left].
    rewrite IH. unfold unselected.
    destruct (Z.lt_ge_cases i 0) as [Hneg|Hpos].
    + rewrite delete_at_negative by exact Hneg.
      symmetry. apply unselected_below. exact Hneg.
    + replace i with (i - 0)%Z at 1 by lia.
      apply unselected_delete; [exact Hall|exact Hpos].
Qed.

Lemma delete_all_fields (idxs : list Z) (g : gui) :
  events (delete_all idxs g) = delete_each idxs (events g) /\
  listbox (delete_all idxs g) = delete_each idxs (listbox g) /\
  strip_leds (delete_all idxs g) = strip_leds g /\
  current_idx (delete_all idxs g) = current_idx g /\
  current_dual (delete_all idxs g) = current_dual g.
Proof.
  unfold delete_all, delete_each. generalize (rev idxs) as l.
  intros l. revert g. induction l as [|i l IH]; intros g; [repeat split|].
  cbn [fold_left]. destruct (IH (mkGui (delete_at i (events g))
                                   (delete_at i (listbox g)) (strip_leds g)
                                   (current_idx g) (current_dual g)))
    as (H1 & H2 & H3 & H4 & H5).
  cbn [events listbox strip_leds current_idx current_dual] in *.
  repeat split; assumption.
Qed.

Lemma delete_each_map {A B : Type} (f : A -> B) (idxs : list Z) (xs : list A) :
  delete_each idxs (map f xs) = map f (delete_each idxs xs).
Proof.
  unfold delete_each. generalize (rev idxs) as l. intros l. revert xs.
  induction l as [|i l IH]; intros xs; [reflexivity|].
  cbn [fold_left]. rewrite delete_at_map. apply IH.
Qed.

(** ** Input parsing and validation *)

Section GuiProperties.

Variable py_strip : string -> string.
Variable py_int : string -> option Z.
Variable py_float : string -> option Q.
Variable listbox_line : PaceEvent -> string.
Variable strip_begins : Z -> bool.

Lemma parse_color_byte_valued (s : string) : byte_valued (_parse_color py_int s).
Proof.
  unfold _parse_color, byte_valued.
  destruct (traverse py_int (Text.split "," s)) as [[|r [|g [|b [|x l]]]]|];
    lia.
Qed.

(** X17.  [_parse_color] never raises and always yields a colour with
    channels in 0..255, whatever [int] makes of the text: the three parsed
    channels saturated, or green [(0, 255, 0)].  Such a colour goes through
    [pack_color] unchanged in every colour order, and every trail level
    computed from it is byte-valued too. *)
Theorem parse_color_always_a_colour (s : string) :
  byte_valued (_parse_color py_int s) /\
  (forall r g b : Z,
     traverse py_int (Text.split "," s) = Some [r; g; b] ->
     _parse_color py_int s = (clamp_byte r, clamp_byte g, clamp_byte b)) /\
  (forall l : list Z,
     traverse py_int (Text.split "," s) = Some l -> List.length l <> 3%nat ->
     _parse_color py_int s = (0, 255, 0)%Z) /\
  (traverse py_int (Text.split "," s) = None ->
   _parse_color py_int s = (0, 255, 0)%Z) /\
  (forall order : color_order,
     let '(r, g, b) := _parse_color py_int s in
     unpack_color order (pack_color r g b order) = (r, g, b)) /\
  (forall ev : PaceEvent,
     color ev = _parse_color py_int s ->
     Forall byte_valued (precompute_trail ev)).
Proof.
  pose proof (parse_color_byte_valued s) as Hb.
  split; [exact Hb|]. split; [|split; [|split; [|split]]].
  - intros r g b H. unfold _parse_color. rewrite H.
    rewrite !clamp_byte_max_min. reflexivity.
  - intros l H Hl. unfold _parse_color. rewrite H.
    destruct l as [|r [|g [|b [|x l]]]]; try reflexivity.
    contradiction Hl. reflexivity.
  - intros H. unfold _parse_color. rewrite H. reflexivity.
  - intros order. destruct (_parse_color py_int s) as [[r g] b].
    destruct (unpack_pack r g b order) as [_ U]. rewrite U.
    destruct Hb as (Hr & Hg & Hbl).
    rewrite !clamp_byte_id by assumption. reflexivity.
  - intros ev Hc. rewrite <- Hc in Hb.
    assert (Hn : nonneg_colour (color ev)).
    { unfold byte_valued, nonneg_colour in *.
      destruct (color ev) as [[r g] b]. lia. }
    pose proof (trail_levels_bounded ev Hn) as Hl.
    eapply Forall_impl; [|exact Hl].
    intros [[r' g'] b']. unfold byte_valued in *.
    destruct (color ev) as [[r g] b]. lia.
Qed.

Lemma build_event_checked (f : form) (sl : option (list Q)) (ev : PaceEvent) :
  build_event py_strip py_int py_float f sl = Some ev ->
  byte_valued (color ev) /\
  py_int (dist_var f) = Some (distance_m ev) /\
  leds_var f = Some (rail_leds ev) /\
  lap_var f = Some (laps_m ev) /\
  trail_var f = Some (trail_len ev) /\
  start_led ev = (if (distance_m ev =? 1609)%Z then Some START_LED_MILE else None) /\
  splits_100 ev = sl /\
  Some (target_time_s ev) =
    match sl with
    | Some (s :: ss) => Some (py_sum (s :: ss))
    | _ => _parse_time py_strip py_int py_float (time_var f)
    end.
Proof.
  unfold build_event.
  destruct (py_int (dist_var f)) as [d|]; [|discriminate].
  destruct (leds_var f) as [leds|]; [|discriminate].
  destruct (match sl with
            | Some (s :: ss) => Some (py_sum (s :: ss))
            | _ => _parse_time py_strip py_int py_float (time_var f)
            end) as [t|] eqn:Ht; [|discriminate].
  destruct (lap_var f) as [laps|]; [|discriminate].
  destruct (trail_var f) as [trail|]; [|discriminate].
  intros H. injection H as <-. cbn [color distance_m rail_leds laps_m trail_len
                                    start_led splits_100 target_time_s].
  repeat split; try reflexivity. apply parse_color_byte_valued.
Qed.

Lemma store_event_added (ev ev' : PaceEvent) (g g' : gui) :
  store_event listbox_line strip_begins ev g = (Added ev', g') ->
  ev' = ev /\
  g' = mkGui (events g ++ [ev]) (listbox g ++ [listbox_line ev]) (rail_leds ev)
         (current_idx g) (current_dual g) /\
  (rail_leds ev <> strip_leds g -> strip_begins (rail_leds ev) = true).
Proof.
  unfold store_event.
  destruct (negb (rail_leds ev =? strip_leds g)%Z) eqn:Hne;
    destruct (strip_begins (rail_leds ev)) eqn:Hb; cbn [negb andb];
    intros H; try discriminate; injection H as <- <-;
    repeat split; try reflexivity.
  intros Hd. apply negb_false_iff, Z.eqb_eq in Hne. contradiction.
Qed.

Lemma store_event_kept (ev : PaceEvent) (g g' : gui) (out : add_outcome) :
  store_event listbox_line strip_begins ev g = (out, g') ->
  (forall ev', out <> Added ev') -> g' = g.
Proof.
  unfold store_event.
  destruct (_ && _)%bool; intros H Hn; injection H as <- <-; [reflexivity|].
  contradiction (Hn ev). reflexivity.
Qed.

Lemma add_event_inv (f : form) (g g' : gui) (out : add_outcome) :
  add_event py_strip py_int py_float listbox_line strip_begins f g = (out, g') ->
  (forall ev, out = Added ev ->
     checked_event py_strip py_int py_float f ev /\
     g' = mkGui (events g ++ [ev]) (listbox g ++ [listbox_line ev]) (rail_leds ev)
            (current_idx g) (current_dual g) /\
     (rail_leds ev <> strip_leds g -> strip_begins (rail_leds ev) = true)) /\
  ((forall ev, out <> Added ev) -> g' = g).
Proof.
  unfold add_event.
  destruct (Text.nonempty (py_strip (splits_var f))) eqn:Hst.
  - destruct (parse_splits py_strip py_float (py_strip (splits_var f)))
      as [splits|] eqn:Hps.
    2:{ intros H. injection H as <- <-. split; [discriminate|reflexivity]. }
    destruct (py_int (dist_var f)) as [d|] eqn:Hd.
    2:{ intros H. injection H as <- <-. split; [discriminate|reflexivity]. }
    destruct (negb ((d =? 600)%Z || (d =? 800)%Z)) eqn:Hd68.
    { intros H. injection H as <- <-. split; [discriminate|reflexivity]. }
    destruct (negb (Z.of_nat (List.length splits) =? d / 100)%Z
              || existsb (fun s => Qle_bool s 0) splits)%bool eqn:Hval.
    { intros H. injection H as <- <-. split; [discriminate|reflexivity]. }
    apply negb_false_iff in Hd68. apply orb_false_iff in Hval.
    destruct Hval as [Hlen _].
    apply negb_false_iff, Z.eqb_eq in Hlen.
    assert (Hd' : (d = 600 \/ d = 800)%Z).
    { apply orb_true_iff in Hd68. destruct Hd68 as [H|H]; apply Z.eqb_eq in H; auto. }
    assert (Hne : splits <> []).
    { intros ->. cbn in Hlen. destruct Hd' as [-> | ->]; discriminate Hlen. }
    destruct (build_event py_strip py_int py_float f (Some splits)) as [ev|] eqn:Hb.
    2:{ intros H. injection H as <- <-. split; [discriminate|reflexivity]. }
    intros H. split.
    + intros ev' ->.
      destruct (store_event_added _ _ _ _ H) as (-> & Hg & Hs).
      split; [|split; assumption].
      destruct (build_event_checked _ _ _ Hb)
        as (C1 & C2 & C3 & C4 & C5 & C6 & C7 & C8).
      rewrite Hd in C2. injection C2 as C2.
      unfold checked_event. rewrite C7.
      repeat split; try assumption; try congruence.
      destruct splits as [|s ss]; [contradiction|]. congruence.
    + intros Hn. exact (store_event_kept _ _ _ _ H Hn).
  - destruct (build_event py_strip py_int py_float f None) as [ev|] eqn:Hb.
    2:{ intros H. injection H as <- <-. split; [discriminate|reflexivity]. }
    intros H. split.
    + intros ev' ->.
      destruct (store_event_added _ _ _ _ H) as (-> & Hg & Hs).
      split; [|split; assumption].
      destruct (build_event_checked _ _ _ Hb)
        as (C1 & C2 & C3 & C4 & C5 & C6 & C7 & C8).
      unfold checked_event. rewrite C7.
      repeat split; try assumption; try congruence.
      destruct (py_strip (splits_var f)); [reflexivity|discriminate].
    + intros Hn. exact (store_event_kept _ _ _ _ H Hn).
Qed.

(** X18.  An event that [add_event] appends has passed its checks: its
    fields are the entries of the form, its colour is byte-valued,
    [start_led] is the mile start exactly for a distance of 1609, and if it
    carries splits then the distance is 600 or 800, there is one split per
    100 m and the target time is their sum; without splits the target time
    is what [_parse_time] makes of the time entry.  The event goes to the
    end of the list and of the listbox and the strip has the event's size
    afterwards.  A call that ends in an error box or an exception leaves
    the list, the listbox and the strip as they were. *)
Theorem add_event_checks_what_it_appends (f : form) (g g' : gui) (out : add_outcome)
    (Hadd : add_event py_strip py_int py_float listbox_line strip_begins f g
            = (out, g')) :
  (forall ev, out = Added ev ->
     checked_event py_strip py_int py_float f ev /\
     g' = mkGui (events g ++ [ev]) (listbox g ++ [listbox_line ev]) (rail_leds ev)
            (current_idx g) (current_dual g) /\
     (rail_leds ev <> strip_leds g -> strip_begins (rail_leds ev) = true)) /\
  ((forall ev, out <> Added ev) -> g' = g).
Proof.
  destruct (add_event_inv f g g' out Hadd) as (Hadded & Hkept).
  split.
  - intros ev Hev. exact (Hadded ev Hev).
  - exact Hkept.
Qed.

End GuiProperties.

Lemma add_event_checks_what_it_appends_witness :
  add_event sample_strip sample_int_splits sample_float_splits name sample_begins
    form_splits gui_one =
  (Added ev_splits_800,
   mkGui [ev_default; ev_splits_800] ["Race"%string; "800 splits"%string] 200
     None false) /\
  checked_event sample_strip sample_int_splits sample_float_splits form_splits
    ev_splits_800 /\
  splits_100 ev_splits_800 = Some splits_800 /\
  List.length splits_800 = 8%nat /\
  target_time_s ev_splits_800 = py_sum splits_800 /\
  add_event sample_strip sample_int sample_float name sample_begins
    form_default gui_empty =
  (Added ev_default, mkGui [ev_default] ["Race"%string] 200 None false) /\
  checked_event sample_strip sample_int sample_float form_default ev_default.
Proof.
  assert (Hadd : add_event sample_strip sample_int_splits sample_float_splits name
                   sample_begins form_splits gui_one =
                 (Added ev_splits_800,
                  mkGui [ev_default; ev_splits_800]
                    ["Race"%string; "800 splits"%string] 200 None false))
    by reflexivity.
  assert (Hadd0 : add_event sample_strip sample_int sample_float name sample_begins
                   form_default gui_empty =
                 (Added ev_default, mkGui [ev_default] ["Race"%string] 200 None false))
    by reflexivity.
  split; [exact Hadd|].
  split.
  { exact (proj1 (proj1 (add_event_checks_what_it_appends sample_strip
                           sample_int_splits sample_float_splits name sample_begins
                           form_splits gui_one _ _ Hadd) ev_splits_800 eq_refl)). }
  split; [reflexivity|]. split; [reflexivity|]. split; [reflexivity|].
  split; [exact Hadd0|].
  exact (proj1 (proj1 (add_event_checks_what_it_appends sample_strip sample_int
                         sample_float name sample_begins form_default gui_empty _ _
                         Hadd0) ev_default eq_refl)).
Defined.

Section GuiRuns.

Variable py_strip : string -> string.
Variable py_int : string -> option Z.
Variable py_float : string -> option Q.
Variable listbox_line : PaceEvent -> string.
Variable strip_begins : Z -> bool.

Lemma delete_all_in_step (idxs : list Z) (g : gui) :
  in_step listbox_line g -> in_step listbox_line (delete_all idxs g).
Proof.
  unfold in_step. intros H.
  destruct (delete_all_fields idxs g) as (He & Hl & _).
  rewrite He, Hl, H. apply delete_each_map.
Qed.

(** X20.  The listbox always shows the event list: if its lines are the
    lines of the events, in order, then they still are after [add_event]
    (however it ends), [remove_selected], [clear_queue], the start of a
    single or dual run and the cleanup that follows either; the two are in
    step when the window opens. *)
Theorem listbox_follows_events (g : gui) (Hstep : in_step listbox_line g) :
  (forall f out g',
     add_event py_strip py_int py_float listbox_line strip_begins f g = (out, g') ->
     in_step listbox_line g') /\
  (forall idxs, in_step listbox_line (remove_selected idxs g)) /\
  (forall busy, in_step listbox_line (clear_queue busy g)) /\
  (forall busy idxs r g',
     start_selected busy idxs g = Ok (r, g') -> in_step listbox_line g') /\
  (forall idx, in_step listbox_line (finish_selected idx g)) /\
  (forall busy idxs r g',
     start_two_selected busy idxs g = Ok (r, g') -> in_step listbox_line g') /\
  (forall i1 i2, in_step listbox_line (finish_dual i1 i2 g)) /\
  (forall n, in_step listbox_line (mkGui [] [] n None false)).
Proof.
  repeat split.
  - intros f out g' Hadd.
    destruct (add_event_inv py_strip py_int py_float listbox_line strip_begins
                f g g' out Hadd) as (Hok & Hkeep).
    destruct out as [t| |ev].
    + rewrite Hkeep by discriminate. exact Hstep.
    + rewrite Hkeep by discriminate. exact Hstep.
    + destruct (Hok ev eq_refl) as (_ & -> & _).
      unfold in_step in *. cbn [events listbox].
      rewrite map_app, Hstep. reflexivity.
  - intros idxs. unfold remove_selected.
    destruct idxs as [|i rest]; [exact Hstep|].
    destruct (current_dual g); [exact Hstep|].
    destruct (current_idx g) as [c|].
    + destruct (existsb (Z.eqb c) (i :: rest)); [exact Hstep|].
      now apply delete_all_in_step.
    + now apply delete_all_in_step.
  - intros busy. unfold clear_queue. destruct busy; [exact Hstep|reflexivity].
  - intros busy idxs r g'. unfold start_selected.
    destruct busy; [intros H; injection H as <- <-; exact Hstep|].
    destruct idxs as [|idx rest]; [intros H; injection H as <- <-; exact Hstep|].
    destruct (idx >=? _)%Z; [intros H; injection H as <- <-; exact Hstep|].
    destruct (Py.index (events g) idx) as [ev| |]; cbn [obind]; try discriminate.
    intros H. injection H as <- <-. exact Hstep.
  - intros idx. unfold finish_selected, in_step in *. cbn [events listbox].
    rewrite Hstep. apply delete_at_map.
  - intros busy idxs r g'. unfold start_two_selected.
    destruct busy; [intros H; injection H as <- <-; exact Hstep|].
    destruct idxs as [|i1 [|i2 [|i3 rest]]];
      try (intros H; injection H as <- <-; exact Hstep).
    destruct (pick_event g (Z.min i1 i2)) as [o1| |]; cbn [obind]; try discriminate.
    destruct (pick_event g (Z.max i1 i2)) as [o2| |]; cbn [obind]; try discriminate.
    destruct o1 as [ev1|], o2 as [ev2|];
      try (intros H; injection H as <- <-; exact Hstep).
    destruct (negb (rail_leds ev1 =? rail_leds ev2)%Z);
      [intros H; injection H as <- <-; exact Hstep|].
    destruct (negb (laps_m ev1 =? laps_m ev2)%Z);
      intros H; injection H as <- <-; exact Hstep.
  - intros i1 i2. unfold finish_dual.
    pose proof (delete_all_in_step [Z.min i1 i2; Z.max i1 i2] g Hstep) as H.
    exact H.
Qed.

End GuiRuns.

Lemma listbox_follows_events_witness :
  in_step name gui_pair /\
  remove_selected [0%Z] gui_pair =
    mkGui [ev_splits_800] ["800 splits"%string] 200 None false /\
  in_step name (remove_selected [0%Z] gui_pair) /\
  add_event sample_strip sample_int sample_float name sample_begins
    form_default gui_pair =
    (Added ev_default,
     mkGui [ev_default; ev_splits_800; ev_default]
       ["Race"%string; "800 splits"%string; "Race"%string] 200 None false) /\
  in_step name
    (mkGui [ev_default; ev_splits_800; ev_default]
       ["Race"%string; "800 splits"%string; "Race"%string] 200 None false) /\
  finish_selected 1 gui_pair = mkGui [ev_default] ["Race"%string] 200 None false /\
  in_step name (finish_selected 1 gui_pair) /\
  clear_queue false gui_pair = mkGui [] [] 200 None false /\
  in_step name (clear_queue false gui_pair) /\
  listbox (finish_dual 0 1 gui_pair) = [] /\
  in_step name (finish_dual 0 1 gui_pair).
Proof.
  assert (Hstep : in_step name gui_pair) by reflexivity.
  destruct (listbox_follows_events sample_strip sample_int sample_float name
              sample_begins gui_pair Hstep)
    as (Hadd & Hrem & Hclear & _ & Hfin & _ & Hdual & _).
  split; [exact Hstep|].
  split; [reflexivity|]. split; [exact (Hrem [0%Z])|].
  split; [reflexivity|].
  split; [exact (Hadd form_default _ _ eq_refl)|].
  split; [reflexivity|]. split; [exact (Hfin 1%Z)|].
  split; [reflexivity|]. split; [exact (Hclear false)|].
  split; [reflexivity|]. exact (Hdual 0%Z 1%Z).
Defined.

(** ** Removing and running queued events *)

Lemma selected_below_le (idxs : list Z) (n : nat) :
  forall k : Z, (selected_below idxs k n <= n)%nat.
Proof.
  induction n as [|n IH]; intros k; cbn [selected_below]; [lia|].
  specialize (IH (k + 1)%Z). destruct (existsb (Z.eqb k) idxs); lia.
Qed.

Lemma unselected_from_position {A : Type} (idxs : list Z) (xs : list A) (x : A) :
  forall (k : Z) (n : nat),
    nth_error xs n = Some x ->
    existsb (Z.eqb (k + Z.of_nat n)) idxs = false ->
    nth_error (unselected_from k idxs xs) (n - selected_below idxs k n) = Some x.
Proof.
  induction xs as [|y rest IH]; intros k n Hn Hsel; [destruct n; discriminate|].
  cbn [unselected_from].
  destruct n as [|n].
  - injection Hn as ->. rewrite Z.add_0_r in Hsel. rewrite Hsel. reflexivity.
  - cbn [nth_error] in Hn. cbn [selected_below].
    assert (Hrec : nth_error (unselected_from (k + 1) idxs rest)
                     (n - selected_below idxs (k + 1) n) = Some x).
    { apply IH; [exact Hn|].
      replace (k + 1 + Z.of_nat n)%Z with (k + Z.of_nat (S n))%Z by lia.
      exact Hsel. }
    pose proof (selected_below_le idxs n (k + 1)%Z) as Hle.
    destruct (existsb (Z.eqb k) idxs).
    + replace (S n - (1 + selected_below idxs (k + 1) n))%nat
        with (n - selected_below idxs (k + 1) n)%nat by lia.
      exact Hrec.
    + replace (S n - (0 + selected_below idxs (k + 1) n))%nat
        with (S (n - selected_below idxs (k + 1) n)) by lia.
      exact Hrec.
Qed.

Lemma existsb_not_in (c : Z) (idxs : list Z) :
  existsb (Z.eqb c) idxs = false <-> ~ In c idxs.
Proof.
  split.
  - intros H Hin. assert (existsb (Z.eqb c) idxs = true); [|congruence].
    apply existsb_exists. exists c. split; [exact Hin|apply Z.eqb_refl].
  - intros H. apply not_true_is_false. intros Ht.
    apply existsb_exists in Ht. destruct Ht as (j & Hj & He).
    apply Z.eqb_eq in He. subst j. contradiction.
Qed.

(** X21.  [remove_selected] removes exactly the selection.  With the
    selection in ascending order, as the listbox reports it, the events and
    the listbox lines that remain are those whose index is not selected, in
    their order (selected indices past the end remove nothing); nothing is
    removed during a dual run or when the running event is selected.  The
    running event therefore stays in the list, but it moves down by the
    number of removed entries before it while [current_idx] keeps its
    value. *)
Theorem remove_selected_removes_the_selection (g : gui) (idxs : list Z)
    (Hsorted : StronglySorted Z.lt idxs) :
  (current_dual g = true \/ (exists c, current_idx g = Some c /\ In c idxs) ->
   remove_selected idxs g = g) /\
  (current_dual g = false ->
   (forall c, current_idx g = Some c -> ~ In c idxs) ->
   remove_selected idxs g =
   mkGui (unselected idxs (events g)) (unselected idxs (listbox g)) (strip_leds g)
     (current_idx g) (current_dual g) /\
   forall (c : nat) (ev : PaceEvent),
     current_idx g = Some (Z.of_nat c) ->
     nth_error (events g) c = Some ev ->
     nth_error (events (remove_selected idxs g)) (c - selected_below idxs 0 c)
       = Some ev /\
     current_idx (remove_selected idxs g) = Some (Z.of_nat c)).
Proof.
  split.
  - intros [Hd|(c & Hc & Hin)]; unfold remove_selected.
    + destruct idxs; [reflexivity|]. rewrite Hd. reflexivity.
    + destruct idxs as [|i rest]; [reflexivity|].
      destruct (current_dual g); [reflexivity|]. rewrite Hc.
      replace (existsb (Z.eqb c) (i :: rest)) with true; [reflexivity|].
      symmetry. apply existsb_exists. exists c. split; [exact Hin|apply Z.eqb_refl].
  - intros Hd Hc.
    assert (Hrem : remove_selected idxs g =
              mkGui (unselected idxs (events g)) (unselected idxs (listbox g))
                (strip_leds g) (current_idx g) (current_dual g)).
    { destruct (delete_all_fields idxs g) as (He & Hl & Hs & Hi & Hdu).
      rewrite !delete_each_unselected in * by exact Hsorted.
      assert (Hall : delete_all idxs g =
                mkGui (unselected idxs (events g)) (unselected idxs (listbox g))
                  (strip_leds g) (current_idx g) (current_dual g)).
      { destruct (delete_all idxs g) as [e l s i d].
        cbn [events listbox strip_leds current_idx current_dual] in *.
        congruence. }
      unfold remove_selected.
      destruct idxs as [|i rest].
      - unfold unselected. rewrite !unselected_none. destruct g; reflexivity.
      - rewrite Hd in Hall |- *.
        destruct (current_idx g) as [c|] eqn:Hcur; [|exact Hall].
        replace (existsb (Z.eqb c) (i :: rest)) with false; [exact Hall|].
        symmetry. apply existsb_not_in. apply Hc. reflexivity. }
    split; [exact Hrem|].
    intros c ev Hcur Hnth. rewrite Hrem. cbn [events current_idx].
    split; [|exact Hcur].
    unfold unselected. apply unselected_from_position; [exact Hnth|].
    apply existsb_not_in. rewrite Z.add_0_l. apply Hc. exact Hcur.
Qed.

Lemma remove_selected_removes_the_selection_witness :
  StronglySorted Z.lt [0%Z; 1%Z] /\
  remove_selected [0%Z; 1%Z] gui_three =
    mkGui [ev_splits_800] ["800 splits"%string] 200 (Some 2%Z) false /\
  nth_error (events (remove_selected [0%Z; 1%Z] gui_three)) 0 = Some ev_splits_800 /\
  current_idx (remove_selected [0%Z; 1%Z] gui_three) = Some 2%Z.
Proof.
  assert (Hsorted : StronglySorted Z.lt [0%Z; 1%Z]).
  { repeat constructor. }
  split; [exact Hsorted|].
  destruct (proj2 (remove_selected_removes_the_selection gui_three [0%Z; 1%Z] Hsorted))
    as (Hrem & Hrun).
  - reflexivity.
  - intros c Hc. injection Hc as <-. cbn. intros [H|[H|[]]]; discriminate.
  - split; [exact Hrem|].
    exact (Hrun 2%nat ev_splits_800 eq_refl eq_refl).
Defined.

Lemma validate_pair (n : Z) (ev1 ev2 : PaceEvent) :
  rail_leds ev1 = rail_leds ev2 -> laps_m ev1 = laps_m ev2 ->
  (validate n [ev1; ev2] = Ok tt <-> rail_leds ev1 = n).
Proof.
  intros Hr Hl. unfold validate. rewrite validate_from_ok.
  split.
  - intros H. inversion H as [|? ? (H1 & _) _]. exact H1.
  - intros H. repeat constructor; congruence.
Qed.

(** X22.  A pair that [start_two_selected] starts has gone through the
    same checks as [run_events_parallel] makes, but for one: the two events
    are those at the two selected indices, lower index first, their
    [rail_leds] agree and their [laps_m] agree, so the validation of
    [run_events_parallel] accepts the pair exactly when the strip has the
    size of the events.  The start marks the dual run, during which
    [remove_selected] changes nothing, and the cleanup scheduled for the
    end of the run removes the two events that ran and clears the mark. *)
Theorem dual_start_checks_the_pair (busy : bool) (idxs : list Z) (g g' : gui)
    (ev1 ev2 : PaceEvent)
    (Hstart : start_two_selected busy idxs g = Ok (Started ev1 ev2, g')) :
  busy = false /\
  (exists i1 i2 : Z,
     idxs = [i1; i2] /\
     Py.index (events g) (Z.min i1 i2) = Ok ev1 /\
     Py.index (events g) (Z.max i1 i2) = Ok ev2 /\
     (i1 <> i2 ->
      finish_dual i1 i2 g' =
      mkGui (unselected [Z.min i1 i2; Z.max i1 i2] (events g))
        (unselected [Z.min i1 i2; Z.max i1 i2] (listbox g))
        (strip_leds g) None false)) /\
  rail_leds ev1 = rail_leds ev2 /\
  laps_m ev1 = laps_m ev2 /\
  (forall n : Z, validate n [ev1; ev2] = Ok tt <-> rail_leds ev1 = n) /\
  g' = mkGui (events g) (listbox g) (strip_leds g) None true /\
  (forall sel : list Z, remove_selected sel g' = g').
Proof.
  unfold start_two_selected in Hstart.
  destruct busy; [discriminate|].
  destruct idxs as [|i1 [|i2 [|i3 rest]]]; try discriminate.
  unfold pick_event in Hstart.
  destruct (Z.min i1 i2 <? Z.of_nat (List.length (events g)))%Z.
  2:{ cbn [obind] in Hstart.
      destruct (Z.max i1 i2 <? _)%Z; [|discriminate].
      destruct (Py.index (events g) (Z.max i1 i2)); discriminate. }
  destruct (Py.index (events g) (Z.min i1 i2)) as [e1| |] eqn:H1; try discriminate.
  cbn [obind] in Hstart.
  destruct (Z.max i1 i2 <? Z.of_nat (List.length (events g)))%Z; [|discriminate].
  destruct (Py.index (events g) (Z.max i1 i2)) as [e2| |] eqn:H2; try discriminate.
  cbn [obind] in Hstart.
  destruct (negb (rail_leds e1 =? rail_leds e2)%Z) eqn:Hr; [discriminate|].
  destruct (negb (laps_m e1 =? laps_m e2)%Z) eqn:Hl; [discriminate|].
  injection Hstart as <- <- <-.
  apply negb_false_iff, Z.eqb_eq in Hr. apply negb_false_iff, Z.eqb_eq in Hl.
  split; [reflexivity|]. split; [|split; [exact Hr|split; [exact Hl|split; [|split]]]].
  - exists i1, i2. repeat split; try assumption.
    intros Hne. unfold finish_dual.
    destruct (delete_all_fields [Z.min i1 i2; Z.max i1 i2]
                (mkGui (events g) (listbox g) (strip_leds g) None true))
      as (He & Hlb & Hs & _ & _).
    cbn [events listbox strip_leds] in He, Hlb, Hs.
    rewrite He, Hlb, Hs.
    rewrite !delete_each_unselected; [reflexivity| |];
      repeat constructor; lia.
  - intros n. apply validate_pair; assumption.
  - reflexivity.
  - intros sel. unfold remove_selected. destruct sel; reflexivity.
Qed.

Lemma dual_start_checks_the_pair_witness :
  start_two_selected false [1%Z; 0%Z] gui_pair =
    Ok (Started ev_default ev_splits_800,
        mkGui [ev_default; ev_splits_800] ["Race"%string; "800 splits"%string] 200
          None true) /\
  (validate 200 [ev_default; ev_splits_800] = Ok tt <-> rail_leds ev_default = 200%Z).
Proof.
  assert (Hstart : start_two_selected false [1%Z; 0%Z] gui_pair =
                   Ok (Started ev_default ev_splits_800,
                       mkGui [ev_default; ev_splits_800]
                         ["Race"%string; "800 splits"%string] 200 None true))
    by reflexivity.
  split; [exact Hstart|].
  destruct (dual_start_checks_the_pair false [1%Z; 0%Z] gui_pair _ _ _ Hstart)
    as (_ & _ & _ & _ & Hv & _).
  exact (Hv 200%Z).
Defined.

(** X27.  A single run removes the event it ran.  [start_selected] starts
    the event at the first selected index and records that index; until
    the cleanup, [remove_selected] refuses every selection that contains
    it; the cleanup scheduled for the end of the run deletes the entry at
    that index from the list and the listbox and clears [current_idx], so
    that, the list being as it was at the start, exactly the event that ran
    is gone.  Nothing is started while another run is alive, without a
    selection, or for an index past the end of the list. *)
Theorem single_run_removes_its_event (busy : bool) (idxs : list Z) (g g' : gui)
    (started : option PaceEvent)
    (Hstart : start_selected busy idxs g = Ok (started, g')) :
  (busy = true \/ idxs = [] \/
   (exists idx rest, idxs = idx :: rest /\
                     (Z.of_nat (List.length (events g)) <= idx)%Z) ->
   started = None /\ g' = g) /\
  (forall ev, started = Some ev ->
     busy = false /\
     exists idx rest,
       idxs = idx :: rest /\
       Py.index (events g) idx = Ok ev /\
       g' = mkGui (events g) (listbox g) (strip_leds g) (Some idx) (current_dual g) /\
       (forall sel, In idx sel -> remove_selected sel g' = g') /\
       ((0 <= idx)%Z ->
        finish_selected idx g' =
        mkGui (unselected [idx] (events g)) (unselected [idx] (listbox g))
          (strip_leds g) None (current_dual g) /\
        nth_error (events g) (Z.to_nat idx) = Some ev /\
        S (List.length (events (finish_selected idx g'))) = List.length (events g))).
Proof.
  unfold start_selected in Hstart.
  split.
  - intros [->|[->|(idx & rest & -> & Hout)]].
    + injection Hstart as <- <-. split; reflexivity.
    + destruct busy; injection Hstart as <- <-; split; reflexivity.
    + destruct busy; [injection Hstart as <- <-; split; reflexivity|].
      replace (idx >=? Z.of_nat (List.length (events g)))%Z with true in Hstart
        by (symmetry; apply Z.geb_le; exact Hout).
      injection Hstart as <- <-. split; reflexivity.
  - intros ev ->.
    destruct busy; [discriminate|]. split; [reflexivity|].
    destruct idxs as [|idx rest]; [discriminate|].
    destruct (idx >=? Z.of_nat (List.length (events g)))%Z eqn:Hin; [discriminate|].
    destruct (Py.index (events g) idx) as [e| |] eqn:Hidx; try discriminate.
    cbn [obind] in Hstart. injection Hstart as <- <-.
    exists idx, rest. split; [reflexivity|]. split; [exact Hidx|].
    split; [reflexivity|]. split.
    + intros sel Hsel. unfold remove_selected.
      destruct sel as [|i l]; [reflexivity|].
      cbn [current_dual current_idx].
      destruct (current_dual g); [reflexivity|].
      replace (existsb (Z.eqb idx) (i :: l)) with true; [reflexivity|].
      symmetry. apply existsb_exists. exists idx. split; [exact Hsel|apply Z.eqb_refl].
    + intros Hpos.
      assert (Hlt : (idx < Z.of_nat (List.length (events g)))%Z).
      { rewrite Z.geb_leb in Hin. apply Z.leb_gt in Hin. exact Hin. }
      assert (Hsorted : StronglySorted Z.lt [idx]) by repeat constructor.
      pose proof (delete_each_unselected [idx] (events g) Hsorted) as He.
      pose proof (delete_each_unselected [idx] (listbox g) Hsorted) as Hl.
      unfold delete_each in He, Hl. cbn [rev app fold_left] in He, Hl.
      unfold finish_selected. cbn [events listbox strip_leds current_dual].
      rewrite He, Hl. split; [reflexivity|]. split.
      * unfold Py.index in Hidx. cbv zeta in Hidx.
        replace (idx <? 0)%Z with false in Hidx by (symmetry; apply Z.ltb_ge; lia).
        destruct ((0 <=? idx)%Z && (idx <? Z.of_nat (List.length (events g)))%Z)%bool;
          [|discriminate].
        destruct (nth_error (events g) (Z.to_nat idx)) as [x|]; [|discriminate].
        injection Hidx as ->. reflexivity.
      * rewrite <- He. apply delete_at_length. lia.
Qed.

Lemma single_run_removes_its_event_witness :
  start_selected false [1%Z] gui_pair =
    Ok (Some ev_splits_800,
        mkGui [ev_default; ev_splits_800] ["Race"%string; "800 splits"%string] 200
          (Some 1%Z) false) /\
  finish_selected 1
    (mkGui [ev_default; ev_splits_800] ["Race"%string; "800 splits"%string] 200
       (Some 1%Z) false) =
  mkGui (unselected [1%Z] (events gui_pair)) (unselected [1%Z] (listbox gui_pair))
    (strip_leds gui_pair) None (current_dual gui_pair).
Proof.
  assert (Hstart : start_selected false [1%Z] gui_pair =
                   Ok (Some ev_splits_800,
                       mkGui [ev_default; ev_splits_800]
                         ["Race"%string; "800 splits"%string] 200 (Some 1%Z) false))
    by reflexivity.
  split; [exact Hstart|].
  destruct (proj2 (single_run_removes_its_event false [1%Z] gui_pair _ _ Hstart)
              ev_splits_800 eq_refl)
    as (_ & idx & rest & Hsel & _ & _ & _ & Hfin).
  injection Hsel as <- _.
  exact (proj1 (Hfin ltac:(lia))).
Defined.

(** ** Distance covered, split in force *)

Lemma pace_mps_sign (ev : PaceEvent) : (0 <= distance_m ev)%Z -> 0 <= pace_mps ev.
Proof.
  intros Hd. unfold pace_mps.
  destruct (Qlt_le_dec 0 (target_time_s ev)) as [Ht|Ht]; [|lra].
  apply Qle_shift_div_l; [exact Ht|]. rewrite Qmult_0_l.
  change 0 with (inject_Z 0). rewrite <- Zle_Qle. exact Hd.
Qed.

(** X23.  [meters_done] never goes back.  A tick of the constant-pace
    runner of an event with a non-negative distance, a tick of the
    split-pace runner over positive splits, and the advance of a sub-event
    of the parallel runner each leave [meters_done] at least where it was:
    what is added, [v * dt / leds_per_meter], is not negative. *)
Theorem meters_done_only_grows (rail : Z) (Hrail : (0 < rail)%Z) :
  (forall ev lpm levels st st' r,
     (0 <= distance_m ev)%Z -> 0 < pace_mps ev * lpm ->
     tick_const ev rail (pace_mps ev * lpm) lpm levels st = Ok (st', r) ->
     meters_done st <= meters_done st') /\
  (forall ev lpm splits levels st st' fb,
     Forall (fun s => 0 < s) splits -> 0 <= meters_done st ->
     tick_splits ev rail lpm splits levels st = Ok (st', fb) ->
     meters_done st <= meters_done st') /\
  (forall st st',
     proper st -> par_advance rail st = Ok st' ->
     st_meters_done st <= st_meters_done st').
Proof.
  pose proof dt_pos as Hdt.
  split; [|split].
  - intros ev lpm levels st st' r Hd Hv Htick.
    destruct (tick_const_inv _ _ _ _ _ _ _ _ Htick) as (Hl & _ & Hm & _).
    pose proof (pace_mps_sign ev Hd) as Hp.
    assert (Hq : pace_mps ev * lpm / lpm == pace_mps ev) by (field; exact Hl).
    rewrite Hm, Hq.
    assert (0 <= pace_mps ev * frame_dt_target)
      by (apply Qmult_le_0_compat; lra).
    lra.
  - intros ev lpm splits levels st st' fb Hpos Hm Htick.
    destruct (tick_splits_inv _ _ _ _ _ _ _ _ Htick)
      as (v & h & Hv & Hl & _ & Hm' & _).
    assert (Hne : splits <> []).
    { intros ->. unfold split_velocity in Hv.
      destruct (Py.index [] (seg_index [] (meters_done st))) eqn:Hi;
        try discriminate.
      unfold Py.index in Hi. cbn [List.length] in Hi.
      destruct (seg_index [] (meters_done st) <? 0)%Z;
        destruct (_ && _)%bool eqn:Hb; try discriminate;
        apply andb_true_iff in Hb; destruct Hb as [Hb1 Hb2];
        apply Z.leb_le in Hb1; apply Z.ltb_lt in Hb2; cbn in *; lia. }
    destruct (split_velocity_ok splits lpm (meters_done st) Hne Hpos Hm)
      as (s & Hin & Hs & _ & Hv').
    rewrite Hv in Hv'. injection Hv' as ->.
    assert (Hq : 100 / s * lpm / lpm == 100 / s) by (field; split; lra).
    rewrite Hm', Hq.
    assert (0 < 100 / s) by (apply Qlt_shift_div_l; [exact Hs|lra]).
    assert (0 < 100 / s * frame_dt_target)
      by (apply Qmult_lt_0_compat; assumption).
    lra.
  - intros st st' (Hlv & Hpos & (lpm & Hl & Hlpm) & Hc & Hs) Ha.
    destruct (par_advance_inv rail st st' Hrail Ha)
      as (v & lpm' & st1 & k & Hv & Hl' & Hl0 & _ & Hw & ->).
    rewrite Hl in Hl'. injection Hl' as <-.
    destruct Hw as ((_ & _ & _ & Hmeq & _) & _).
    destruct (completed_fields st1) as (_ & _ & _ & _ & -> & _).
    rewrite Hmeq. unfold advanced. proj.
    assert (Hq : 0 < v / lpm).
    { unfold par_velocity in Hv. destruct (st_use_splits st) eqn:Hus.
      - destruct (Hs eq_refl) as (l & Hsp & Hne & Hall & Hm).
        rewrite Hsp, Hl in Hv. cbn [obind] in Hv.
        destruct (split_velocity_ok l lpm (st_meters_done st) Hne Hall Hm)
          as (s & _ & Hs0 & _ & Hv').
        rewrite Hv in Hv'. injection Hv' as ->.
        assert (Heq : 100 / s * lpm / lpm == 100 / s) by (field; split; lra).
        rewrite Heq. apply Qlt_shift_div_l; [exact Hs0|lra].
      - injection Hv as <-. destruct (Hc eq_refl) as (Hvpos & _).
        apply Qlt_shift_div_l; [exact Hlpm|lra]. }
    assert (0 < v / lpm * frame_dt_target)
      by (apply Qmult_lt_0_compat; assumption).
    lra.
Qed.

Lemma meters_done_only_grows_witness :
  (0 < 200)%Z /\
  (exists st' r,
     tick_const ev_default 200 (pace_mps ev_default * (1 # 2)) (1 # 2)
       (precompute_trail ev_default) st_near_start = Ok (st', r) /\
     meters_done st_near_start <= meters_done st') /\
  (exists st' fb,
     tick_splits ev_splits_800 200 (1 # 2) splits_800
       (precompute_trail ev_splits_800) st_lap_end = Ok (st', fb) /\
     meters_done st_lap_end <= meters_done st') /\
  (exists st',
     par_advance 200 pst_lap_end = Ok st' /\
     st_meters_done pst_lap_end <= st_meters_done st').
Proof.
  assert (Hrail : (0 < 200)%Z) by lia.
  destruct (meters_done_only_grows 200 Hrail) as (Hconst & Hsplit & Hpar).
  split; [exact Hrail|]. split; [|split].
  - destruct (tick_const ev_default 200 (pace_mps ev_default * (1 # 2)) (1 # 2)
                (precompute_trail ev_default) st_near_start)
      as [[st' r]| |] eqn:Htick; try (vm_compute in Htick; discriminate).
    exists st', r. split; [reflexivity|].
    apply (Hconst ev_default (1 # 2) (precompute_trail ev_default) st_near_start
             st' r); [vm_compute; discriminate|reflexivity|exact Htick].
  - destruct (tick_splits ev_splits_800 200 (1 # 2) splits_800
                (precompute_trail ev_splits_800) st_lap_end)
      as [[st' fb]| |] eqn:Htick; try (vm_compute in Htick; discriminate).
    exists st', fb. split; [reflexivity|].
    apply (Hsplit ev_splits_800 (1 # 2) splits_800
             (precompute_trail ev_splits_800) st_lap_end st' fb);
      [repeat constructor|vm_compute; discriminate|exact Htick].
  - destruct (par_advance 200 pst_lap_end) as [st'| |] eqn:Hadv;
      try (vm_compute in Hadv; discriminate).
    exists st'. split; [reflexivity|].
    apply (Hpar pst_lap_end st'); [|exact Hadv].
    split; [reflexivity|]. split; [vm_compute; discriminate|].
    split; [exists (200 # 400); split; reflexivity|].
    split; [discriminate|].
    intros _. exists splits_800. split; [reflexivity|].
    split; [discriminate|]. split; [repeat constructor|vm_compute; discriminate].
Defined.

(** X24.  The split in force is [splits[min(len(splits) - 1,
    meters_done // 100)]]: for a non-empty list and a non-negative
    [meters_done] the index is always within the list, so no [IndexError]
    can occur, and from the last 100 m block on the last split stays in
    force however far [meters_done] goes.  The velocity is
    [100 / split * leds_per_meter]; a split of zero raises
    [ZeroDivisionError] and an empty list raises [IndexError]. *)
Theorem split_block_in_force (splits : list Q) (lpm m : Q) :
  (splits = [] -> split_velocity splits lpm m = Raise IndexError) /\
  (splits <> [] -> 0 <= m ->
   (0 <= seg_index splits m < Z.of_nat (List.length splits))%Z /\
   seg_index splits m = Z.min (Z.of_nat (List.length splits) - 1) (Qfloor (m / 100)) /\
   exists s : Q,
     nth_error splits (Z.to_nat (seg_index splits m)) = Some s /\
     split_velocity splits lpm m =
       (if Qeq_bool s 0 then Raise ZeroDivisionError else Ok (100 / s * lpm)) /\
     (inject_Z (100 * (Z.of_nat (List.length splits) - 1)) <= m ->
      seg_index splits m = (Z.of_nat (List.length splits) - 1)%Z /\
      s = last splits 0)).
Proof.
  split.
  - intros ->. unfold split_velocity, Py.index. cbn [List.length].
    destruct (seg_index [] m <? 0)%Z; destruct (_ && _)%bool eqn:Hb;
      try reflexivity;
      apply andb_true_iff in Hb; destruct Hb as [Hb1 Hb2];
      apply Z.leb_le in Hb1; apply Z.ltb_lt in Hb2; cbn in *; lia.
  - intros Hne Hm.
    pose proof (seg_index_value splits m) as Hidx.
    assert (Hlen : (1 <= Z.of_nat (List.length splits))%Z).
    { destruct splits; [contradiction|]. cbn [List.length]. lia. }
    assert (Hfl : (0 <= Qfloor (m / 100))%Z).
    { change 0%Z with (Qfloor 0). apply Qfloor_resp_le.
      apply Qle_shift_div_l; lra. }
    assert (Hin : (0 <= seg_index splits m < Z.of_nat (List.length splits))%Z)
      by (rewrite Hidx; lia).
    split; [exact Hin|]. split; [exact Hidx|].
    destruct (nth_error splits (Z.to_nat (seg_index splits m))) as [s|] eqn:Hn.
    2:{ apply nth_error_None in Hn. lia. }
    exists s. split; [reflexivity|]. split.
    + unfold split_velocity, Py.index.
      replace (seg_index splits m <? 0)%Z with false
        by (symmetry; apply Z.ltb_ge; lia).
      replace ((0 <=? seg_index splits m)%Z &&
               (seg_index splits m <? Z.of_nat (List.length splits))%Z)%bool
        with true
        by (symmetry; apply andb_true_iff; split;
            [apply Z.leb_le|apply Z.ltb_lt]; lia).
      rewrite Hn. cbn [obind]. unfold Py.div.
      destruct (Qeq_bool s 0); reflexivity.
    + intros Hfar.
      assert (Hlast : seg_index splits m = (Z.of_nat (List.length splits) - 1)%Z).
      { rewrite Hidx. apply Z.min_l.
        rewrite <- (Qfloor_Z (Z.of_nat (List.length splits) - 1)).
        apply Qfloor_resp_le. apply Qle_shift_div_l; [lra|].
        rewrite inject_Z_mult in Hfar.
        change (inject_Z 100) with 100 in Hfar. lra. }
      split; [exact Hlast|].
      rewrite Hlast in Hn.
      replace (Z.to_nat (Z.of_nat (List.length splits) - 1))
        with (List.length splits - 1)%nat in Hn by lia.
      rewrite <- (nth_last splits 0).
      symmetry. apply nth_error_nth. exact Hn.
Qed.

(** ** Frames that are allowed to fail *)

(** X25.  The blank frame pushed before the first tick and the clear
    after the loop are best effort: whatever the strip does, measuring the
    startup delay returns a delay that is not negative after exactly two
    clock readings, and the cleanup returns with [running_event] cleared;
    in both, only calls that blank the strip are made (writes of colour 0
    and [show]). *)
Theorem startup_and_cleanup_never_raise (E : env) (rail : Z) (w : world) :
  (exists w' l,
     measure_startup E rail w =
       (Ok (Qmax 0 (monotonic E (S (n_clock w)) - monotonic E (n_clock w))), w') /\
     0 <= Qmax 0 (monotonic E (S (n_clock w)) - monotonic E (n_clock w)) /\
     trace w' = trace w ++ l /\ Forall blank_call l /\
     n_clock w' = S (S (n_clock w)) /\
     n_poll w' = n_poll w /\
     running_event w' = running_event w) /\
  (exists w' l,
     cleanup E w = (Ok tt, w') /\
     running_event w' = false /\
     trace w' = trace w ++ l /\ Forall blank_call l).
Proof.
  split.
  - destruct (measure_startup_spec E rail w)
      as (w' & Hm & (l & Ht & Hb & Hc & Hp & Hr & _)).
    exists w', l. unfold startup_delay_at in Hm.
    repeat split; try assumption. apply Q.le_max_l.
  - destruct (cleanup_returns E w) as (w' & l & Hc & Hr & Ht & Hb).
    exists w', l. repeat split; assumption.
Qed.

(** X26.  On a strip that reports no pixels [run_events_parallel] never
    starts a run: it returns or raises before any call to the strip, the
    clock or the stop flag, and leaves [running_event] alone.  Events whose
    [rail_leds] is not 0 are rejected with [ValueError]; for events of
    [rail_leds] 0 the density is 0 (or undefined, for a lap length of 0), so
    every one of them is skipped. *)
Theorem parallel_declines_empty_strip (E : env) (fuel : nat)
    (events : list PaceEvent) (w : world)
    (Hstrip : numPixels E = 0%Z) :
  run_events_parallel E fuel events w = (Ok tt, w) \/
  (exists msg, run_events_parallel E fuel events w = (Raise (ValueError msg), w)) \/
  run_events_parallel E fuel events w = (Raise ZeroDivisionError, w).
Proof.
  destruct events as [|e0 rest]; [now left|].
  rewrite run_events_parallel_unfold by discriminate.
  set (evs := firstn 2 (e0 :: rest)).
  unfold run_pair. rewrite Hstrip.
  assert (Hval : validate 0 evs = Ok tt \/
                 exists msg, validate 0 evs = Raise (ValueError msg)).
  { unfold validate. destruct evs as [|a l]; [now left|].
    apply validate_from_result. }
  destruct Hval as [Hv|(msg & Hv)].
  - rewrite (bind_ok _ _ w w tt) by (unfold lift; rewrite Hv; reflexivity).
    assert (Hall : Forall (fun ev => rail_leds ev = 0%Z) evs).
    { unfold validate in Hv. destruct evs as [|a l]; [constructor|].
      apply validate_from_ok in Hv.
      eapply Forall_impl; [|exact Hv]. intros ev (H & _). exact H. }
    assert (Hinit : init_state 0 evs = Ok [] \/
                    init_state 0 evs = Raise ZeroDivisionError).
    { clear Hv. induction Hall as [|ev l Hev Hl IH]; [now left|].
      cbn [init_state]. unfold leds_per_meter, Py.div.
      destruct (Qeq_bool (inject_Z (laps_m ev)) 0) eqn:Hz; [now right|].
      cbn [obind]. rewrite Hev.
      replace (Qle_bool (pace_mps ev * (inject_Z 0 / inject_Z (laps_m ev))) 0)
        with true; [exact IH|].
      symmetry. apply Qle_bool_iff.
      assert (Hzero : inject_Z 0 / inject_Z (laps_m ev) == 0).
      { unfold Qdiv. change (inject_Z 0) with 0. ring. }
      rewrite Hzero. lra. }
    destruct Hinit as [Hi|Hi].
    + left. rewrite (bind_ok _ _ w w []) by (unfold lift; rewrite Hi; reflexivity).
      reflexivity.
    + right. right. apply bind_raise. unfold lift. rewrite Hi. reflexivity.
  - right. left. exists msg. apply bind_raise. unfold lift. rewrite Hv. reflexivity.
Qed.

Lemma parallel_declines_empty_strip_witness :
  numPixels env_no_pixels = 0%Z /\
  (run_events_parallel env_no_pixels 5 [ev_default] world0 = (Ok tt, world0) \/
   (exists msg,
      run_events_parallel env_no_pixels 5 [ev_default] world0
      = (Raise (ValueError msg), world0)) \/
   run_events_parallel env_no_pixels 5 [ev_default] world0
   = (Raise ZeroDivisionError, world0)).
Proof.
  assert (Hstrip : numPixels env_no_pixels = 0%Z) by reflexivity.
  split; [exact Hstrip|].
  exact (parallel_declines_empty_strip env_no_pixels 5 [ev_default] world0 Hstrip).
Defined.
